(** * creditscope data pipeline: the metrics engine of [src/data_pipeline.py]

    A shallow embedding of the metric computations of the pipeline
    ([compute_psi], [compute_auc_by_cohort], [compute_auc_by_cohort_grade],
    [compute_psi_by_cohort], [compute_feature_distributions]), of its
    summary tables ([compute_missing_rates], [compute_volume_by_cohort],
    [compute_default_rate_by_grade]) and of the status cards of the
    dashboard, together with the pandas / numpy / scikit-learn operations
    they call, and the properties of the specification proved (or refuted)
    on them.

    Modelling conventions.
    - A data frame is a [list] of rows in row order; a column is a field.
      Only the columns the metric functions read are kept.
    - A floating-point number is idealised as the exact number it denotes:
      a rational ([Q]) wherever the code only adds, divides, compares and
      rounds, a real ([R]) where it takes a logarithm.  A value of a
      feature column is finite or missing; [NaN] is [None].  Rounding
      error of binary64 is not modelled, but for one place: the rounding
      of the rolling mean, where an exact tie between two decimals is
      broken by the float operations of the code, which are then carried
      out in binary64.
    - The rows of the metric functions have their issue date and their
      grade.  The two summary tables that total a whole frame are also
      given over rows whose keys may be blank, which [groupby] drops.
    - A call returns [Ok v] or [Raise e], where [e] names the exception it
      raises, or says that the float it returns is [NaN].
    - [issue_d] is kept at month resolution, as the pair (year, month): the
      pipeline only ever reads it through [to_period("M")] and
      [to_period("Q")].
    - The library calls are modelled by what their documentation says they
      compute: [groupby] (sorted keys, rows in frame order), [merge],
      [rolling], [np.quantile] (linear interpolation), [np.unique],
      [np.histogram], [roc_auc_score] (trapezoidal area under the ROC
      curve) and [DataFrame.sample] (a prefix of a seeded permutation). *)

From Stdlib Require Import String OrderedTypeEx.
From Stdlib Require Import ZArith QArith Qround Qreals Reals Psatz Bool.
From Stdlib Require Import List Permutation.
Import ListNotations.

#[local] Set Warnings "-abstract-large-number".

(* ================================================================== *)
(** * Orders on keys

    pandas' [groupby] and [sort_values] and numpy's [unique] all order
    their keys; the class below is what they need from a key type. *)

Class KeyOrder (K : Type) := {
  kcmp : K -> K -> comparison;
  kcmp_refl : forall a, kcmp a a = Eq;
  kcmp_antisym : forall a b, kcmp b a = CompOpp (kcmp a b);
  kcmp_lt_trans : forall a b c, kcmp a b = Lt -> kcmp b c = Lt -> kcmp a c = Lt;
  kcmp_eq_compat : forall a b c, kcmp a b = Eq -> kcmp a c = kcmp b c
}.

(** Keys whose order decides Leibniz equality (everything but [Q]). *)
Class KeyLeibniz (K : Type) {O : KeyOrder K} :=
  kcmp_eq : forall a b : K, kcmp a b = Eq -> a = b.

Definition keqb {K} `{KeyOrder K} (a b : K) : bool :=
  match kcmp a b with Eq => true | _ => false end.

Definition kltb {K} `{KeyOrder K} (a b : K) : bool :=
  match kcmp a b with Lt => true | _ => false end.

Definition kleb {K} `{KeyOrder K} (a b : K) : bool :=
  match kcmp a b with Gt => false | _ => true end.

#[export] Program Instance Z_order : KeyOrder Z := {| kcmp := Z.compare |}.
Next Obligation. apply Z.compare_refl. Qed.
Next Obligation. apply Z.compare_antisym. Qed.
Next Obligation.
  rewrite Z.compare_lt_iff in *. lia.
Qed.
Next Obligation.
  apply Z.compare_eq in H. now subst.
Qed.

#[export] Instance Z_leibniz : KeyLeibniz Z.
Proof. intros a b; apply Z.compare_eq. Qed.

#[export] Program Instance string_order : KeyOrder string :=
  {| kcmp := String_as_OT.cmp |}.
Next Obligation. now apply String_as_OT.cmp_eq. Qed.
Next Obligation. apply String_as_OT.cmp_antisym. Qed.
Next Obligation.
  rewrite String_as_OT.cmp_lt in *. eapply String_as_OT.lt_trans; eauto.
Qed.
Next Obligation.
  apply String_as_OT.cmp_eq in H. now subst.
Qed.

#[export] Instance string_leibniz : KeyLeibniz string.
Proof. intros a b; apply String_as_OT.cmp_eq. Qed.

#[export] Program Instance Q_order : KeyOrder Q := {| kcmp := Qcompare |}.
Next Obligation. apply Qeq_alt. reflexivity. Qed.
Next Obligation. symmetry. apply Qcompare_antisym. Qed.
Next Obligation.
  rewrite <- Qlt_alt in *. eapply Qlt_trans; eauto.
Qed.
Next Obligation.
  apply Qeq_alt in H. now rewrite H.
Qed.

(** Lexicographic order on pairs: the order of a multi-column key. *)
Definition lex_cmp {A B} `{KeyOrder A} `{KeyOrder B} (x y : A * B) : comparison :=
  match kcmp (fst x) (fst y) with
  | Eq => kcmp (snd x) (snd y)
  | c => c
  end.

Lemma kcmp_gt_lt {K} `{KeyOrder K} (a b : K) : kcmp a b = Gt <-> kcmp b a = Lt.
Proof.
  rewrite (kcmp_antisym a b). destruct (kcmp a b); simpl; split; congruence.
Qed.

Lemma kcmp_eq_sym {K} `{KeyOrder K} (a b : K) : kcmp a b = Eq -> kcmp b a = Eq.
Proof.
  intros E. rewrite (kcmp_antisym a b), E. reflexivity.
Qed.

Lemma kcmp_eq_compat_r {K} `{KeyOrder K} (a b c : K) :
  kcmp a b = Eq -> kcmp c a = kcmp c b.
Proof.
  intros E. rewrite (kcmp_antisym a c), (kcmp_antisym b c).
  f_equal. now apply kcmp_eq_compat.
Qed.

Section Lex.
Context {A B : Type} `{KeyOrder A} `{KeyOrder B}.

Lemma lex_refl (x : A * B) : lex_cmp x x = Eq.
Proof. unfold lex_cmp. now rewrite !kcmp_refl. Qed.

Lemma lex_antisym (x y : A * B) : lex_cmp y x = CompOpp (lex_cmp x y).
Proof.
  unfold lex_cmp.
  rewrite (kcmp_antisym (fst x) (fst y)), (kcmp_antisym (snd x) (snd y)).
  destruct (kcmp (fst x) (fst y)); reflexivity.
Qed.

Lemma lex_eq_compat (x y z : A * B) :
  lex_cmp x y = Eq -> lex_cmp x z = lex_cmp y z.
Proof.
  unfold lex_cmp.
  destruct (kcmp (fst x) (fst y)) eqn:E1; try discriminate.
  intros E2. rewrite (kcmp_eq_compat _ _ (fst z) E1).
  now rewrite (kcmp_eq_compat _ _ (snd z) E2).
Qed.

Lemma lex_lt_trans (x y z : A * B) :
  lex_cmp x y = Lt -> lex_cmp y z = Lt -> lex_cmp x z = Lt.
Proof.
  unfold lex_cmp.
  destruct (kcmp (fst x) (fst y)) eqn:E1; try discriminate;
    destruct (kcmp (fst y) (fst z)) eqn:E2; try discriminate; intros L1 L2.
  - rewrite (kcmp_eq_compat _ _ (fst z) E1), E2.
    eapply kcmp_lt_trans; eauto.
  - now rewrite (kcmp_eq_compat _ _ (fst z) E1), E2.
  - now rewrite <- (kcmp_eq_compat_r _ _ (fst x) E2), E1.
  - now rewrite (kcmp_lt_trans _ _ _ E1 E2).
Qed.

End Lex.

#[export] Instance pair_order {A B} `{KeyOrder A} `{KeyOrder B} :
  KeyOrder (A * B) :=
  {| kcmp := lex_cmp;
     kcmp_refl := lex_refl;
     kcmp_antisym := lex_antisym;
     kcmp_lt_trans := lex_lt_trans;
     kcmp_eq_compat := lex_eq_compat |}.

#[export] Instance pair_leibniz {A B} `{KeyLeibniz A} `{KeyLeibniz B} :
  KeyLeibniz (A * B).
Proof.
  intros [a1 b1] [a2 b2]; simpl; unfold lex_cmp; simpl.
  destruct (kcmp a1 a2) eqn:E1; try discriminate.
  intros E2. apply kcmp_eq in E1, E2. now subst.
Qed.

(* ================================================================== *)
(** * Sorted distinct keys, [groupby], [sort_values] *)

Section Keys.
Context {K : Type} `{KeyOrder K}.

(** Insertion into a strictly increasing list, keeping one of equals. *)
Fixpoint insert_key (k : K) (ks : list K) : list K :=
  match ks with
  | [] => [k]
  | k' :: ks' =>
      match kcmp k k' with
      | Lt => k :: ks
      | Eq => ks
      | Gt => k' :: insert_key k ks'
      end
  end.

(** [np.unique] / the key index of a [groupby]: sorted, duplicates
    collapsed. *)
Definition unique (l : list K) : list K := fold_right insert_key [] l.

(** Adjacent elements strictly increase. *)
Fixpoint increasing (l : list K) : Prop :=
  match l with
  | [] => True
  | a :: l' =>
      match l' with
      | [] => True
      | b :: _ => kcmp a b = Lt /\ increasing l'
      end
  end.

Definition below (k : K) (l : list K) : Prop :=
  forall x, In x l -> kcmp k x = Lt.

End Keys.

Section GroupBy.
Context {K R : Type} `{KeyOrder K}.
Variable key : R -> K.

(** [df.groupby(key)]: one group per distinct key, keys ascending, each
    group holding its rows in frame order. *)
Definition groupby (df : list R) : list (K * list R) :=
  map (fun k => (k, filter (fun r => keqb (key r) k) df))
      (unique (map key df)).

(** Stable insertion by key, for [sort_values]. *)
Fixpoint insert_row (r : R) (l : list R) : list R :=
  match l with
  | [] => [r]
  | r' :: l' => if kleb (key r) (key r') then r :: l
                else r' :: insert_row r l'
  end.

Definition sort_values (df : list R) : list R := fold_right insert_row [] df.

(** Keys never decrease along the list. *)
Fixpoint ordered (l : list R) : Prop :=
  match l with
  | [] => True
  | a :: l' => (forall b, In b l' -> kcmp (key a) (key b) <> Gt) /\ ordered l'
  end.

End GroupBy.

(* ================================================================== *)
(** * Outcomes of a call *)

(** How a call can fail to deliver a finite value: the exception it
    raises, or the [NaN] it returns. *)
Inductive Fault := KeyError | ValueError | IndexError | NotANumber.

Inductive Res (A : Type) : Type :=
| Ok (a : A)
| Raise (e : Fault).
Arguments Ok {A} a.
Arguments Raise {A} e.

Definition bind {A B} (m : Res A) (f : A -> Res B) : Res B :=
  match m with
  | Ok a => f a
  | Raise e => Raise e
  end.

Notation "x <- m ;; k" := (bind m (fun x => k))
  (at level 61, m at next level, right associativity).

(** A [for] loop that appends to a result list: the body returns the rows
    it appends ([Ok []] for [continue]); the first exception ends the loop. *)
Fixpoint for_each {A B} (body : A -> Res (list B)) (l : list A) : Res (list B) :=
  match l with
  | [] => Ok []
  | a :: l' => rows <- body a ;; rest <- for_each body l' ;; Ok (rows ++ rest)
  end.

(* ================================================================== *)
(** * Numbers *)

Definition countb {A} (f : A -> bool) (l : list A) : nat := length (filter f l).

Definition sum_nat (l : list nat) : nat := fold_right Nat.add 0%nat l.

Definition Qsum (l : list Q) : Q := fold_right Qplus 0 l.

Definition mean (l : list Q) : Q := Qsum l / inject_Z (Z.of_nat (length l)).

Definition pow10 (n : nat) : Z := 10 ^ Z.of_nat n.

(** [np.rint]: nearest integer, halves to the even one. *)
Definition rint (q : Q) : Z :=
  let f := Qfloor q in
  match Qcompare (q - inject_Z f) (1 # 2) with
  | Lt => f
  | Gt => f + 1
  | Eq => if Z.even f then f else f + 1
  end%Z.

(** [round(x, ndigits)] of a numpy float and [Series.round(ndigits)]:
    scale, [rint], unscale.  The result is kept as a reduced fraction. *)
Definition round_nd (q : Q) (ndigits : nat) : Q :=
  Qred (inject_Z (rint (q * inject_Z (pow10 ndigits))) / inject_Z (pow10 ndigits)).

(** ** Binary64

    Where the exact value of a mean sits halfway between two decimals,
    the digit the code returns is decided by the rounding errors of its
    float operations, so these are carried out as the machine does: a
    float is the rational it stands for, and every operation rounds its
    exact result to the nearest float, halves to the even significand
    (53 bits; overflow and subnormal numbers are left out). *)

Definition two_pow (e : Z) : Q :=
  if (0 <=? e)%Z then inject_Z (2 ^ e) else 1 / inject_Z (2 ^ (- e)).

Definition b64 (q : Q) : Q :=
  if (Qnum q =? 0)%Z then 0
  else
    let a := inject_Z (Z.abs (Qnum q)) / inject_Z (Zpos (Qden q)) in
    let e0 := (Z.log2 (Z.abs (Qnum q)) - Z.log2 (Zpos (Qden q)) - 52)%Z in
    let e := if Qle_bool (inject_Z (2 ^ 52)) (a / two_pow e0)
             then e0 else (e0 - 1)%Z in
    Qred (inject_Z (Z.sgn (Qnum q) * rint (a / two_pow e)) * two_pow e).

Definition fadd (x y : Q) : Q := b64 (x + y).
Definition fsub (x y : Q) : Q := b64 (x - y).
Definition fmul (x y : Q) : Q := b64 (x * y).
Definition fdiv (x y : Q) : Q := b64 (x / y).

(** [round(x, ndigits)] of the float [x] that stands for the exact value
    [exact]: the decimal nearest to [exact], and at a tie of [exact] the
    one [rint(x * 10**ndigits)] takes. *)
Definition round_float (exact x : Q) (ndigits : nat) : Q :=
  let s := exact * inject_Z (pow10 ndigits) in
  let f := Qfloor s in
  let r :=
    match Qcompare (s - inject_Z f) (1 # 2) with
    | Lt => f
    | Gt => f + 1
    | Eq =>
        match Qcompare (fmul x (inject_Z (pow10 ndigits)))
                       (inject_Z f + (1 # 2)) with
        | Lt => f
        | Gt => f + 1
        | Eq => if Z.even f then f else f + 1
        end
    end%Z in
  Qred (inject_Z r / inject_Z (pow10 ndigits)).

(** [np.rint] on a real, with the floor [Zfloor] of the library. *)
Definition Rrint (x : R) : Z :=
  let f := Zfloor x in
  if Rlt_dec (x - IZR f) (1 / 2) then f
  else if Rlt_dec (1 / 2) (x - IZR f) then (f + 1)%Z
  else if Z.even f then f else (f + 1)%Z.

Definition Rround (x : R) (ndigits : nat) : R :=
  (IZR (Rrint (x * IZR (pow10 ndigits))) / IZR (pow10 ndigits))%R.

Definition Rsum (l : list R) : R := fold_right Rplus 0%R l.

(** A float that may be infinite: the bin edges of [compute_psi]. *)
Inductive ext := NegInf | Fin (q : Q) | PosInf.

Definition ext_cmp (a b : ext) : comparison :=
  match a, b with
  | NegInf, NegInf => Eq
  | NegInf, _ => Lt
  | _, NegInf => Gt
  | PosInf, PosInf => Eq
  | PosInf, _ => Gt
  | _, PosInf => Lt
  | Fin x, Fin y => Qcompare x y
  end.

Lemma ext_cmp_refl a : ext_cmp a a = Eq.
Proof. destruct a; simpl; auto. exact (@kcmp_refl Q Q_order q). Qed.

Lemma ext_cmp_antisym a b : ext_cmp b a = CompOpp (ext_cmp a b).
Proof. destruct a, b; simpl; auto. exact (@kcmp_antisym Q Q_order q q0). Qed.

Lemma ext_cmp_lt_trans a b c :
  ext_cmp a b = Lt -> ext_cmp b c = Lt -> ext_cmp a c = Lt.
Proof.
  destruct a, b, c; simpl; auto; try discriminate.
  exact (@kcmp_lt_trans Q Q_order q q0 q1).
Qed.

Lemma ext_cmp_eq_compat a b c : ext_cmp a b = Eq -> ext_cmp a c = ext_cmp b c.
Proof.
  destruct a, b, c; simpl; auto; try discriminate.
  exact (@kcmp_eq_compat Q Q_order q q0 q1).
Qed.

#[export] Instance ext_order : KeyOrder ext :=
  {| kcmp := ext_cmp;
     kcmp_refl := ext_cmp_refl;
     kcmp_antisym := ext_cmp_antisym;
     kcmp_lt_trans := ext_cmp_lt_trans;
     kcmp_eq_compat := ext_cmp_eq_compat |}.

(* ================================================================== *)
(** * The loan frame *)

(** A timestamp at month resolution: (year, month). *)
Definition Timestamp := (Z * Z)%type.

Inductive Feature := Dti | IntRate | AnnualInc | LoanAmnt.

(** One row of the cleaned and scored frame: the columns the metric
    functions read.  [year] is a column of the input file of its own. *)
Record Loan := {
  issue_d : Timestamp;
  year : Z;
  grade : string;
  default_flag : bool;
  loan_amnt : option Q;
  int_rate : option Q;
  annual_inc : option Q;
  dti : option Q;
  pred_default_prob : Q
}.

(** [load_and_clean]: [issue_d.dt.to_period("M").dt.to_timestamp()]. *)
Definition cohort (r : Loan) : Timestamp := issue_d r.

(** [load_and_clean]: [issue_d.dt.to_period("Q").dt.to_timestamp()], the
    first month of the quarter. *)
Definition cohort_q (r : Loan) : Timestamp :=
  (fst (issue_d r), 3 * ((snd (issue_d r) - 1) / 3) + 1)%Z.

Definition TRAIN_YEARS : list Z := [2012; 2013; 2014]%Z.
Definition DRIFT_FEATURES : list Feature := [Dti; IntRate; AnnualInc; LoanAmnt].
Definition PSI_N_BINS : nat := 10.

Definition column (f : Feature) (r : Loan) : option Q :=
  match f with
  | Dti => dti r
  | IntRate => int_rate r
  | AnnualInc => annual_inc r
  | LoanAmnt => loan_amnt r
  end.

Definition isin (y : Z) (ys : list Z) : bool := existsb (Z.eqb y) ys.

(** [series.dropna().values] and [x[~np.isnan(x)]]. *)
Fixpoint dropna (col : list (option Q)) : list Q :=
  match col with
  | [] => []
  | Some v :: col' => v :: dropna col'
  | None :: col' => dropna col'
  end.

(** [series.nunique()] of the 0/1 column [default_flag]. *)
Definition nunique (flags : list bool) : nat :=
  length (unique (map Z.b2z flags)).

Definition flag_mean (flags : list bool) : Q :=
  mean (map (fun b => inject_Z (Z.b2z b)) flags).

(* ================================================================== *)
(** * [compute_psi] *)

(** [np.linspace(0, 1, n + 1)]. *)
Definition linspace01 (n : nat) : list Q :=
  map (fun k => inject_Z (Z.of_nat k) / inject_Z (Z.of_nat n)) (seq 0 (S n)).

(** One quantile of a sorted sample by linear interpolation between the
    two order statistics around the virtual index [q * (n - 1)]
    (numpy's default method). *)
Definition quantile_linear (sorted : list Q) (q : Q) : Q :=
  let n := Z.of_nat (length sorted) in
  let h := q * inject_Z (n - 1) in
  let lo := Qfloor h in
  let hi := Z.min (lo + 1) (n - 1) in
  let g := h - inject_Z lo in
  let a := nth (Z.to_nat lo) sorted 0 in
  let b := nth (Z.to_nat hi) sorted 0 in
  a + g * (b - a).

(** [np.quantile(x, qs)]; an empty sample has no order statistic to index. *)
Definition np_quantile (x : list Q) (qs : list Q) : Res (list Q) :=
  match x with
  | [] => Raise IndexError
  | _ => Ok (map (quantile_linear (sort_values (fun v => v) x)) qs)
  end.

(** [a[0] = v] and [a[-1] = v] on an array. *)
Definition set_first {A} (v : A) (l : list A) : list A :=
  match l with
  | [] => []
  | _ :: l' => v :: l'
  end.

Definition set_last {A} (v : A) (l : list A) : list A :=
  match l with
  | [] => []
  | _ => removelast l ++ [v]
  end.

(** The edges of [compute_psi]: lines 93 to 96. *)
Definition psi_edges (expected : list (option Q)) (n_bins : nat) : Res (list ext) :=
  qs <- np_quantile (dropna expected) (linspace01 n_bins) ;;
  Ok (unique (set_last PosInf (set_first NegInf (map Fin qs)))).

(** Membership in the bin from [lo] to [hi] of [np.histogram]: closed on
    the left, open on the right, but for the last bin, closed on both. *)
Definition in_bin (lo hi : ext) (last : bool) (v : Q) : bool :=
  kleb lo (Fin v) && (if last then kleb (Fin v) hi else kltb (Fin v) hi).

(** [np.histogram(vals, bins=edges)[0]]. *)
Fixpoint histogram (edges : list ext) (vals : list Q) : list nat :=
  match edges with
  | lo :: edges' =>
      match edges' with
      | [] => []
      | hi :: rest =>
          countb (in_bin lo hi (match rest with [] => true | _ => false end)) vals
          :: histogram edges' vals
      end
  | [] => []
  end.

Definition eps : R := (1 / 10000)%R.

(** [counts / counts.sum() + eps]. *)
Definition pct (counts : list nat) : list R :=
  map (fun c => (INR c / INR (sum_nat counts) + eps)%R) counts.

Definition psi_term (e a : R) : R := ((a - e) * ln (a / e))%R.

Definition psi_sum (e_pct a_pct : list R) : R :=
  Rsum (map (fun ea => psi_term (fst ea) (snd ea)) (combine e_pct a_pct)).

(** [compute_psi(expected, actual, n_bins)].  A population without a
    value makes [counts.sum()] zero and the result [NaN]. *)
Definition compute_psi (expected actual : list (option Q)) (n_bins : nat) : Res R :=
  edges <- psi_edges expected n_bins ;;
  let e_counts := histogram edges (dropna expected) in
  let a_counts := histogram edges (dropna actual) in
  if (sum_nat e_counts =? 0)%nat || (sum_nat a_counts =? 0)%nat
  then Raise NotANumber
  else Ok (Rround (psi_sum (pct e_counts) (pct a_counts)) 6).

(* ================================================================== *)
(** * [roc_auc_score]

    scikit-learn's binary [roc_auc_score]: the ROC curve has one point per
    distinct score, taken as thresholds in decreasing order, after the
    origin; the point of threshold [t] counts the negatives ([fps]) and the
    positives ([tps]) scored at least [t]; the area is the trapezoidal rule
    over the points, normalised by the two class sizes.  The normalisation
    is factored out of the sum, and the pruning of collinear points
    ([drop_intermediate]), which leaves the area as it is, is not
    modelled. *)

Definition scored := (bool * Q)%type.

Definition count_at_least (lbl : bool) (ys : list scored) (t : Q) : Z :=
  Z.of_nat (countb (fun p => Bool.eqb (fst p) lbl && kleb t (snd p)) ys).

Definition tps := count_at_least true.
Definition fps := count_at_least false.

Definition thresholds (ys : list scored) : list Q := rev (unique (map snd ys)).

Definition roc_points (ys : list scored) : list (Z * Z) :=
  (0, 0)%Z :: map (fun t => (fps ys t, tps ys t)) (thresholds ys).

(** Twice the area under the polyline, by trapezoids. *)
Fixpoint trapz2 (pts : list (Z * Z)) : Z :=
  match pts with
  | p0 :: pts' =>
      match pts' with
      | [] => 0
      | p1 :: _ => (fst p1 - fst p0) * (snd p1 + snd p0) + trapz2 pts'
      end
  | [] => 0
  end%Z.

Definition n_pos (ys : list scored) : Z := Z.of_nat (countb (fun p => fst p) ys).
Definition n_neg (ys : list scored) : Z := Z.of_nat (countb (fun p => negb (fst p)) ys).

Definition auc_of (ys : list scored) : Q :=
  inject_Z (trapz2 (roc_points ys)) / inject_Z (2 * n_pos ys * n_neg ys).

(** [ValueError] when only one class is present. *)
Definition roc_auc_score (y_true : list bool) (y_score : list Q) : Res Q :=
  let ys := combine y_true y_score in
  if (n_pos ys =? 0)%Z || (n_neg ys =? 0)%Z then Raise ValueError
  else Ok (auc_of ys).

(** The rank definition of the AUC, doubled: a positive scored above a
    negative counts 2, a tie 1. *)
Definition pair_score (p n : Q) : Z :=
  match Qcompare p n with
  | Gt => 2
  | Eq => 1
  | Lt => 0
  end%Z.

Definition Zsum (l : list Z) : Z := fold_right Z.add 0%Z l.

Definition positives (ys : list scored) : list Q :=
  map snd (filter (fun p => fst p) ys).
Definition negatives (ys : list scored) : list Q :=
  map snd (filter (fun p => negb (fst p)) ys).

Definition rank_auc2 (ys : list scored) : Z :=
  Zsum (map (fun n => Zsum (map (fun p => pair_score p n) (positives ys)))
            (negatives ys)).

(* ================================================================== *)
(** * [compute_auc_by_cohort] and [compute_auc_by_cohort_grade] *)

Inductive Granularity := Month | Quarter.

Definition gran_eqb (a b : Granularity) : bool :=
  match a, b with
  | Month, Month | Quarter, Quarter => true
  | _, _ => false
  end.

(** A row of [results]. *)
Record AucResult := {
  res_period : Timestamp;
  res_granularity : Granularity;
  res_auc : Q;
  res_n_loans : nat;
  res_default_rate : Q
}.

(** A row of the returned table. *)
Record AucRow := {
  period : Timestamp;
  granularity : Granularity;
  auc : Q;
  n_loans : nat;
  default_rate : Q;
  auc_rolling3 : Q
}.

(** A row of the cohort by grade table. *)
Record GradeRow := {
  g_period : Timestamp;
  g_grade : string;
  g_auc : Q;
  g_n_loans : nat;
  g_default_rate : Q
}.

(** The guard of both loops: [nunique() < 2 or len(group) < floor]. *)
Definition skipped (floor : nat) (group : list Loan) : bool :=
  (nunique (map default_flag group) <? 2)%nat || (length group <? floor)%nat.

(** The body of the loop of lines 113 to 121. *)
Definition auc_body (gran : Granularity) (g : Timestamp * list Loan)
  : Res (list AucResult) :=
  let (name, group) := g in
  if skipped 30 group then Ok []
  else
    a <- roc_auc_score (map default_flag group) (map pred_default_prob group) ;;
    Ok [ {| res_period := name; res_granularity := gran;
            res_auc := round_nd a 4; res_n_loans := length group;
            res_default_rate := round_nd (flag_mean (map default_flag group)) 4 |} ].

(** Lines 111 to 121: [results]. *)
Definition auc_results (df : list Loan) : Res (list AucResult) :=
  m <- for_each (auc_body Month) (groupby cohort df) ;;
  q <- for_each (auc_body Quarter) (groupby cohort_q df) ;;
  Ok (m ++ q).

(** The trailing window of width [w] ending at position [i]. *)
Definition window (w : nat) (l : list Q) (i : nat) : list Q :=
  skipn (S i - w) (firstn (S i) l).

(** [series.rolling(w, min_periods=1).mean()]. *)
Definition rolling_mean (w : nat) (l : list Q) : list Q :=
  map (fun i => mean (window w l i)) (seq 0 (length l)).

(** The state of pandas' [roll_mean]: the running sum with the two
    compensations of its Kahan summation, the number of values in the
    window, how many of them are negative, and the run of equal values
    ending at the last one. *)
Record MeanState := {
  sum_x : Q;
  compensation_add : Q;
  compensation_remove : Q;
  nobs : nat;
  neg_ct : nat;
  num_consecutive_same_value : nat;
  prev_value : option Q
}.

Definition mean_start : MeanState :=
  {| sum_x := 0; compensation_add := 0; compensation_remove := 0;
     nobs := 0; neg_ct := 0; num_consecutive_same_value := 0;
     prev_value := None |}.

Definition is_neg (v : Q) : nat := if kltb v 0 then 1 else 0.

Definition add_mean (st : MeanState) (val : Q) : MeanState :=
  let y := fsub val (compensation_add st) in
  let t := fadd (sum_x st) y in
  {| sum_x := t;
     compensation_add := fsub (fsub t (sum_x st)) y;
     compensation_remove := compensation_remove st;
     nobs := S (nobs st);
     neg_ct := (neg_ct st + is_neg val)%nat;
     num_consecutive_same_value :=
       match prev_value st with
       | Some p => if keqb val p then S (num_consecutive_same_value st)
                   else 1%nat
       | None => 1%nat
       end;
     prev_value := Some val |}.

Definition remove_mean (st : MeanState) (val : Q) : MeanState :=
  let y := fsub (- val) (compensation_remove st) in
  let t := fadd (sum_x st) y in
  {| sum_x := t;
     compensation_add := compensation_add st;
     compensation_remove := fsub (fsub t (sum_x st)) y;
     nobs := pred (nobs st);
     neg_ct := (neg_ct st - is_neg val)%nat;
     num_consecutive_same_value := num_consecutive_same_value st;
     prev_value := prev_value st |}.

Definition calc_mean (st : MeanState) : Q :=
  let result := fdiv (sum_x st) (inject_Z (Z.of_nat (nobs st))) in
  match prev_value st with
  | Some p =>
      if (nobs st <=? num_consecutive_same_value st)%nat then p
      else if (neg_ct st =? 0)%nat && kltb result 0 then 0
      else if (neg_ct st =? nobs st)%nat && kltb 0 result then 0
      else result
  | None => result
  end.

(** The float means of [series.rolling(w, min_periods=1).mean()] over
    a series of floats without a missing value: at each position the
    value that left the window is removed, the new one added. *)
Fixpoint roll_mean_from (w : nat) (st : MeanState) (seen todo : list Q)
  : list Q :=
  match todo with
  | [] => []
  | x :: todo' =>
      let st1 :=
        if (w <=? length seen)%nat
        then remove_mean st (nth (length seen - w) seen 0)
        else st in
      let st2 := add_mean st1 x in
      calc_mean st2 :: roll_mean_from w st2 (seen ++ [x]) todo'
  end.

Definition roll_mean (w : nat) (xs : list Q) : list Q :=
  roll_mean_from w mean_start [] xs.

(** Line 126: [.rolling(3, min_periods=1).mean().round(4)].  Each value
    is the decimal nearest to the mean of its window; where that mean is
    halfway between two decimals the float mean decides.  The series of
    line 126 holds values of 4 digits (line 119): a mean of one, two or
    three of them that is not halfway is at least a sixth of a unit of
    the fourth digit away from halfway, far more than the error of the
    float mean, so that the nearest decimal is the one the code
    returns. *)
Definition rolling3 (l : list Q) : list Q :=
  map (fun i => round_float (nth i (rolling_mean 3 l) 0)
                            (nth i (roll_mean 3 (map b64 l)) 0) 4)
      (seq 0 (length l)).

(** Line 125 and 126: the monthly rows by period, with their smoothed
    value. *)
Definition monthly_rolling (results : list AucResult) : list (Timestamp * Q) :=
  let monthly :=
    sort_values res_period
      (filter (fun r => gran_eqb (res_granularity r) Month) results) in
  combine (map res_period monthly) (rolling3 (map res_auc monthly)).

(** [left.merge(right, on="period", how="left")]: every left row, once
    per right row of its period, or once with [NaN] when there is none. *)
Definition merge_left (left : list AucResult) (right : list (Timestamp * Q))
  : list (AucResult * option Q) :=
  flat_map
    (fun l =>
       match filter (fun r => keqb (fst r) (res_period l)) right with
       | [] => [(l, None)]
       | ms => map (fun r => (l, Some (snd r))) ms
       end)
    left.

(** Line 128: [auc_rolling3.fillna(auc)]. *)
Definition fillna_auc (row : AucResult * option Q) : AucRow :=
  {| period := res_period (fst row);
     granularity := res_granularity (fst row);
     auc := res_auc (fst row);
     n_loans := res_n_loans (fst row);
     default_rate := res_default_rate (fst row);
     auc_rolling3 := match snd row with
                     | Some v => v
                     | None => res_auc (fst row)
                     end |}.

(** [compute_auc_by_cohort(df)].  A frame built from an empty [results]
    has no column, and line 125 reads the column [granularity]. *)
Definition compute_auc_by_cohort (df : list Loan) : Res (list AucRow) :=
  results <- auc_results df ;;
  match results with
  | [] => Raise KeyError
  | _ => Ok (map fillna_auc (merge_left results (monthly_rolling results)))
  end.

Definition grade_body (g : (Timestamp * string) * list Loan) : Res (list GradeRow) :=
  let (k, group) := g in
  if skipped 20 group then Ok []
  else
    a <- roc_auc_score (map default_flag group) (map pred_default_prob group) ;;
    Ok [ {| g_period := fst k; g_grade := snd k;
            g_auc := round_nd a 4; g_n_loans := length group;
            g_default_rate := round_nd (flag_mean (map default_flag group)) 4 |} ].

(** [compute_auc_by_cohort_grade(df)]. *)
Definition compute_auc_by_cohort_grade (df : list Loan) : Res (list GradeRow) :=
  for_each grade_body (groupby (fun r => (cohort r, grade r)) df).

(* ================================================================== *)
(** * [compute_psi_by_cohort] *)

Record PsiRow := {
  psi_period : Timestamp;
  psi_feature : Feature;
  psi : R;
  n_obs : nat
}.

Definition train (df : list Loan) : list Loan :=
  filter (fun r => isin (year r) TRAIN_YEARS) df.

Definition baseline (f : Feature) (df : list Loan) : list Q :=
  dropna (map (column f) (train df)).

Definition psi_body (f : Feature) (base : list Q) (g : Timestamp * list Loan)
  : Res (list PsiRow) :=
  let (name, group) := g in
  let actual := dropna (map (column f) group) in
  if (length actual <? 10)%nat then Ok []
  else
    psi_val <- compute_psi (map Some base) (map Some actual) PSI_N_BINS ;;
    Ok [ {| psi_period := name; psi_feature := f;
            psi := psi_val; n_obs := length actual |} ].

Definition compute_psi_by_cohort (df : list Loan) : Res (list PsiRow) :=
  for_each (fun f => for_each (psi_body f (baseline f df)) (groupby cohort df))
           DRIFT_FEATURES.

(* ================================================================== *)
(** * [compute_feature_distributions] *)

(** A row of [df_out]. *)
Record DistRow := {
  d_dti : option Q;
  d_int_rate : option Q;
  d_annual_inc : option Q;
  d_loan_amnt : option Q;
  d_year : Z;
  period_label : string
}.

Definition TRAINING : string := "training (2012-14)".
Definition MONITORING : string := "monitoring (2015-18)".

(** Lines 200 to 204. *)
Definition dist_row (r : Loan) : DistRow :=
  {| d_dti := dti r; d_int_rate := int_rate r;
     d_annual_inc := annual_inc r; d_loan_amnt := loan_amnt r;
     d_year := year r;
     period_label := if isin (year r) TRAIN_YEARS then TRAINING else MONITORING |}.

(** The rows at the given positions, in that order. *)
Definition take_rows {A} (idxs : list nat) (rows : list A) : list A :=
  flat_map (fun i => match nth_error rows i with
                     | Some r => [r]
                     | None => []
                     end) idxs.

Section Sampler.

(** [np.random.RandomState(seed).permutation(n)]: the generator is not
    modelled, only that it is a function of the seed and of [n]. *)
Variable permutation : Z -> nat -> list nat.

(** [group.sample(n=n, random_state=seed)], without replacement: the
    first [n] positions of the seeded permutation. *)
Definition sample {A} (n : nat) (random_state : Z) (group : list A) : Res (list A) :=
  if (length group <? n)%nat then Raise ValueError
  else Ok (take_rows (firstn n (permutation random_state (length group))) group).

Definition sample_body (g : string * list DistRow) : Res (list DistRow) :=
  sample (Nat.min (length (snd g)) 5000) 42 (snd g).

(** The rows [sample] draws of a group, for the cap and the seed of the
    pipeline. *)
Definition drawn {A} (group : list A) : list A :=
  take_rows (firstn (Nat.min (length group) 5000)
                    (permutation 42 (length group))) group.

(** [compute_feature_distributions(df)]; [pd.concat] of no frame raises. *)
Definition compute_feature_distributions (df : list Loan) : Res (list DistRow) :=
  let groups := groupby period_label (map dist_row df) in
  rows <- for_each sample_body groups ;;
  match groups with
  | [] => Raise ValueError
  | _ => Ok rows
  end.

End Sampler.

(* ================================================================== *)
(** * The other tables of the pipeline *)

(** Line 46 of [load_and_clean]: [df.loc[df["dti"] > 100, "dti"] = np.nan].
    A missing value compares false and stays missing. *)
Definition cap_dti (v : option Q) : option Q :=
  match v with
  | Some x => if kltb 100 x then None else Some x
  | None => None
  end.

Definition clean_dti (r : Loan) : Loan :=
  {| issue_d := issue_d r; year := year r; grade := grade r;
     default_flag := default_flag r;
     loan_amnt := loan_amnt r; int_rate := int_rate r;
     annual_inc := annual_inc r; dti := cap_dti (dti r);
     pred_default_prob := pred_default_prob r |}.

(** A value that is missing after line 46: it was missing, or above
    100. *)
Definition dti_unusable (r : Loan) : bool :=
  match dti r with
  | None => true
  | Some x => kltb 100 x
  end.

(** [ts.to_period("Q").to_timestamp()] of a month start. *)
Definition quarter_start (t : Timestamp) : Timestamp :=
  (fst t, 3 * ((snd t - 1) / 3) + 1)%Z.

Definition DQ_FEATURES : list Feature := [Dti; AnnualInc; IntRate; LoanAmnt].

Definition isna (v : option Q) : bool :=
  match v with
  | None => true
  | Some _ => false
  end.

Record MissingRow := {
  m_period : Timestamp;
  m_feature : Feature;
  missing_rate : Q;
  n_records : nat
}.

Definition missing_row (g : Timestamp * list Loan) (col : Feature) : MissingRow :=
  {| m_period := fst g; m_feature := col;
     missing_rate := round_nd (flag_mean (map isna (map (column col) (snd g)))) 6;
     n_records := length (snd g) |}.

(** [compute_missing_rates(df)]: no guard, a row for every cohort and
    every feature of [DQ_FEATURES]. *)
Definition compute_missing_rates (df : list Loan) : list MissingRow :=
  flat_map (fun g => map (missing_row g) DQ_FEATURES) (groupby cohort df).

(** [series.mean()] of a float column: missing values are left out, and
    the mean of no value is [NaN]. *)
Definition nan_mean (col : list (option Q)) : option Q :=
  match dropna col with
  | [] => None
  | vs => Some (mean vs)
  end.

(** The columns the two summary tables read.  In the file the issue
    date and the grade of a row may be blank: the key is then missing,
    and [groupby], with its default [dropna=True], leaves the row out of
    every group. *)
Class Columns (R : Type) := {
  col_cohort : R -> option Timestamp;
  col_grade : R -> option string;
  col_default_flag : R -> bool;
  col_loan_amnt : R -> option Q
}.

(** The frame of the other tables, where every row has its keys. *)
#[export] Instance Loan_columns : Columns Loan :=
  {| col_cohort := fun r => Some (cohort r);
     col_grade := fun r => Some (grade r);
     col_default_flag := default_flag;
     col_loan_amnt := loan_amnt |}.

(** A row of which either key may be blank. *)
Record RawLoan := {
  raw_cohort : option Timestamp;
  raw_grade : option string;
  raw_default_flag : bool;
  raw_loan_amnt : option Q
}.

#[export] Instance RawLoan_columns : Columns RawLoan :=
  {| col_cohort := raw_cohort;
     col_grade := raw_grade;
     col_default_flag := raw_default_flag;
     col_loan_amnt := raw_loan_amnt |}.

Definition has_key {K} (k : option K) : bool :=
  match k with
  | Some _ => true
  | None => false
  end.

(** The rows that have a key, each with its key. *)
Definition keyed {K R} (key : R -> option K) (df : list R) : list (K * R) :=
  flat_map (fun r => match key r with
                     | Some k => [(k, r)]
                     | None => []
                     end) df.

(** [df.groupby(key)] on a column with missing values: the groups of the
    rows that have a key. *)
Definition groupby_dropna {K R} `{KeyOrder K} (key : R -> option K) (df : list R)
  : list (K * list R) :=
  map (fun g => (fst g, map snd (snd g))) (groupby fst (keyed key df)).

Record VolumeRow := {
  v_period : Timestamp;
  v_n_loans : nat;
  v_default_rate : Q;
  v_avg_loan_amnt : option Q
}.

Definition volume_row {R} `{Columns R} (g : Timestamp * list R) : VolumeRow :=
  {| v_period := fst g;
     v_n_loans := length (snd g);
     v_default_rate := flag_mean (map col_default_flag (snd g));
     v_avg_loan_amnt := nan_mean (map col_loan_amnt (snd g)) |}.

(** [compute_volume_by_cohort(df)]: [size] counts every row of the
    group, [mean] is not rounded. *)
Definition compute_volume_by_cohort {R} `{Columns R} (df : list R)
  : list VolumeRow :=
  map volume_row (groupby_dropna col_cohort df).

Record GradeRateRow := {
  gr_grade : string;
  gr_n_loans : nat;
  gr_default_rate : Q
}.

Definition grade_rate_row {R} `{Columns R} (g : string * list R) : GradeRateRow :=
  {| gr_grade := fst g;
     gr_n_loans := length (snd g);
     gr_default_rate := flag_mean (map col_default_flag (snd g)) |}.

(** [compute_default_rate_by_grade(df)]. *)
Definition compute_default_rate_by_grade {R} `{Columns R} (df : list R)
  : list GradeRateRow :=
  sort_values gr_grade (map grade_rate_row (groupby_dropna col_grade df)).

Definition feature_eqb (a b : Feature) : bool :=
  match a, b with
  | Dti, Dti | IntRate, IntRate | AnnualInc, AnnualInc | LoanAmnt, LoanAmnt => true
  | _, _ => false
  end.

(** The frame with every score replaced by a function of it. *)
Definition rescore (f : Q -> Q) (r : Loan) : Loan :=
  {| issue_d := issue_d r; year := year r; grade := grade r;
     default_flag := default_flag r;
     loan_amnt := loan_amnt r; int_rate := int_rate r;
     annual_inc := annual_inc r; dti := dti r;
     pred_default_prob := f (pred_default_prob r) |}.

(* ================================================================== *)
(** * Rows and values named by the statements *)

Definition scored_of (group : list Loan) : list scored :=
  map (fun r => (default_flag r, pred_default_prob r)) group.

(** The row a group that passes the guard appends to [results]. *)
Definition auc_row (gran : Granularity) (name : Timestamp) (group : list Loan)
  : AucResult :=
  {| res_period := name; res_granularity := gran;
     res_auc := round_nd (auc_of (scored_of group)) 4;
     res_n_loans := length group;
     res_default_rate := round_nd (flag_mean (map default_flag group)) 4 |}.

Definition grade_row (k : Timestamp * string) (group : list Loan) : GradeRow :=
  {| g_period := fst k; g_grade := snd k;
     g_auc := round_nd (auc_of (scored_of group)) 4;
     g_n_loans := length group;
     g_default_rate := round_nd (flag_mean (map default_flag group)) 4 |}.

Definition auc_rows (gran : Granularity) (g : Timestamp * list Loan)
  : list AucResult :=
  if skipped 30 (snd g) then [] else [auc_row gran (fst g) (snd g)].

Definition grade_rows (g : (Timestamp * string) * list Loan) : list GradeRow :=
  if skipped 20 (snd g) then [] else [grade_row (fst g) (snd g)].

(** The smoothed value the merge finds for a period, if any. *)
Definition smoothed_at (right : list (Timestamp * Q)) (p : Timestamp) : option Q :=
  option_map snd (find (fun r => keqb (fst r) p) right).

(** The [k]-th of the quantiles line 93 takes of a baseline. *)
Definition cut_point (base : list Q) (k : nat) : Q :=
  quantile_linear (sort_values (fun v => v) base)
                  (nth k (linspace01 PSI_N_BINS) 0).

(** The bins of a list of edges, with the mark of the last one. *)
Fixpoint bins (edges : list ext) : list (ext * ext * bool) :=
  match edges with
  | lo :: edges' =>
      match edges' with
      | [] => []
      | hi :: rest =>
          (lo, hi, match rest with [] => true | _ => false end) :: bins edges'
      end
  | [] => []
  end.

Definition in_bin_of (v : Q) (b : ext * ext * bool) : bool :=
  in_bin (fst (fst b)) (snd (fst b)) (snd b) v.

(** Edges as [compute_psi] builds them: increasing, from [-inf] to [+inf]. *)
Definition full_range (edges : list ext) : Prop :=
  increasing edges /\ (exists mid, edges = NegInf :: mid) /\
  last edges NegInf = PosInf /\ (2 <= length edges)%nat.

(** [compute_psi] with its edges made explicit: once the edges exist, the
    result is a function of the two histograms over them. *)
Definition psi_over (edges : list ext) (expected actual : list Q) : R :=
  Rround (psi_sum (pct (histogram edges expected))
                  (pct (histogram edges actual))) 6.

(** Equal proportions bin by bin, stated on the counts: each count times
    the other population's total. *)
Definition same_proportions (e_counts a_counts : list nat) : Prop :=
  map (fun c => (c * sum_nat e_counts)%nat) a_counts =
  map (fun c => (c * sum_nat a_counts)%nat) e_counts.

(** The PSI of a cohort against a baseline, when both have a value. *)
Definition psi_value (base actual : list Q) : R :=
  match psi_edges (map Some base) PSI_N_BINS with
  | Ok edges => psi_over edges base actual
  | Raise _ => 0%R
  end.

Definition psi_rows (f : Feature) (base : list Q) (g : Timestamp * list Loan)
  : list PsiRow :=
  let actual := dropna (map (column f) (snd g)) in
  if (length actual <? 10)%nat then []
  else [ {| psi_period := fst g; psi_feature := f;
            psi := psi_value base actual; n_obs := length actual |} ].

(* ================================================================== *)
(** * Sums and counts of the ROC argument *)

Definition ind (b : bool) : Z := if b then 1%Z else 0%Z.

(** Sums over a list, by a summand. *)
Definition ZS {A} (F : A -> Z) (l : list A) : Z := Zsum (map F l).

(** The rank score of one negative against all the positives. *)
Definition against_positives (ys : list scored) (n : Q) : Z :=
  Zsum (map (fun p => pair_score p n) (positives ys)).

Definition count_from (lbl : bool) (ys : list scored) (b : ext) : Z :=
  Z.of_nat (countb (fun p => Bool.eqb (fst p) lbl && kleb b (Fin (snd p))) ys).

Fixpoint descending (l : list Q) : Prop :=
  match l with
  | [] => True
  | a :: l' => (forall x, In x l' -> kcmp x a = Lt) /\ descending l'
  end.

(* ================================================================== *)
(** * Strata and samples *)

(** What [sample] returns of a group: as many rows as asked, taken at
    distinct positions of the group, and the whole group, reordered, when
    the group is no larger than the cap. *)
Definition sampled_from {A} (cap : nat) (s group : list A) : Prop :=
  length s = Nat.min (length group) cap /\
  (exists idxs, NoDup idxs /\ (forall i, In i idxs -> (i < length group)%nat) /\
                s = take_rows idxs group) /\
  ((length group <= cap)%nat -> Permutation s group).

Definition stratum (label : string) (df : list Loan) : list DistRow :=
  filter (fun r => keqb (period_label r) label) (map dist_row df).

(* ================================================================== *)
(** * Small frames *)

Definition mk_loan (d : Timestamp) (g : string) (flag : bool) (p : Q) : Loan :=
  {| issue_d := d; year := fst d; grade := g; default_flag := flag;
     loan_amnt := None; int_rate := None; annual_inc := None; dti := None;
     pred_default_prob := p |}.

(** One cohort of 25 loans of grade A issued in January 2012: 5 defaults
    scored 0.9 and 20 good loans scored 0.1. *)
Definition cohort_of_25 : list Loan :=
  repeat (mk_loan (2012, 1)%Z "A" true 0.9) 5
  ++ repeat (mk_loan (2012, 1)%Z "A" false 0.1) 20.

(** A first quarter of 2015: 30 loans in January, perfectly ranked, and
    two loans in February ranked the wrong way round. *)
Definition first_quarter : list Loan :=
  repeat (mk_loan (2015, 1)%Z "A" true 0.9) 15
  ++ repeat (mk_loan (2015, 1)%Z "A" false 0.1) 15
  ++ [mk_loan (2015, 2)%Z "A" true 0.05; mk_loan (2015, 2)%Z "A" false 0.95].

Definition january_2015 : list Loan :=
  repeat (mk_loan (2015, 1)%Z "A" true 0.9) 15
  ++ repeat (mk_loan (2015, 1)%Z "A" false 0.1) 15.

Definition mk_feat (d : Timestamp) (v : Z) : Loan :=
  {| issue_d := d; year := fst d; grade := "B"; default_flag := false;
     loan_amnt := Some (inject_Z (1000 * v)); int_rate := Some (inject_Z v);
     annual_inc := Some (inject_Z (5000 * v)); dti := Some (inject_Z v);
     pred_default_prob := 1 # 2 |}.

(** Twelve loans of January 2013, ten of March 2016 with shifted values
    and three of April 2016. *)
Definition psi_frame : list Loan :=
  map (mk_feat (2013, 1)%Z) [1; 2; 3; 4; 5; 6; 7; 8; 9; 10; 11; 12]%Z
  ++ map (mk_feat (2016, 3)%Z) [5; 6; 7; 8; 9; 10; 11; 12; 13; 14]%Z
  ++ map (mk_feat (2016, 4)%Z) [1; 2; 3]%Z.

Definition march_2016 : list Loan :=
  filter (fun r => keqb (cohort r) (2016, 3)%Z) psi_frame.

Definition january_2013 : list Loan :=
  filter (fun r => keqb (cohort r) (2013, 1)%Z) psi_frame.

(** Two loans of March 2016, one with every feature present and one with
    none. *)
Definition half_missing : list Loan :=
  [mk_feat (2016, 3)%Z 5; mk_loan (2016, 3)%Z "A" false (1 # 2)].

(** Three loans of March 2016: a default and a good loan of grade A, and
    a default whose grade is blank. *)
Definition blank_grade : list RawLoan :=
  [ {| raw_cohort := Some (2016, 3)%Z; raw_grade := Some "A"%string;
       raw_default_flag := true; raw_loan_amnt := Some 1000 |};
    {| raw_cohort := Some (2016, 3)%Z; raw_grade := Some "A"%string;
       raw_default_flag := false; raw_loan_amnt := Some 2000 |};
    {| raw_cohort := Some (2016, 3)%Z; raw_grade := None;
       raw_default_flag := true; raw_loan_amnt := Some 3000 |} ].

(** The same loans, the issue date of the third blank instead. *)
Definition blank_issue_date : list RawLoan :=
  [ {| raw_cohort := Some (2016, 3)%Z; raw_grade := Some "A"%string;
       raw_default_flag := true; raw_loan_amnt := Some 1000 |};
    {| raw_cohort := Some (2016, 3)%Z; raw_grade := Some "A"%string;
       raw_default_flag := false; raw_loan_amnt := Some 2000 |};
    {| raw_cohort := None; raw_grade := Some "B"%string;
       raw_default_flag := true; raw_loan_amnt := Some 3000 |} ].

(* ================================================================== *)
(** * The status cards of the dashboard ([app.py], [update_kpis]) *)

Record Thresholds := {
  auc_warning : Q;
  auc_alert : Q;
  psi_warning : Q;
  psi_alert : Q
}.

(** The two presets of [THRESHOLDS]. *)
Definition standard : Thresholds :=
  {| auc_warning := 0.65; auc_alert := 0.60;
     psi_warning := 0.1; psi_alert := 0.25 |}.

Definition conservative : Thresholds :=
  {| auc_warning := 0.68; auc_alert := 0.65;
     psi_warning := 0.08; psi_alert := 0.2 |}.

Inductive Color := success | warning | danger.

Definition color_eqb (a b : Color) : bool :=
  match a, b with
  | success, success | warning, warning | danger, danger => true
  | _, _ => false
  end.

(** [v >= w] is [kleb w v] and [v < w] is [kltb v w]. *)
Definition auc_status (t : Thresholds) (v : Q) : string * Color :=
  if kleb (auc_warning t) v then ("Healthy"%string, success)
  else if kleb (auc_alert t) v then ("Warning"%string, warning)
  else ("Alert"%string, danger).

Definition psi_status (t : Thresholds) (v : Q) : string * Color :=
  if kltb v (psi_warning t) then ("Stable"%string, success)
  else if kltb v (psi_alert t) then ("Warning"%string, warning)
  else ("Alert"%string, danger).

Definition dq_status (v : Q) : string * Color :=
  if kleb 0.95 v then ("Healthy"%string, success)
  else if kleb 0.90 v then ("Warning"%string, warning)
  else ("Alert"%string, danger).

(** Lines 327 to 334: the overall card. *)
Definition health (colors : list Color) : string * Color :=
  if existsb (color_eqb danger) colors then ("ALERT"%string, danger)
  else if existsb (color_eqb warning) colors then ("Review"%string, warning)
  else ("Healthy"%string, success).

(** The colours of the four cards for the three figures of the range. *)
Definition kpi_colors (t : Thresholds) (latest_auc max_psi dq_score : Q)
  : Color * Color * Color * Color :=
  let auc_c := snd (auc_status t latest_auc) in
  let psi_c := snd (psi_status t max_psi) in
  let dq_c := snd (dq_status dq_score) in
  (auc_c, psi_c, dq_c, snd (health [auc_c; psi_c; dq_c])).

Definition severity (c : Color) : nat :=
  match c with
  | success => 0
  | warning => 1
  | danger => 2
  end.

(* ================================================================== *)
(** * Properties of the frame operations *)

Lemma bind_ok {A B} (m : Res A) (f : A -> Res B) (b : B) :
  bind m f = Ok b <-> exists a, m = Ok a /\ f a = Ok b.
Proof.
  destruct m as [a|e]; simpl; split.
  - intros E. now exists a.
  - now intros (a' & [= ->] & E).
  - discriminate.
  - now intros (a' & ? & _).
Qed.

(** A loop whose body never raises returns the rows of all iterations. *)
Lemma for_each_total {A B} (body : A -> Res (list B)) (f : A -> list B) l :
  (forall a, In a l -> body a = Ok (f a)) ->
  for_each body l = Ok (flat_map f l).
Proof.
  induction l as [|a l IH]; simpl; intros Hb; auto.
  rewrite (Hb a) by auto. simpl.
  rewrite IH by auto. reflexivity.
Qed.

Lemma for_each_ext {A B} (f g : A -> Res (list B)) l :
  (forall a, In a l -> f a = g a) -> for_each f l = for_each g l.
Proof.
  induction l as [|a l IH]; simpl; intros Hfg; auto.
  rewrite (Hfg a) by auto. rewrite IH by auto. reflexivity.
Qed.

Section KeyFacts.
Context {K : Type} `{KeyOrder K}.

Lemma increasing_cons a b (l : list K) :
  increasing (a :: b :: l) <-> kcmp a b = Lt /\ increasing (b :: l).
Proof. reflexivity. Qed.

Lemma increasing_tail a (l : list K) : increasing (a :: l) -> increasing l.
Proof. destruct l; simpl; tauto. Qed.

Lemma increasing_below a (l : list K) : increasing (a :: l) -> below a l.
Proof.
  revert a. induction l as [|b l IH]; intros a Hi x Hx.
  - destruct Hx.
  - destruct Hi as [Hab Hi]. destruct Hx as [<-|Hx]; auto.
    eapply kcmp_lt_trans; eauto. now apply IH.
Qed.

Lemma insert_key_bound a k (l : list K) :
  kcmp a k = Lt -> increasing (a :: l) -> increasing (a :: insert_key k l).
Proof.
  revert a. induction l as [|b l IH]; intros a Hak Hi.
  - simpl. auto.
  - destruct Hi as [Hab Hi]. simpl insert_key.
    destruct (kcmp k b) eqn:E.
    + now split.
    + split; auto. now split.
    + split; auto. apply IH; auto. now apply kcmp_gt_lt.
Qed.

Lemma insert_key_increasing k (l : list K) :
  increasing l -> increasing (insert_key k l).
Proof.
  destruct l as [|b l]; intros Hi.
  - exact I.
  - simpl insert_key. destruct (kcmp k b) eqn:E; auto.
    + now split.
    + apply insert_key_bound; auto. now apply kcmp_gt_lt.
Qed.

Lemma unique_increasing (l : list K) : increasing (unique l).
Proof.
  induction l; simpl.
  - exact I.
  - now apply insert_key_increasing.
Qed.

Lemma insert_key_in k x (l : list K) :
  In x (insert_key k l) -> x = k \/ In x l.
Proof.
  induction l as [|b l IH]; simpl.
  - intros [<-|[]]; auto.
  - destruct (kcmp k b); simpl; intros Hx; intuition.
Qed.

Lemma insert_key_keeps k x (l : list K) : In x l -> In x (insert_key k l).
Proof.
  induction l as [|b l IH]; simpl.
  - tauto.
  - destruct (kcmp k b); simpl; intuition.
Qed.

Lemma insert_key_has k (l : list K) :
  exists y, In y (insert_key k l) /\ kcmp k y = Eq.
Proof.
  induction l as [|b l IH]; simpl.
  - exists k. split; auto. apply kcmp_refl.
  - destruct (kcmp k b) eqn:E.
    + exists b. simpl; auto.
    + exists k. split; simpl; auto. apply kcmp_refl.
    + destruct IH as (y & Hy & Ey). exists y. simpl; auto.
Qed.

(** Every element of [unique l] comes from [l]. *)
Lemma unique_in x (l : list K) : In x (unique l) -> In x l.
Proof.
  induction l as [|a l IH]; simpl; auto.
  intros Hx. apply insert_key_in in Hx. intuition.
Qed.

(** Every element of [l] has its equal in [unique l]. *)
Lemma unique_cover x (l : list K) :
  In x l -> exists y, In y (unique l) /\ kcmp x y = Eq.
Proof.
  induction l as [|a l IH]; simpl.
  - tauto.
  - intros [->|Hx].
    + apply insert_key_has.
    + destruct (IH Hx) as (y & Hy & Ey).
      exists y. split; auto. now apply insert_key_keeps.
Qed.

Lemma increasing_NoDup (l : list K) : increasing l -> NoDup l.
Proof.
  induction l as [|a l IH]; intros Hi; constructor.
  - intros Ha. apply (increasing_below _ _ Hi) in Ha.
    rewrite kcmp_refl in Ha. discriminate.
  - apply IH. eapply increasing_tail; eauto.
Qed.

Lemma unique_NoDup (l : list K) : NoDup (unique l).
Proof. apply increasing_NoDup, unique_increasing. Qed.

Context `{!KeyLeibniz K}.

Lemma keqb_eq (a b : K) : keqb a b = true <-> a = b.
Proof.
  unfold keqb. split.
  - destruct (kcmp a b) eqn:E; try discriminate. intros _. now apply kcmp_eq.
  - intros ->. now rewrite kcmp_refl.
Qed.

Lemma unique_iff x (l : list K) : In x (unique l) <-> In x l.
Proof.
  split.
  - apply unique_in.
  - intros Hx. destruct (unique_cover _ _ Hx) as (y & Hy & Ey).
    apply kcmp_eq in Ey. now subst.
Qed.

End KeyFacts.

Section GroupFacts.
Context {K R : Type} `{KeyLeibniz K}.
Variable key : R -> K.

(** The groups of a [groupby]: one for each key that occurs, holding
    the rows of that key. *)
Lemma groupby_spec (df : list R) k g :
  In (k, g) (groupby key df) <->
  In k (map key df) /\ g = filter (fun r => keqb (key r) k) df.
Proof.
  unfold groupby. rewrite in_map_iff. split.
  - intros (k' & [= -> <-] & Hk). split; auto. now apply unique_iff.
  - intros (Hk & ->). exists k. split; auto. now apply unique_iff.
Qed.

Lemma groupby_keys (df : list R) :
  map fst (groupby key df) = unique (map key df).
Proof.
  unfold groupby. rewrite map_map. simpl. apply map_id.
Qed.

Lemma groupby_nonempty (df : list R) k g :
  In (k, g) (groupby key df) -> g <> [].
Proof.
  rewrite groupby_spec. intros (Hk & ->).
  apply in_map_iff in Hk. destruct Hk as (r & <- & Hr).
  intros E.
  assert (Hin : In r (filter (fun r0 => keqb (key r0) (key r)) df)).
  { apply filter_In. split; auto. now apply keqb_eq. }
  rewrite E in Hin. destruct Hin.
Qed.

Lemma groupby_member (df : list R) r :
  In r df -> exists g, In (key r, g) (groupby key df) /\ In r g.
Proof.
  intros Hr. exists (filter (fun r0 => keqb (key r0) (key r)) df). split.
  - apply groupby_spec. split; auto. now apply in_map.
  - apply filter_In. split; auto. now apply keqb_eq.
Qed.

End GroupFacts.

(* ================================================================== *)
(** * Rounding *)

Lemma pow10_pos n : (0 < pow10 n)%Z.
Proof. unfold pow10. apply Z.pow_pos_nonneg; lia. Qed.

#[export] Instance rint_proper : Proper (Qeq ==> eq) rint.
Proof.
  intros x y E. unfold rint.
  rewrite (Qfloor_comp _ _ E).
  assert (E' : x - inject_Z (Qfloor y) == y - inject_Z (Qfloor y))
    by now rewrite E.
  now rewrite (Qcompare_comp _ _ E' (1 # 2) (1 # 2) (Qeq_refl _)).
Qed.

#[export] Instance round_nd_proper : Proper (Qeq ==> eq ==> eq) round_nd.
Proof.
  intros x y E n ? <-. unfold round_nd.
  assert (E' : x * inject_Z (pow10 n) == y * inject_Z (pow10 n))
    by now rewrite E.
  now rewrite (rint_proper _ _ E').
Qed.

Lemma rint_Z z : rint (inject_Z z) = z.
Proof.
  unfold rint. rewrite Qfloor_Z.
  assert (E : inject_Z z - inject_Z z == 0) by ring.
  now rewrite (Qcompare_comp _ _ E (1 # 2) (1 # 2) (Qeq_refl _)).
Qed.

Lemma round_nd_eq q n :
  round_nd q n == inject_Z (rint (q * inject_Z (pow10 n))) / inject_Z (pow10 n).
Proof. unfold round_nd. apply Qred_correct. Qed.

(** A value that is already rounded is left as it is. *)
Lemma round_nd_idem q n : round_nd (round_nd q n) n = round_nd q n.
Proof.
  assert (Hp : ~ inject_Z (pow10 n) == 0).
  { pose proof (pow10_pos n) as Hp. unfold Qeq; simpl. lia. }
  assert (E : round_nd q n * inject_Z (pow10 n)
              == inject_Z (rint (q * inject_Z (pow10 n)))).
  { rewrite round_nd_eq. field. exact Hp. }
  unfold round_nd at 1. rewrite (rint_proper _ _ E), rint_Z.
  reflexivity.
Qed.

(** Rounding is monotone at integers: a value between two integers is
    rounded between them. *)
Lemma rint_between q (a b : Z) :
  inject_Z a <= q <= inject_Z b -> (a <= rint q <= b)%Z.
Proof.
  intros [Ha Hb]. unfold rint.
  pose proof (Qfloor_le q) as Hlo. pose proof (Qlt_floor q) as Hhi.
  assert (Hfa : (a <= Qfloor q)%Z).
  { rewrite <- (Qfloor_Z a). now apply Qfloor_resp_le. }
  assert (Hfb : (Qfloor q <= b)%Z).
  { rewrite <- (Qfloor_Z b). now apply Qfloor_resp_le. }
  assert (Hstep : inject_Z (Qfloor q) < q -> (Qfloor q + 1 <= b)%Z).
  { intros Hlt. destruct (Z.eq_dec (Qfloor q) b) as [Eb|Nb]; [|lia].
    rewrite Eb in Hlt. exfalso. lra. }
  destruct (Qcompare_spec (q - inject_Z (Qfloor q)) (1 # 2)) as [E|E|E].
  - destruct (Z.even (Qfloor q)); [lia|].
    split; [lia|]. apply Hstep. lra.
  - lia.
  - split; [lia|]. apply Hstep. lra.
Qed.

Lemma round_nd_between q n (a b : Z) :
  inject_Z a <= q <= inject_Z b ->
  inject_Z a <= round_nd q n <= inject_Z b.
Proof.
  intros [Ha Hb]. rewrite round_nd_eq.
  pose proof (pow10_pos n) as Hp.
  assert (HP : 0 < inject_Z (pow10 n)).
  { unfold Qlt; simpl. lia. }
  assert (Hr : (a * pow10 n <= rint (q * inject_Z (pow10 n)) <= b * pow10 n)%Z).
  { apply rint_between. rewrite !inject_Z_mult. split.
    - apply Qmult_le_compat_r; lra.
    - apply Qmult_le_compat_r; lra. }
  destruct Hr as [Hr1 Hr2].
  rewrite Zle_Qle, inject_Z_mult in Hr1, Hr2.
  split.
  - apply Qle_shift_div_l; auto.
  - apply Qle_shift_div_r; auto.
Qed.

(** Away from a tie the float plays no part: the rounding is that of
    the exact value. *)
Lemma round_float_exact exact x n :
  ~ exact * inject_Z (pow10 n)
    - inject_Z (Qfloor (exact * inject_Z (pow10 n))) == 1 # 2 ->
  round_float exact x n = round_nd exact n.
Proof.
  intros Hne. unfold round_float, round_nd, rint.
  destruct (Qcompare_spec
              (exact * inject_Z (pow10 n)
               - inject_Z (Qfloor (exact * inject_Z (pow10 n)))) (1 # 2))
    as [E|E|E]; auto.
  now destruct Hne.
Qed.

(** The integer [round_float] scales back: the floor of the scaled value
    or the next integer, whichever is nearer. *)
Lemma round_float_nearest exact x n :
  exists z : Z,
    round_float exact x n == inject_Z z / inject_Z (pow10 n) /\
    - (1 # 2) <= inject_Z z - exact * inject_Z (pow10 n) <= 1 # 2 /\
    (Qfloor (exact * inject_Z (pow10 n)) <= z
     <= Qfloor (exact * inject_Z (pow10 n)) + 1)%Z /\
    ((z = Qfloor (exact * inject_Z (pow10 n)) + 1)%Z ->
     1 # 2 <= exact * inject_Z (pow10 n)
              - inject_Z (Qfloor (exact * inject_Z (pow10 n)))).
Proof.
  unfold round_float.
  set (s := exact * inject_Z (pow10 n)).
  pose proof (Qfloor_le s) as Hlo. pose proof (Qlt_floor s) as Hhi.
  rewrite inject_Z_plus in Hhi. change (inject_Z 1) with 1 in Hhi.
  eexists. split; [apply Qred_correct|].
  destruct (Qcompare_spec (s - inject_Z (Qfloor s)) (1 # 2)) as [E|E|E].
  - destruct (Qcompare (fmul x (inject_Z (pow10 n))) (inject_Z (Qfloor s) + (1 # 2)));
      [destruct (Z.even (Qfloor s))| |];
      rewrite ?inject_Z_plus; change (inject_Z 1) with 1;
      (split; [lra|split; [lia|intros; lra]]).
  - split; [lra|split; [lia|intros; exfalso; lia]].
  - rewrite inject_Z_plus. change (inject_Z 1) with 1.
    split; [lra|split; [lia|intros; lra]].
Qed.

Lemma round_float_between exact x n (a b : Z) :
  inject_Z a <= exact <= inject_Z b ->
  inject_Z a <= round_float exact x n <= inject_Z b.
Proof.
  intros [Ha Hb].
  destruct (round_float_nearest exact x n) as (z & Ez & _ & [Hz1 Hz2] & Hup).
  rewrite Ez. pose proof (pow10_pos n) as Hp.
  assert (HP : 0 < inject_Z (pow10 n)) by (unfold Qlt; simpl; lia).
  set (s := exact * inject_Z (pow10 n)) in *.
  assert (Hsa : inject_Z (a * pow10 n) <= s).
  { rewrite inject_Z_mult. apply Qmult_le_compat_r; lra. }
  assert (Hsb : s <= inject_Z (b * pow10 n)).
  { rewrite inject_Z_mult. apply Qmult_le_compat_r; lra. }
  assert (Hfa : (a * pow10 n <= Qfloor s)%Z).
  { rewrite <- (Qfloor_Z (a * pow10 n)). now apply Qfloor_resp_le. }
  assert (Hfb : (Qfloor s <= b * pow10 n)%Z).
  { rewrite <- (Qfloor_Z (b * pow10 n)). now apply Qfloor_resp_le. }
  assert (Hzb : (z <= b * pow10 n)%Z).
  { destruct (Z.eq_dec z (Qfloor s + 1)) as [E|N]; [|lia].
    specialize (Hup E).
    destruct (Z.eq_dec (Qfloor s) (b * pow10 n)) as [Eb|Nb]; [|lia].
    rewrite Eb in Hup. exfalso. lra. }
  assert (Hza : (a * pow10 n <= z)%Z) by lia.
  rewrite Zle_Qle, inject_Z_mult in Hza, Hzb.
  split.
  - apply Qle_shift_div_l; auto.
  - apply Qle_shift_div_r; auto.
Qed.

Lemma round_float_proper exact exact' x n :
  exact == exact' -> round_float exact x n = round_float exact' x n.
Proof.
  intros E. unfold round_float.
  assert (Es : exact * inject_Z (pow10 n) == exact' * inject_Z (pow10 n))
    by now rewrite E.
  rewrite (Qfloor_comp _ _ Es).
  assert (E' : exact * inject_Z (pow10 n)
               - inject_Z (Qfloor (exact' * inject_Z (pow10 n)))
               == exact' * inject_Z (pow10 n)
                  - inject_Z (Qfloor (exact' * inject_Z (pow10 n))))
    by now rewrite Es.
  now rewrite (Qcompare_comp _ _ E' (1 # 2) (1 # 2) (Qeq_refl _)).
Qed.

(** A whole number of units is no tie, and neither is a whole number of
    thirds. *)
Lemma no_tie_at_integer s (z : Z) :
  s == inject_Z z -> ~ s - inject_Z (Qfloor s) == 1 # 2.
Proof.
  intros E. rewrite (Qfloor_comp _ _ E), Qfloor_Z, E. intros H.
  assert (H0 : inject_Z z - inject_Z z == 0) by ring.
  rewrite H0 in H. discriminate H.
Qed.

Lemma no_tie_at_third s (z : Z) :
  s == inject_Z z / 3 -> ~ s - inject_Z (Qfloor s) == 1 # 2.
Proof.
  intros E H. set (f := Qfloor s) in *.
  assert (E2 : inject_Z (2 * z) == inject_Z (6 * f + 3)).
  { rewrite inject_Z_plus, !inject_Z_mult.
    change (inject_Z 2) with 2. change (inject_Z 6) with 6.
    change (inject_Z 3) with 3.
    assert (Ez : inject_Z z == 3 * s) by (rewrite E; field).
    rewrite Ez. lra. }
  apply (proj1 (inject_Z_injective _ _)) in E2. lia.
Qed.

(* ================================================================== *)
(** * The rolling smoother *)

Lemma map_snd_combine {A B} (l : list A) (l' : list B) :
  length l = length l' -> map snd (combine l l') = l'.
Proof.
  revert l'. induction l as [|a l IH]; intros [|b l']; simpl; try discriminate; auto.
  intros [= E]. now rewrite IH.
Qed.

Lemma map_fst_combine {A B} (l : list A) (l' : list B) :
  length l = length l' -> map fst (combine l l') = l.
Proof.
  revert l'. induction l as [|a l IH]; intros [|b l']; simpl; try discriminate; auto.
  intros [= E]. now rewrite IH.
Qed.

Lemma rolling3_length (l : list Q) : length (rolling3 l) = length l.
Proof.
  unfold rolling3. now rewrite length_map, length_seq.
Qed.

Lemma rolling_mean_nth w (l : list Q) i :
  (i < length l)%nat -> nth i (rolling_mean w l) 0 = mean (window w l i).
Proof.
  intros Hi. unfold rolling_mean.
  rewrite (nth_indep _ 0 (mean (window w l 0)))
    by now rewrite length_map, length_seq.
  rewrite (map_nth (fun i => mean (window w l i)) (seq 0 (length l)) 0%nat i).
  now rewrite seq_nth.
Qed.

Lemma rolling3_nth (l : list Q) i :
  (i < length l)%nat ->
  nth i (rolling3 l) 0
  = round_float (mean (window 3 l i)) (nth i (roll_mean 3 (map b64 l)) 0) 4.
Proof.
  intros Hi. unfold rolling3.
  set (F := fun i => round_float (nth i (rolling_mean 3 l) 0)
                                 (nth i (roll_mean 3 (map b64 l)) 0) 4).
  rewrite (nth_indep _ 0 (F 0%nat)) by now rewrite length_map, length_seq.
  rewrite (map_nth F (seq 0 (length l)) 0%nat i), seq_nth by exact Hi.
  unfold F. cbn [Nat.add]. now rewrite rolling_mean_nth.
Qed.

(** From the third position on, the window holds three values. *)
Lemma window_three (l : list Q) j :
  (j + 3 <= length l)%nat ->
  skipn j (firstn (j + 3) l) = [nth j l 0; nth (j + 1) l 0; nth (j + 2) l 0].
Proof.
  revert l. induction j as [|j IH]; intros l Hl.
  - destruct l as [|a [|b [|c l]]]; simpl in Hl; try lia. reflexivity.
  - destruct l as [|a l]; simpl in Hl; try lia.
    simpl. apply IH. lia.
Qed.

Lemma mean_one a : mean [a] == a.
Proof. unfold mean; simpl. field. Qed.

Lemma mean_two a b : mean [a; b] == (a + b) / 2.
Proof. unfold mean; simpl. field. Qed.

Lemma mean_three a b c : mean [a; b; c] == (a + b + c) / 3.
Proof. unfold mean; simpl. field. Qed.

Section SortFacts.
Context {K R : Type} `{KeyOrder K}.
Variable key : R -> K.

Lemma kcmp_le_trans (a b c : K) :
  kcmp a b <> Gt -> kcmp b c <> Gt -> kcmp a c <> Gt.
Proof.
  intros Hab Hbc Hac.
  destruct (kcmp a b) eqn:E1; [| |congruence].
  - rewrite (kcmp_eq_compat _ _ c E1) in Hac. congruence.
  - destruct (kcmp b c) eqn:E2; [| |congruence].
    + rewrite <- (kcmp_eq_compat_r _ _ a E2) in Hac. congruence.
    + rewrite (kcmp_lt_trans _ _ _ E1 E2) in Hac. discriminate.
Qed.

Lemma insert_row_in r x (l : list R) :
  In x (insert_row key r l) <-> x = r \/ In x l.
Proof.
  induction l as [|a l IH]; simpl.
  - intuition.
  - destruct (kleb (key r) (key a)); simpl; intuition.
Qed.

Lemma insert_row_ordered r (l : list R) :
  ordered key l -> ordered key (insert_row key r l).
Proof.
  induction l as [|a l IH]; simpl.
  - intros _. split; [intros b []|exact I].
  - intros [Ha Hl]. unfold kleb.
    destruct (kcmp (key r) (key a)) eqn:E.
    + split; [|now split].
      intros b [<-|Hb]; [congruence|].
      apply kcmp_le_trans with (key a); auto. congruence.
    + split; [|now split].
      intros b [<-|Hb]; [congruence|].
      apply kcmp_le_trans with (key a); auto. congruence.
    + split; auto.
      intros b Hb. apply insert_row_in in Hb. destruct Hb as [->|Hb]; auto.
      apply kcmp_gt_lt in E. congruence.
Qed.

Lemma sort_values_ordered (df : list R) : ordered key (sort_values key df).
Proof.
  induction df; simpl.
  - exact I.
  - now apply insert_row_ordered.
Qed.

Lemma sort_values_in x (df : list R) : In x (sort_values key df) <-> In x df.
Proof.
  induction df as [|a df IH]; simpl.
  - tauto.
  - rewrite insert_row_in, IH. intuition.
Qed.

Lemma insert_row_length r (l : list R) :
  length (insert_row key r l) = S (length l).
Proof.
  induction l as [|a l IH]; simpl; auto.
  destruct (kleb (key r) (key a)); simpl; auto.
Qed.

Lemma sort_values_length (df : list R) : length (sort_values key df) = length df.
Proof.
  induction df as [|a df IH]; simpl; auto.
  now rewrite insert_row_length, IH.
Qed.

End SortFacts.

Lemma firstn_In {A} n (l : list A) x : In x (firstn n l) -> In x l.
Proof.
  intros Hx. rewrite <- (firstn_skipn n l). apply in_or_app. now left.
Qed.

Lemma Qsum_cons a l : Qsum (a :: l) = a + Qsum l.
Proof. reflexivity. Qed.


Lemma Qsum_bounds (l : list Q) lo hi :
  (forall x, In x l -> lo <= x <= hi) ->
  inject_Z (Z.of_nat (length l)) * lo <= Qsum l
  /\ Qsum l <= inject_Z (Z.of_nat (length l)) * hi.
Proof.
  induction l as [|a l IH]; intros Hb.
  - simpl. split; rewrite Qmult_0_l; apply Qle_refl.
  - rewrite Qsum_cons. cbn [length]. rewrite Nat2Z.inj_succ.
    unfold Z.succ. rewrite inject_Z_plus.
    destruct (Hb a (or_introl eq_refl)) as [Ha1 Ha2].
    destruct IH as [I1 I2]; [intros; apply Hb; now right|].
    change (inject_Z 1) with 1. split; nra.
Qed.

(** The mean of a non-empty list lies between any two bounds of its
    elements. *)
Lemma mean_bounds (l : list Q) lo hi :
  l <> [] -> (forall x, In x l -> lo <= x <= hi) -> lo <= mean l <= hi.
Proof.
  intros Hne Hb. destruct (Qsum_bounds l lo hi Hb) as [H1 H2].
  assert (HD : 0 < inject_Z (Z.of_nat (length l))).
  { change 0 with (inject_Z 0). rewrite <- Zlt_Qlt.
    destruct l; [congruence|simpl; lia]. }
  unfold mean. split.
  - apply Qle_shift_div_l; auto. now rewrite Qmult_comm.
  - apply Qle_shift_div_r; auto. now rewrite Qmult_comm.
Qed.

Lemma window_incl w l i x : In x (window w l i) -> In x l.
Proof.
  unfold window. intros Hx.
  eapply firstn_In. rewrite <- (firstn_skipn (S i - w) (firstn (S i) l)).
  apply in_or_app. right. exact Hx.
Qed.

Lemma mean_unit (l : list Q) :
  (forall x, In x l -> 0 <= x <= 1) -> 0 <= mean l <= 1.
Proof.
  intros Hb. destruct l as [|a l].
  - split; vm_compute; discriminate.
  - apply mean_bounds; [discriminate|exact Hb].
Qed.

(** C4, as the code has it: the smoothed series has one value per raw
    value and is paired with the monthly rows in increasing period order;
    each smoothed value belongs to the mean of the raw values of the
    trailing window (the first value alone, then the first two, then
    exactly the three last ones, with equal weights and no later value).
    For a series of 4-digit values of [0, 1], as the rounded AUC values
    are, it is a decimal of 4 digits at most half a unit of the fourth
    digit from that mean, the rounding of the mean whenever the mean is
    not halfway between two such decimals; the first smoothed value is the
    first raw value and no mean of three is halfway, so only the second
    value can be a tie, and there the float mean decides: [0.5, 0.5333]
    gives 0.5167 where halves to even would give 0.5166.
    [0.70, 0.68, 0.66, 0.64] gives [0.70, 0.69, 0.68, 0.66]. *)
Theorem rolling3_is_rounded_trailing_mean :
  (forall results,
      ordered res_period
        (sort_values res_period
           (filter (fun r => gran_eqb (res_granularity r) Month) results)) /\
      map snd (monthly_rolling results) =
        rolling3 (map res_auc
          (sort_values res_period
             (filter (fun r => gran_eqb (res_granularity r) Month) results)))) /\
  (forall l : list Q,
      length (rolling3 l) = length l /\
      (forall x0 rest, l = x0 :: rest -> mean (window 3 l 0) == x0) /\
      (forall x0 x1 rest, l = x0 :: x1 :: rest ->
         mean (window 3 l 1) == (x0 + x1) / 2) /\
      (forall i, (2 <= i < length l)%nat ->
         mean (window 3 l i)
         == (nth (i - 2) l 0 + nth (i - 1) l 0 + nth i l 0) / 3) /\
      (forall x0 rest y, l = x0 :: rest -> x0 = round_nd y 4 ->
         nth 0 (rolling3 l) 0 = x0) /\
      ((forall x, In x l ->
          exists z : Z, (0 <= z <= 10000)%Z /\ x == inject_Z z / 10000) ->
       (forall i, (i < length l)%nat ->
          (exists z : Z,
              (0 <= z <= 10000)%Z /\
              nth i (rolling3 l) 0 == inject_Z z / 10000 /\
              - (1 # 2) <= inject_Z z - mean (window 3 l i) * 10000 <= 1 # 2) /\
          (~ mean (window 3 l i) * 10000
             - inject_Z (Qfloor (mean (window 3 l i) * 10000)) == 1 # 2 ->
           nth i (rolling3 l) 0 = round_nd (mean (window 3 l i)) 4)) /\
       (forall x0 rest, l = x0 :: rest -> nth 0 (rolling3 l) 0 == x0) /\
       (forall i, (2 <= i < length l)%nat ->
          nth i (rolling3 l) 0 =
          round_nd ((nth (i - 2) l 0 + nth (i - 1) l 0 + nth i l 0) / 3) 4))) /\
  rolling3 [0.70; 0.68; 0.66; 0.64] = map Qred [0.70; 0.69; 0.68; 0.66] /\
  rolling3 [0.5; 0.5333] = map Qred [0.5; 0.5167] /\
  round_nd ((0.5 + 0.5333) / 2) 4 = Qred 0.5166.
Proof.
  split; [|split; [|split; [|split]]].
  - intros results. split.
    + apply sort_values_ordered.
    + unfold monthly_rolling.
      set (m := sort_values _ _).
      rewrite map_snd_combine; auto.
      now rewrite rolling3_length, !length_map.
  - intros l. split; [apply rolling3_length|].
    assert (H0 : forall x0 rest, l = x0 :: rest -> mean (window 3 l 0) == x0).
    { intros x0 rest ->. change (window 3 (x0 :: rest) 0) with [x0].
      apply mean_one. }
    assert (H3 : forall i, (2 <= i < length l)%nat ->
                 mean (window 3 l i)
                 == (nth (i - 2) l 0 + nth (i - 1) l 0 + nth i l 0) / 3).
    { intros i [Hi Hl]. unfold window.
      replace (S i - 3)%nat with (i - 2)%nat by lia.
      replace (S i) with (i - 2 + 3)%nat by lia.
      rewrite window_three by lia.
      rewrite mean_three.
      replace (i - 2 + 1)%nat with (i - 1)%nat by lia.
      replace (i - 2 + 2)%nat with i by lia.
      reflexivity. }
    split; [exact H0|]. split; [|split; [exact H3|split]].
    + intros x0 x1 rest ->.
      change (window 3 (x0 :: x1 :: rest) 1) with [x0; x1].
      apply mean_two.
    + intros x0 rest y E ->. rewrite rolling3_nth by (rewrite E; simpl; lia).
      rewrite (round_float_proper _ _ _ _ (H0 _ _ E)).
      rewrite round_float_exact.
      * apply round_nd_idem.
      * apply (no_tie_at_integer _ (rint (y * inject_Z (pow10 4)))).
        rewrite round_nd_eq. field. discriminate.
    + intros Hdec.
      assert (Hunit : forall i, 0 <= mean (window 3 l i) <= 1).
      { intros i. apply mean_unit. intros x Hx.
        destruct (Hdec x (window_incl _ _ _ _ Hx)) as (z & [Hz0 Hz1] & ->).
        rewrite Zle_Qle in Hz0, Hz1.
        change (inject_Z 0) with 0 in Hz0.
        change (inject_Z 10000) with 10000 in Hz1.
        split.
        - apply Qle_shift_div_l; [reflexivity|]. now rewrite Qmult_0_l.
        - apply Qle_shift_div_r; [reflexivity|]. now rewrite Qmult_1_l. }
      split; [|split].
      * intros i Hi. rewrite rolling3_nth by exact Hi. split.
        -- destruct (round_float_nearest (mean (window 3 l i))
                       (nth i (roll_mean 3 (map b64 l)) 0) 4)
             as (z & Ez & Hz & _).
           exists z. split; [|split; [exact Ez|exact Hz]].
           pose proof (round_float_between (mean (window 3 l i))
                         (nth i (roll_mean 3 (map b64 l)) 0) 4 0 1 (Hunit i))
             as [Hr0 Hr1].
           rewrite Ez in Hr0, Hr1.
           change (inject_Z (pow10 4)) with 10000 in Hr0, Hr1.
           change (inject_Z 0) with 0 in Hr0. change (inject_Z 1) with 1 in Hr1.
           assert (HP : 0 < 10000) by reflexivity.
           assert (Hq0 : 0 <= inject_Z z).
           { apply (Qmult_le_r _ _ (/ 10000)); [reflexivity|].
             rewrite Qmult_0_l. exact Hr0. }
           assert (Hq1 : inject_Z z <= 10000).
           { apply (Qmult_le_r _ _ (/ 10000)); [reflexivity|].
             setoid_replace (10000 * / 10000) with 1 by reflexivity.
             exact Hr1. }
           change 0 with (inject_Z 0) in Hq0.
           change 10000 with (inject_Z 10000) in Hq1.
           rewrite <- Zle_Qle in Hq0, Hq1. lia.
        -- intros Hne. now apply round_float_exact.
      * intros x0 rest E. rewrite rolling3_nth by (rewrite E; simpl; lia).
        rewrite (round_float_proper _ _ _ _ (H0 _ _ E)).
        destruct (Hdec x0) as (z & _ & Ez); [rewrite E; now left|].
        rewrite round_float_exact.
        -- rewrite round_nd_eq.
           assert (Es : x0 * inject_Z (pow10 4) == inject_Z z).
           { rewrite Ez. change (inject_Z (pow10 4)) with 10000. field. }
           rewrite (rint_proper _ _ Es), rint_Z, Ez. reflexivity.
        -- apply (no_tie_at_integer _ z). rewrite Ez.
           change (inject_Z (pow10 4)) with 10000. field.
      * intros i Hi. rewrite rolling3_nth by lia.
        rewrite (round_float_proper _ _ _ _ (H3 i Hi)).
        apply round_float_exact.
        assert (Hn : forall j, (j < length l)%nat ->
                     exists z : Z, nth j l 0 == inject_Z z / 10000).
        { intros j Hj. destruct (Hdec (nth j l 0)) as (z & _ & Ez);
            [apply nth_In, Hj|]. now exists z. }
        destruct (Hn (i - 2)%nat) as (a & Ea); [lia|].
        destruct (Hn (i - 1)%nat) as (b & Eb); [lia|].
        destruct (Hn i) as (c & Ec); [lia|].
        apply (no_tie_at_third _ (a + b + c)).
        rewrite Ea, Eb, Ec, !inject_Z_plus.
        change (inject_Z (pow10 4)) with 10000. field.
  - vm_compute. reflexivity.
  - vm_compute. reflexivity.
  - vm_compute. reflexivity.
Qed.

(* ================================================================== *)
(** * The guard of the AUC loops *)

Lemma combine_map {A B C} (f : A -> B) (g : A -> C) (l : list A) :
  combine (map f l) (map g l) = map (fun x => (f x, g x)) l.
Proof. induction l; simpl; congruence. Qed.

Lemma countb_pos {A} (f : A -> bool) (l : list A) :
  (0 < countb f l)%nat <-> exists x, In x l /\ f x = true.
Proof.
  unfold countb. split.
  - destruct (filter f l) as [|x t] eqn:E; simpl; [lia|].
    intros _. exists x. apply filter_In. rewrite E. now left.
  - intros (x & Hx & Hf).
    assert (Hin : In x (filter f l)) by (apply filter_In; auto).
    destruct (filter f l); [destruct Hin | simpl; lia].
Qed.

(** Two distinct values in the flag column: both classes occur. *)
Lemma nunique_two (flags : list bool) :
  (2 <= nunique flags)%nat <-> In true flags /\ In false flags.
Proof.
  unfold nunique.
  assert (Hb : forall z, In z (unique (map Z.b2z flags)) <->
                         exists b, In b flags /\ z = Z.b2z b).
  { intros z. rewrite unique_iff, in_map_iff. firstorder. }
  split.
  - pose proof (unique_NoDup (map Z.b2z flags)) as Hnd.
    destruct (unique (map Z.b2z flags)) as [|a [|b u]] eqn:E; simpl; try lia.
    intros _.
    destruct (proj1 (Hb a)) as (x & Hx & ->); [now left|].
    destruct (proj1 (Hb b)) as (y & Hy & ->); [right; now left|].
    inversion Hnd as [|? ? Hna _]; subst.
    assert (x <> y) by (intros ->; apply Hna; now left).
    destruct x, y; try congruence; auto.
  - intros [Ht Hf].
    apply (NoDup_incl_length (l := [0; 1]%Z)).
    + repeat constructor; simpl; intuition lia.
    + intros z [<-|[<-|[]]]; apply Hb; [exists false | exists true]; auto.
Qed.

Lemma skipped_false floor group :
  skipped floor group = false <->
  (2 <= nunique (map default_flag group))%nat /\ (floor <= length group)%nat.
Proof.
  unfold skipped. rewrite orb_false_iff, !Nat.ltb_ge. tauto.
Qed.

Lemma n_pos_scored group :
  (0 < n_pos (scored_of group))%Z <-> In true (map default_flag group).
Proof.
  unfold n_pos, scored_of.
  rewrite <- Nat2Z.inj_0, <- Nat2Z.inj_lt, countb_pos, in_map_iff. split.
  - intros (x & Hx & Hf). apply in_map_iff in Hx.
    destruct Hx as (r & <- & Hr). exists r. auto.
  - intros (r & Hf & Hr). exists (default_flag r, pred_default_prob r).
    split; auto. apply in_map_iff. now exists r.
Qed.

Lemma n_neg_scored group :
  (0 < n_neg (scored_of group))%Z <-> In false (map default_flag group).
Proof.
  unfold n_neg, scored_of.
  rewrite <- Nat2Z.inj_0, <- Nat2Z.inj_lt, countb_pos, in_map_iff. split.
  - intros (x & Hx & Hf). apply in_map_iff in Hx.
    destruct Hx as (r & <- & Hr). exists r. simpl in Hf.
    split; auto. now destruct (default_flag r).
  - intros (r & Hf & Hr). exists (default_flag r, pred_default_prob r).
    split; [|simpl; now rewrite Hf]. apply in_map_iff. now exists r.
Qed.

(** A group that passes the guard has both classes, so the AUC call
    does not raise. *)
Lemma roc_auc_score_guarded floor group :
  skipped floor group = false ->
  roc_auc_score (map default_flag group) (map pred_default_prob group)
  = Ok (auc_of (scored_of group)).
Proof.
  intros Hs. apply skipped_false in Hs. destruct Hs as [Hn _].
  apply nunique_two in Hn. destruct Hn as [Ht Hf].
  apply n_pos_scored in Ht. apply n_neg_scored in Hf.
  unfold roc_auc_score. rewrite combine_map. fold (scored_of group).
  destruct (Z.eqb_spec (n_pos (scored_of group)) 0); [lia|].
  destruct (Z.eqb_spec (n_neg (scored_of group)) 0); [lia|].
  reflexivity.
Qed.

Lemma auc_body_eq gran g : auc_body gran g = Ok (auc_rows gran g).
Proof.
  destruct g as [name group]. unfold auc_body, auc_rows. simpl.
  destruct (skipped 30 group) eqn:Hs; auto.
  now rewrite (roc_auc_score_guarded _ _ Hs).
Qed.

Lemma grade_body_eq g : grade_body g = Ok (grade_rows g).
Proof.
  destruct g as [k group]. unfold grade_body, grade_rows. simpl.
  destruct (skipped 20 group) eqn:Hs; auto.
  now rewrite (roc_auc_score_guarded _ _ Hs).
Qed.

(** The two loops never raise: [results] is the rows of the monthly
    groups that pass the guard, then those of the quarterly groups. *)
Lemma auc_results_eq df :
  auc_results df =
  Ok (flat_map (auc_rows Month) (groupby cohort df)
      ++ flat_map (auc_rows Quarter) (groupby cohort_q df)).
Proof.
  unfold auc_results.
  rewrite (for_each_total _ (auc_rows Month)) by (intros; apply auc_body_eq).
  simpl.
  rewrite (for_each_total _ (auc_rows Quarter)) by (intros; apply auc_body_eq).
  reflexivity.
Qed.

Lemma compute_auc_by_cohort_grade_eq df :
  compute_auc_by_cohort_grade df =
  Ok (flat_map grade_rows (groupby (fun r => (cohort r, grade r)) df)).
Proof.
  unfold compute_auc_by_cohort_grade.
  apply for_each_total. intros; apply grade_body_eq.
Qed.

Lemma groupby_functional {K R} `{KeyLeibniz K} (key : R -> K) df k g g' :
  In (k, g) (groupby key df) -> In (k, g') (groupby key df) -> g = g'.
Proof.
  rewrite !groupby_spec. intros [_ ->] [_ ->]. reflexivity.
Qed.

(** A group of the monthly or quarterly index has a row in [results]
    exactly when it holds both classes and at least 30 loans; a group of
    the cohort by grade index has a row exactly when it holds both classes
    and at least 20 loans.  Neither loop raises. *)
Lemma auc_guard_iff df :
  exists results grade_table,
    auc_results df = Ok results /\
    compute_auc_by_cohort_grade df = Ok grade_table /\
    (forall k g, In (k, g) (groupby cohort df) ->
       ((exists row, In row results /\ res_period row = k /\
                     res_granularity row = Month) <->
        (2 <= nunique (map default_flag g))%nat /\ (30 <= length g)%nat)) /\
    (forall k g, In (k, g) (groupby cohort_q df) ->
       ((exists row, In row results /\ res_period row = k /\
                     res_granularity row = Quarter) <->
        (2 <= nunique (map default_flag g))%nat /\ (30 <= length g)%nat)) /\
    (forall k g, In (k, g) (groupby (fun r => (cohort r, grade r)) df) ->
       ((exists row, In row grade_table /\ (g_period row, g_grade row) = k) <->
        (2 <= nunique (map default_flag g))%nat /\ (20 <= length g)%nat)).
Proof.
  eexists. eexists.
  split; [apply auc_results_eq|]. split; [apply compute_auc_by_cohort_grade_eq|].
  split; [|split].
  - intros k g Hg. rewrite <- skipped_false. split.
    + intros (row & Hrow & Hp & Hgr).
      apply in_app_iff in Hrow. destruct Hrow as [Hrow|Hrow];
        apply in_flat_map in Hrow; destruct Hrow as ([k' g'] & Hg' & Hrow);
        unfold auc_rows in Hrow; simpl in Hrow;
        destruct (skipped 30 g') eqn:Hs; try (now destruct Hrow);
        destruct Hrow as [<-|[]]; simpl in *; try discriminate.
      subst k'. now rewrite (groupby_functional _ _ _ _ _ Hg Hg').
    + intros Hs. exists (auc_row Month k g). split; auto.
      apply in_app_iff. left. apply in_flat_map. exists (k, g). split; auto.
      unfold auc_rows; simpl. rewrite Hs. now left.
  - intros k g Hg. rewrite <- skipped_false. split.
    + intros (row & Hrow & Hp & Hgr).
      apply in_app_iff in Hrow. destruct Hrow as [Hrow|Hrow];
        apply in_flat_map in Hrow; destruct Hrow as ([k' g'] & Hg' & Hrow);
        unfold auc_rows in Hrow; simpl in Hrow;
        destruct (skipped 30 g') eqn:Hs; try (now destruct Hrow);
        destruct Hrow as [<-|[]]; simpl in *; try discriminate.
      subst k'. now rewrite (groupby_functional _ _ _ _ _ Hg Hg').
    + intros Hs. exists (auc_row Quarter k g). split; auto.
      apply in_app_iff. right. apply in_flat_map. exists (k, g). split; auto.
      unfold auc_rows; simpl. rewrite Hs. now left.
  - intros k g Hg. rewrite <- skipped_false. split.
    + intros (row & Hrow & Hp).
      apply in_flat_map in Hrow. destruct Hrow as ([k' g'] & Hg' & Hrow).
      unfold grade_rows in Hrow; simpl in Hrow.
      destruct (skipped 20 g') eqn:Hs; try (now destruct Hrow).
      destruct Hrow as [<-|[]]. simpl in Hp.
      rewrite <- surjective_pairing in Hp. subst k'.
      now rewrite (groupby_functional _ _ _ _ _ Hg Hg').
    + intros Hs. exists (grade_row k g). split.
      * apply in_flat_map. exists (k, g). split; auto.
        unfold grade_rows; simpl. rewrite Hs. now left.
      * simpl. now destruct k.
Qed.

(* ------------------------------------------------------------------ *)
(** ** The merge of the smoothed values *)

Lemma insert_row_perm {K R} `{KeyOrder K} (key : R -> K) r l :
  Permutation (insert_row key r l) (r :: l).
Proof.
  induction l as [|a l IH]; simpl; auto.
  destruct (kleb (key r) (key a)); auto.
  rewrite IH. apply perm_swap.
Qed.

Lemma sort_values_perm {K R} `{KeyOrder K} (key : R -> K) df :
  Permutation (sort_values key df) df.
Proof.
  induction df as [|a df IH]; simpl; auto.
  rewrite insert_row_perm. now constructor.
Qed.

(** With one right row per period at most, the merge keeps the left rows
    as they are and looks the value up. *)
Lemma merge_left_lookup left right :
  NoDup (map fst right) ->
  merge_left left right = map (fun l => (l, smoothed_at right (res_period l))) left.
Proof.
  intros Hnd. unfold merge_left.
  assert (Hone : forall p,
             filter (fun r => keqb (fst r) p) right =
             match find (fun r => keqb (fst r) p) right with
             | Some r => [r]
             | None => []
             end).
  { intros p. induction right as [|r right IH]; auto.
    inversion Hnd as [|? ? Hr Hnd']; subst. simpl.
    destruct (keqb (fst r) p) eqn:E.
    - f_equal. apply keqb_eq in E.
      destruct (filter (fun r0 => keqb (fst r0) p) right) as [|r' t] eqn:Ef; auto.
      exfalso. apply Hr.
      assert (Hin : In r' (filter (fun r0 => keqb (fst r0) p) right))
        by (rewrite Ef; now left).
      apply filter_In in Hin. destruct Hin as [Hin Hk].
      apply keqb_eq in Hk. rewrite E, <- Hk. now apply in_map.
    - now apply IH. }
  induction left as [|l left IH]; auto.
  cbn [flat_map]. rewrite map_cons, IH, Hone. unfold smoothed_at.
  destruct (find _ right); reflexivity.
Qed.

Lemma auc_rows_periods gran (G : list (Timestamp * list Loan)) :
  NoDup (map fst G) -> NoDup (map res_period (flat_map (auc_rows gran) G)).
Proof.
  induction G as [|g G IH]; intros Hnd; [constructor|].
  inversion Hnd as [|? ? Hg Hnd']; subst. simpl.
  unfold auc_rows at 1. destruct (skipped 30 (snd g)); simpl; auto.
  constructor; auto.
  intros Hin. apply Hg.
  apply in_map_iff in Hin. destruct Hin as (row & Hp & Hrow).
  apply in_flat_map in Hrow. destruct Hrow as (g' & Hg' & Hrow).
  unfold auc_rows in Hrow. destruct (skipped 30 (snd g')); [destruct Hrow|].
  destruct Hrow as [<-|[]]. simpl in Hp. rewrite <- Hp. now apply in_map.
Qed.

Lemma auc_rows_granularity gran G row :
  In row (flat_map (auc_rows gran) G) -> res_granularity row = gran.
Proof.
  intros Hrow. apply in_flat_map in Hrow. destruct Hrow as (g & _ & Hrow).
  unfold auc_rows in Hrow. destruct (skipped 30 (snd g)); [destruct Hrow|].
  now destruct Hrow as [<-|[]].
Qed.

Lemma filter_all {A} (f : A -> bool) l :
  (forall x, In x l -> f x = true) -> filter f l = l.
Proof.
  induction l as [|a l IH]; intros Hf; auto.
  simpl. rewrite (Hf a) by now left. f_equal. apply IH.
  intros; apply Hf; now right.
Qed.

Lemma filter_none {A} (f : A -> bool) l :
  (forall x, In x l -> f x = false) -> filter f l = [].
Proof.
  induction l as [|a l IH]; intros Hf; auto.
  simpl. rewrite (Hf a) by now left. apply IH.
  intros; apply Hf; now right.
Qed.

(** The monthly rows of [results] are the rows of the monthly loop. *)
Lemma monthly_results df results :
  auc_results df = Ok results ->
  filter (fun r => gran_eqb (res_granularity r) Month) results =
  flat_map (auc_rows Month) (groupby cohort df).
Proof.
  rewrite auc_results_eq. intros [= <-]. rewrite filter_app.
  rewrite filter_all, filter_none; [apply app_nil_r| |].
  - intros x Hx. now rewrite (auc_rows_granularity _ _ _ Hx).
  - intros x Hx. now rewrite (auc_rows_granularity _ _ _ Hx).
Qed.

(** The periods of the smoothed series are those of the monthly rows,
    each once. *)
Lemma monthly_rolling_periods df results :
  auc_results df = Ok results ->
  NoDup (map fst (monthly_rolling results)) /\
  forall p, In p (map fst (monthly_rolling results)) <->
            exists l, In l results /\ res_granularity l = Month /\ res_period l = p.
Proof.
  intros Hres. unfold monthly_rolling.
  rewrite map_fst_combine by now rewrite rolling3_length, !length_map.
  pose proof (sort_values_perm res_period
                (filter (fun r => gran_eqb (res_granularity r) Month) results)) as Hp.
  split.
  - apply (Permutation_NoDup (Permutation_sym (Permutation_map res_period Hp))).
    rewrite (monthly_results df results Hres).
    apply auc_rows_periods. rewrite groupby_keys. apply unique_NoDup.
  - intros p. rewrite in_map_iff. split.
    + intros (l & Hl & Hin). apply sort_values_in, filter_In in Hin.
      destruct Hin as [Hin Hg]. exists l. repeat split; auto.
      now destruct (res_granularity l).
    + intros (l & Hin & Hg & Hl). exists l. split; auto.
      apply sort_values_in, filter_In. split; auto. now rewrite Hg.
Qed.

Lemma smoothed_at_none right p :
  smoothed_at right p = None <-> ~ In p (map fst right).
Proof.
  unfold smoothed_at. induction right as [|r right IH]; simpl; [tauto|].
  destruct (keqb (fst r) p) eqn:E; simpl.
  - apply keqb_eq in E. split; [discriminate|]. intros H; destruct H; auto.
  - rewrite IH. split.
    + intros Hn [Hr|Hr]; auto. apply keqb_eq in Hr. congruence.
    + tauto.
Qed.

Lemma smoothed_at_some right p v :
  smoothed_at right p = Some v -> In p (map fst right).
Proof.
  unfold smoothed_at. induction right as [|r right IH]; simpl; [discriminate|].
  destruct (keqb (fst r) p) eqn:E; simpl.
  - apply keqb_eq in E. auto.
  - auto.
Qed.

(** What the returned table holds.  The rows are those of [results], in
    order; a row takes the smoothed value of the monthly row of its
    period, whatever its own granularity, and its raw value when there is
    no monthly row of that period. *)
Lemma compute_auc_by_cohort_rows df table :
  compute_auc_by_cohort df = Ok table ->
  exists results,
    auc_results df = Ok results /\ results <> [] /\
    map (fun r => (period r, granularity r, auc r, n_loans r, default_rate r)) table
    = map (fun l => (res_period l, res_granularity l, res_auc l, res_n_loans l,
                     res_default_rate l)) results /\
    (forall row, In row table ->
       (forall m, In m table -> granularity m = Month -> period m <> period row) ->
       auc_rolling3 row = auc row) /\
    (forall row m, In row table -> In m table -> granularity m = Month ->
       period m = period row -> auc_rolling3 row = auc_rolling3 m).
Proof.
  unfold compute_auc_by_cohort. intros Hc.
  apply bind_ok in Hc. destruct Hc as (results & Hres & Hc).
  exists results. split; auto.
  assert (Hne : results <> []) by (intros E; rewrite E in Hc; discriminate).
  split; [exact Hne|].
  assert (Ht : Ok (map fillna_auc (merge_left results (monthly_rolling results)))
               = Ok table) by (destruct results; [congruence|exact Hc]).
  injection Ht as Ht.
  destruct (monthly_rolling_periods df results Hres) as [Hnd _].
  rewrite (merge_left_lookup _ _ Hnd), map_map in Ht. symmetry in Ht.
  clear Hc. destruct (monthly_rolling_periods df results Hres) as [_ Hkeys].
  split; [|split].
  - rewrite Ht, map_map. reflexivity.
  - intros row Hrow Hno. rewrite Ht in Hrow. apply in_map_iff in Hrow.
    destruct Hrow as (l & <- & Hl).
    cbn [fillna_auc auc_rolling3 auc period fst snd] in *.
    destruct (smoothed_at _ _) eqn:Es; auto.
    exfalso. apply smoothed_at_some, Hkeys in Es.
    destruct Es as (l' & Hl' & Hg' & Hp').
    apply (Hno (fillna_auc (l', smoothed_at (monthly_rolling results) (res_period l')))).
    + rewrite Ht. apply in_map_iff. now exists l'.
    + exact Hg'.
    + exact Hp'.
  - intros row m Hrow Hm Hgm Hp. rewrite Ht in Hrow, Hm.
    apply in_map_iff in Hrow, Hm.
    destruct Hrow as (l & <- & Hl). destruct Hm as (l' & <- & Hl').
    cbn [fillna_auc auc_rolling3 auc period granularity fst snd] in *.
    rewrite <- Hp.
    destruct (smoothed_at _ _) eqn:Es; auto.
    exfalso. apply smoothed_at_none in Es. apply Es, Hkeys.
    now exists l'.
Qed.

(** C5 at the frame [cohort_of_25]: the only monthly group and the only
    quarterly group have both classes and 25 loans and are skipped, so
    [results] is empty; the table cannot then be built and
    [compute_auc_by_cohort] raises [KeyError], where the segment table of
    the same frame has its one row. *)
Theorem auc_all_skipped_raises :
  groupby cohort cohort_of_25 = [((2012, 1)%Z, cohort_of_25)] /\
  nunique (map default_flag cohort_of_25) = 2%nat /\
  length cohort_of_25 = 25%nat /\
  auc_results cohort_of_25 = Ok [] /\
  compute_auc_by_cohort cohort_of_25 = Raise KeyError /\
  compute_auc_by_cohort_grade cohort_of_25 =
    Ok [ {| g_period := (2012, 1)%Z; g_grade := "A"; g_auc := 1;
            g_n_loans := 25; g_default_rate := 1 # 5 |} ].
Proof. vm_compute. repeat split; reflexivity. Qed.

(** C1 at the frame [first_quarter]: the quarterly row of 2015-01-01 has
    the raw value 0.8789 and carries as [auc_rolling3] the smoothed value
    1 of the monthly row of the same period. *)
Theorem quarterly_row_takes_monthly_rolling :
  compute_auc_by_cohort first_quarter =
    Ok [ {| period := (2015, 1)%Z; granularity := Month; auc := 1;
            n_loans := 30; default_rate := 1 # 2; auc_rolling3 := 1 |};
         {| period := (2015, 1)%Z; granularity := Quarter;
            auc := 8789 # 10000;
            n_loans := 32; default_rate := 1 # 2; auc_rolling3 := 1 |} ].
Proof. vm_compute. reflexivity. Qed.

(* ================================================================== *)
(** * The bin edges of [compute_psi] *)

Lemma ext_eq_neginf y : kcmp NegInf y = Eq -> y = NegInf.
Proof. destruct y; simpl; congruence. Qed.

Lemma ext_eq_posinf y : kcmp PosInf y = Eq -> y = PosInf.
Proof. destruct y; simpl; congruence. Qed.

Lemma set_ends {A} (a b : A) (l : list A) :
  (2 <= length l)%nat ->
  set_last b (set_first a l) = a :: removelast (tl l) ++ [b].
Proof.
  destruct l as [|x [|y l]]; simpl; try lia. reflexivity.
Qed.

Lemma linspace01_length n : length (linspace01 n) = S n.
Proof. unfold linspace01. now rewrite length_map, length_seq. Qed.

(** The first of an increasing list that holds [-inf] is [-inf]. *)
Lemma increasing_first (l : list ext) :
  increasing l -> In NegInf l -> exists l', l = NegInf :: l'.
Proof.
  destruct l as [|a l]; intros Hi Hin; [destruct Hin|].
  destruct Hin as [->|Hin]; [now exists l|].
  apply (increasing_below _ _ Hi) in Hin. destruct a; discriminate.
Qed.

(** The last of an increasing list that holds [+inf] is [+inf]. *)
Lemma increasing_last (l : list ext) d :
  increasing l -> In PosInf l -> last l d = PosInf.
Proof.
  induction l as [|a l IH]; intros Hi Hin; [destruct Hin|].
  destruct l as [|b l].
  - destruct Hin as [->|[]]. reflexivity.
  - change (last (a :: b :: l) d) with (last (b :: l) d).
    apply IH; [now apply increasing_tail in Hi|].
    destruct Hin as [->|Hin]; auto.
    destruct Hi as [Hab _]. destruct b; discriminate.
Qed.

(** The edges exist as soon as the expected population has a value; they
    are the quantiles at 0, 1/n, ..., 1 with both ends replaced, sorted
    and collapsed: strictly increasing, from [-inf] to [+inf]. *)
Lemma psi_edges_spec (expected : list (option Q)) n :
  dropna expected <> [] -> (1 <= n)%nat ->
  exists edges,
    psi_edges expected n = Ok edges /\
    edges =
      unique (NegInf ::
              removelast (tl (map Fin
                (map (quantile_linear (sort_values (fun v => v) (dropna expected)))
                     (linspace01 n))))
              ++ [PosInf]) /\
    increasing edges /\
    (exists mid, edges = NegInf :: mid) /\
    last edges NegInf = PosInf /\
    (2 <= length edges)%nat.
Proof.
  intros Hne Hn. unfold psi_edges, np_quantile.
  destruct (dropna expected) as [|x0 xs] eqn:Ex; [congruence|].
  cbn [bind]. eexists. split; [reflexivity|].
  rewrite set_ends by (rewrite !length_map, linspace01_length; lia).
  split; [reflexivity|].
  set (raw := NegInf :: _ ++ [PosInf]).
  assert (Hinc : increasing (unique raw)) by apply unique_increasing.
  assert (Hneg : In NegInf (unique raw)).
  { destruct (unique_cover NegInf raw) as (y & Hy & Ey); [now left|].
    apply ext_eq_neginf in Ey. now subst. }
  assert (Hpos : In PosInf (unique raw)).
  { destruct (unique_cover PosInf raw) as (y & Hy & Ey).
    - right. apply in_or_app. right. now left.
    - apply ext_eq_posinf in Ey. now subst. }
  split; [exact Hinc|]. split; [now apply increasing_first|].
  split; [now apply increasing_last|].
  destruct (increasing_first _ Hinc Hneg) as (mid & E).
  rewrite E in Hpos |- *. destruct Hpos as [Hp|Hp]; [discriminate|].
  destruct mid; [destruct Hp | simpl; lia].
Qed.

(* ================================================================== *)
(** * [np.histogram] *)

Lemma histogram_bins edges vals :
  histogram edges vals =
  map (fun b => countb (fun v => in_bin_of v b) vals) (bins edges).
Proof.
  induction edges as [|lo edges IH]; simpl; auto.
  destruct edges as [|hi rest]; auto.
  rewrite IH. reflexivity.
Qed.

Lemma kleb_ltb_trans {K} `{KeyOrder K} (a b c : K) :
  kltb a b = true -> kleb b c = true -> kltb a c = true.
Proof.
  unfold kltb, kleb. intros Hab Hbc.
  destruct (kcmp a b) eqn:E1; try discriminate.
  destruct (kcmp b c) eqn:E2; try discriminate.
  - now rewrite <- (kcmp_eq_compat_r _ _ a E2), E1.
  - now rewrite (kcmp_lt_trans _ _ _ E1 E2).
Qed.

Lemma kltb_leb {K} `{KeyOrder K} (a b : K) : kltb a b = true -> kleb a b = true.
Proof. unfold kltb, kleb. destruct (kcmp a b); auto. Qed.

Lemma kltb_false {K} `{KeyOrder K} (a b : K) : kltb a b = false <-> kleb b a = true.
Proof.
  unfold kltb, kleb. rewrite (kcmp_antisym a b).
  destruct (kcmp a b); simpl; split; congruence.
Qed.

Lemma last_nonempty_indep {A} (a : A) l d d' : last (a :: l) d = last (a :: l) d'.
Proof.
  revert a. induction l as [|b l IH]; intros a; auto.
  change (last (b :: l) d = last (b :: l) d'). apply IH.
Qed.

Lemma last_nonempty_in {A} (a : A) l d : In (last (a :: l) d) (a :: l).
Proof.
  revert a. induction l as [|b l IH]; intros a; [now left|].
  right. change (In (last (b :: l) d) (b :: l)). apply IH.
Qed.

(** Along increasing edges the bins tile the range from the first edge to
    the last one: a value of that range is in one bin, any other in none. *)
Lemma bins_tile (v : Q) e0 (edges : list ext) :
  edges <> [] -> increasing (e0 :: edges) ->
  countb (in_bin_of v) (bins (e0 :: edges)) =
  if kleb e0 (Fin v) && kleb (Fin v) (last edges e0) then 1%nat else 0%nat.
Proof.
  revert e0. induction edges as [|e1 rest IH]; intros e0 Hne Hi; [congruence|].
  destruct rest as [|e2 rest].
  - cbn. unfold in_bin_of, in_bin; simpl.
    destruct (kleb e0 (Fin v) && kleb (Fin v) e1); reflexivity.
  - destruct Hi as [H01 Hi].
    change (bins (e0 :: e1 :: e2 :: rest))
      with ((e0, e1, false) :: bins (e1 :: e2 :: rest)).
    unfold countb in *. cbn [filter].
    unfold in_bin_of at 1, in_bin; cbn [fst snd].
    specialize (IH e1 ltac:(discriminate) Hi).
    change (last (e1 :: e2 :: rest) e0) with (last (e2 :: rest) e0).
    rewrite (last_nonempty_indep e2 rest e0 e1).
    assert (H1l : kltb e1 (last (e2 :: rest) e1) = true).
    { unfold kltb. rewrite (increasing_below _ _ Hi); auto.
      apply last_nonempty_in. }
    assert (H01' : kltb e0 e1 = true) by (unfold kltb; now rewrite H01).
    destruct (kltb (Fin v) e1) eqn:Hv.
    + (* below e1: in the first bin when above e0, in no later bin *)
      assert (Hl : kleb (Fin v) (last (e2 :: rest) e1) = true).
      { apply kltb_leb. eapply kleb_ltb_trans; [exact Hv|now apply kltb_leb]. }
      assert (H1v : kleb e1 (Fin v) = false).
      { apply not_true_iff_false. intros C. apply kltb_false in C. congruence. }
      rewrite H1v in IH. simpl in IH. rewrite Hl, !andb_true_r.
      destruct (kleb e0 (Fin v)); simpl; now rewrite IH.
    + (* from e1 on: not in the first bin *)
      apply kltb_false in Hv.
      assert (H0v : kleb e0 (Fin v) = true).
      { apply kltb_leb. eapply kleb_ltb_trans; eauto. }
      rewrite Hv in IH. rewrite H0v, andb_false_r. simpl in *. exact IH.
Qed.

(** Every value falls in exactly one bin. *)
Lemma bins_exactly_one edges (v : Q) :
  full_range edges -> countb (in_bin_of v) (bins edges) = 1%nat.
Proof.
  intros (Hi & (mid & ->) & Hl & Hn).
  destruct mid as [|e1 mid]; [simpl in Hn; lia|].
  rewrite bins_tile; auto; [|discriminate].
  change (last (NegInf :: e1 :: mid) NegInf) with (last (e1 :: mid) NegInf) in Hl.
  rewrite Hl. reflexivity.
Qed.

Lemma countb_cons {A} (f : A -> bool) a l :
  countb f (a :: l) = ((if f a then 1 else 0) + countb f l)%nat.
Proof. unfold countb; simpl. destruct (f a); reflexivity. Qed.

(** Counting the pairs (bin, value) by bins or by values. *)
Lemma count_exchange {A B} (f : A -> B -> bool) (vals : list A) (bs : list B) :
  sum_nat (map (fun b => countb (fun v => f v b) vals) bs) =
  sum_nat (map (fun v => countb (f v) bs) vals).
Proof.
  induction vals as [|v vals IH]; simpl.
  - induction bs; simpl; auto.
  - rewrite <- IH. clear IH.
    induction bs as [|b bs IHb]; simpl; auto.
    rewrite !countb_cons, IHb. lia.
Qed.

(** The counts of a histogram over full-range edges add up to the number
    of values. *)
Lemma histogram_total edges vals :
  full_range edges -> sum_nat (histogram edges vals) = length vals.
Proof.
  intros Hf. rewrite histogram_bins, count_exchange.
  induction vals as [|v vals IH]; simpl; auto.
  rewrite bins_exactly_one by auto. now rewrite IH.
Qed.

Lemma histogram_length edges vals :
  length (histogram edges vals) = length (bins edges).
Proof. rewrite histogram_bins. apply length_map. Qed.

Lemma dropna_Some l : dropna (map Some l) = l.
Proof. induction l; simpl; congruence. Qed.

Lemma compute_psi_total (expected actual : list (option Q)) n :
  dropna expected <> [] -> dropna actual <> [] -> (1 <= n)%nat ->
  exists edges,
    psi_edges expected n = Ok edges /\ full_range edges /\
    sum_nat (histogram edges (dropna expected)) = length (dropna expected) /\
    sum_nat (histogram edges (dropna actual)) = length (dropna actual) /\
    compute_psi expected actual n
    = Ok (psi_over edges (dropna expected) (dropna actual)).
Proof.
  intros He Ha Hn.
  destruct (psi_edges_spec expected n He Hn)
    as (edges & Hedges & _ & Hi & Hfirst & Hlast & Hlen).
  assert (Hfull : full_range edges) by (repeat split; auto).
  exists edges. split; auto. split; auto.
  pose proof (histogram_total edges (dropna expected) Hfull) as Se.
  pose proof (histogram_total edges (dropna actual) Hfull) as Sa.
  split; auto. split; auto.
  unfold compute_psi. rewrite Hedges. cbn [bind].
  rewrite Se, Sa.
  destruct (dropna expected); [congruence|].
  destruct (dropna actual); [congruence|].
  reflexivity.
Qed.

(* ================================================================== *)
(** * The value of the PSI *)

Lemma eps_pos : (0 < eps)%R.
Proof. unfold eps. lra. Qed.

(** With the smoothing constant every proportion is positive. *)
Lemma pct_pos counts p : In p (pct counts) -> (eps <= p)%R.
Proof.
  unfold pct. rewrite in_map_iff. intros (c & <- & _).
  assert (0 <= INR c / INR (sum_nat counts))%R; [|lra].
  unfold Rdiv. apply Rmult_le_pos; [apply pos_INR|].
  destruct (sum_nat counts) as [|s].
  - simpl. rewrite Rinv_0. lra.
  - left. apply Rinv_0_lt_compat. apply lt_0_INR. lia.
Qed.

(** One term of the sum: the difference and the logarithm of the ratio
    have the same sign. *)
Lemma psi_term_nonneg e a : (0 < e)%R -> (0 < a)%R -> (0 <= psi_term e a)%R.
Proof.
  intros He Ha. unfold psi_term.
  destruct (Rle_lt_dec e a) as [Hle|Hlt].
  - apply Rmult_le_pos; [lra|].
    destruct Hle as [Hlt|<-].
    + left. rewrite <- ln_1. apply ln_increasing; [lra|].
      apply Rmult_lt_reg_r with e; auto.
      unfold Rdiv. rewrite Rmult_assoc, Rinv_l by lra. lra.
    + unfold Rdiv. rewrite Rinv_r by lra. rewrite ln_1. lra.
  - assert (Hln : (ln (a / e) < 0)%R).
    { rewrite <- ln_1. apply ln_increasing.
      - apply Rdiv_lt_0_compat; auto.
      - apply Rmult_lt_reg_r with e; auto.
        unfold Rdiv. rewrite Rmult_assoc, Rinv_l by lra. lra. }
    assert (0 <= (e - a) * - ln (a / e))%R by (apply Rmult_le_pos; lra).
    lra.
Qed.

Lemma psi_term_same e : (0 < e)%R -> psi_term e e = 0%R.
Proof. intros He. unfold psi_term. lra. Qed.

Lemma Rsum_nonneg l : (forall x, In x l -> (0 <= x)%R) -> (0 <= Rsum l)%R.
Proof.
  induction l as [|a l IH]; simpl; intros Hl; [lra|].
  assert (0 <= a)%R by auto. assert (0 <= Rsum l)%R by auto. lra.
Qed.

Lemma Rsum_zero l : (forall x, In x l -> x = 0%R) -> Rsum l = 0%R.
Proof.
  induction l as [|a l IH]; simpl; intros Hl; auto.
  rewrite (Hl a), IH by auto. lra.
Qed.

Lemma psi_sum_nonneg e_pct a_pct :
  (forall p, In p e_pct -> (0 < p)%R) -> (forall p, In p a_pct -> (0 < p)%R) ->
  (0 <= psi_sum e_pct a_pct)%R.
Proof.
  intros He Ha. unfold psi_sum. apply Rsum_nonneg.
  intros x Hx. apply in_map_iff in Hx. destruct Hx as ([e a] & <- & Hin).
  simpl. apply psi_term_nonneg.
  - apply He. eapply in_combine_l; eauto.
  - apply Ha. eapply in_combine_r; eauto.
Qed.

Lemma psi_sum_same pcts :
  (forall p, In p pcts -> (0 < p)%R) -> psi_sum pcts pcts = 0%R.
Proof.
  intros Hp. unfold psi_sum. apply Rsum_zero.
  intros x Hx. apply in_map_iff in Hx. destruct Hx as ([e a] & <- & Hin).
  simpl. assert (e = a); [|subst; apply psi_term_same, Hp;
                           eapply in_combine_l; eauto].
  clear Hp. induction pcts as [|p pcts IH]; simpl in Hin; [destruct Hin|].
  destruct Hin as [[= <- <-]|Hin]; auto.
Qed.

Lemma Rrint_nonneg x : (0 <= x)%R -> (0 <= Rrint x)%Z.
Proof.
  intros Hx. unfold Rrint.
  assert (0 <= Zfloor x)%Z by (apply Zfloor_lub; simpl; lra).
  destruct (Rlt_dec _ _); [lia|].
  destruct (Rlt_dec _ _); [lia|].
  destruct (Z.even _); lia.
Qed.

Lemma Rrint_0 : Rrint 0 = 0%Z.
Proof.
  unfold Rrint. rewrite (ZfloorZ 0).
  destruct (Rlt_dec _ _) as [|N]; auto.
  exfalso. apply N. lra.
Qed.

Lemma Rround_nonneg x n : (0 <= x)%R -> (0 <= Rround x n)%R.
Proof.
  intros Hx. unfold Rround.
  pose proof (pow10_pos n) as Hp. apply IZR_lt in Hp.
  apply Rmult_le_pos.
  - apply IZR_le. apply Rrint_nonneg. apply Rmult_le_pos; lra.
  - left. now apply Rinv_0_lt_compat.
Qed.

Lemma Rround_0 n : Rround 0 n = 0%R.
Proof.
  unfold Rround. rewrite Rmult_0_l, Rrint_0. unfold Rdiv. apply Rmult_0_l.
Qed.

Lemma countb_perm {A} (f : A -> bool) l l' :
  Permutation l l' -> countb f l = countb f l'.
Proof.
  induction 1; rewrite ?countb_cons; lia.
Qed.

Lemma histogram_perm edges l l' :
  Permutation l l' -> histogram edges l = histogram edges l'.
Proof.
  intros Hp. rewrite !histogram_bins. apply map_ext.
  intros b. now apply countb_perm.
Qed.

Lemma same_proportions_pct e_counts a_counts :
  (0 < sum_nat e_counts)%nat -> (0 < sum_nat a_counts)%nat ->
  same_proportions e_counts a_counts -> pct a_counts = pct e_counts.
Proof.
  unfold same_proportions, pct.
  generalize (sum_nat e_counts) as se, (sum_nat a_counts) as sa.
  intros se sa Hse Hsa.
  revert e_counts. induction a_counts as [|a al IH]; intros [|e el]; simpl;
    try discriminate; auto.
  intros [= Ha Hl]. f_equal; auto.
  apply lt_0_INR in Hse, Hsa.
  apply (f_equal INR) in Ha. rewrite !mult_INR in Ha.
  assert (INR a / INR sa = INR e / INR se)%R; [|lra].
  apply Rmult_eq_reg_r with (INR sa * INR se)%R; [|nra].
  field_simplify; lra.
Qed.

Lemma pct_positive counts p : In p (pct counts) -> (0 < p)%R.
Proof. intros Hp. apply pct_pos in Hp. pose proof eps_pos. lra. Qed.

(* ================================================================== *)
(** * The rows of [compute_psi_by_cohort] *)

Lemma compute_psi_value base actual :
  base <> [] -> actual <> [] ->
  compute_psi (map Some base) (map Some actual) PSI_N_BINS
  = Ok (psi_value base actual).
Proof.
  intros Hb Ha.
  destruct (compute_psi_total (map Some base) (map Some actual) PSI_N_BINS)
    as (edges & He & _ & _ & _ & Hc);
    rewrite ?dropna_Some; auto; [unfold PSI_N_BINS; lia|].
  rewrite Hc, !dropna_Some. unfold psi_value. rewrite He. reflexivity.
Qed.

Lemma psi_body_eq f base g :
  base <> [] -> psi_body f base g = Ok (psi_rows f base g).
Proof.
  intros Hb. destruct g as [name group]. unfold psi_body, psi_rows. simpl.
  destruct (Nat.ltb_spec (length (dropna (map (column f) group))) 10) as [|Hl];
    auto.
  rewrite compute_psi_value; auto.
  intros E. rewrite E in Hl. simpl in Hl. lia.
Qed.

(** With a baseline for every drift feature no call raises, and the table
    is the rows of the pairs that pass the guard, feature by feature. *)
Lemma compute_psi_by_cohort_eq df :
  (forall f, In f DRIFT_FEATURES -> baseline f df <> []) ->
  compute_psi_by_cohort df =
  Ok (flat_map (fun f => flat_map (psi_rows f (baseline f df)) (groupby cohort df))
               DRIFT_FEATURES).
Proof.
  intros Hb. unfold compute_psi_by_cohort.
  apply for_each_total. intros f Hf.
  apply for_each_total. intros g _. now apply psi_body_eq, Hb.
Qed.

Lemma psi_rows_In df row :
  In row (flat_map (fun f => flat_map (psi_rows f (baseline f df))
                                      (groupby cohort df)) DRIFT_FEATURES) <->
  exists f g, In f DRIFT_FEATURES /\
              In (psi_period row, g) (groupby cohort df) /\
              psi_feature row = f /\
              (10 <= length (dropna (map (column f) g)))%nat /\
              n_obs row = length (dropna (map (column f) g)) /\
              psi row = psi_value (baseline f df) (dropna (map (column f) g)).
Proof.
  rewrite in_flat_map. split.
  - intros (f & Hf & Hrow). apply in_flat_map in Hrow.
    destruct Hrow as ([c g] & Hg & Hrow). unfold psi_rows in Hrow. simpl in Hrow.
    destruct (Nat.ltb_spec (length (dropna (map (column f) g))) 10) as [|Hl];
      [destruct Hrow|].
    destruct Hrow as [<-|[]]. simpl. exists f, g. auto 10.
  - intros (f & g & Hf & Hg & Hrf & Hl & Hn & Hp).
    exists f. split; auto. apply in_flat_map. exists (psi_period row, g).
    split; auto. unfold psi_rows. simpl.
    destruct (Nat.ltb_spec (length (dropna (map (column f) g))) 10) as [|_];
      [lia|].
    left. destruct row; simpl in *. congruence.
Qed.

(* ================================================================== *)
(** * The specification of the PSI *)

(* ================================================================== *)
(** * The quantiles of the baseline *)

Lemma kleb_Q (a b : Q) : kleb a b = true <-> a <= b.
Proof.
  unfold kleb. cbn [kcmp Q_order]. rewrite Qle_alt.
  destruct (a ?= b); split; congruence.
Qed.

Lemma kltb_Q (a b : Q) : kltb a b = true <-> a < b.
Proof.
  unfold kltb. cbn [kcmp Q_order]. rewrite Qlt_alt.
  destruct (a ?= b); split; congruence.
Qed.

Lemma kleb_Q_false (a b : Q) : kleb a b = false <-> b < a.
Proof.
  rewrite <- Bool.not_true_iff_false, kleb_Q. split.
  - apply Qnot_le_lt.
  - apply Qlt_not_le.
Qed.

Lemma kltb_Q_false (a b : Q) : kltb a b = false <-> b <= a.
Proof.
  rewrite <- Bool.not_true_iff_false, kltb_Q. split.
  - apply Qnot_lt_le.
  - apply Qle_not_lt.
Qed.

Lemma dropna_In v col : In v (dropna col) <-> In (Some v) col.
Proof.
  induction col as [|[x|] col IH]; simpl; [tauto| |].
  - rewrite IH. split; intros [E|H]; auto; left; congruence.
  - rewrite IH. split; auto. intros [E|H]; [discriminate|auto].
Qed.

Lemma ratio_range (k n : nat) :
  (k <= n)%nat -> 0 <= inject_Z (Z.of_nat k) / inject_Z (Z.of_nat n) <= 1.
Proof.
  intros Hk. destruct n as [|n].
  - assert (k = 0)%nat by lia. subst. split; vm_compute; discriminate.
  - assert (HD : 0 < inject_Z (Z.of_nat (S n))).
    { change 0 with (inject_Z 0). rewrite <- Zlt_Qlt. lia. }
    split.
    + apply Qle_shift_div_l; auto. rewrite Qmult_0_l.
      change 0 with (inject_Z 0). rewrite <- Zle_Qle. lia.
    + apply Qle_shift_div_r; auto. rewrite Qmult_1_l, <- Zle_Qle. lia.
Qed.

Lemma ordered_Q_le a b (s : list Q) :
  ordered (fun v => v) (a :: s) -> In b s -> a <= b.
Proof.
  intros [Ha _] Hb. specialize (Ha b Hb). cbn [kcmp Q_order] in Ha.
  apply Qle_alt. exact Ha.
Qed.

Lemma ordered_nth_le (s : list Q) i j :
  ordered (fun v => v) s -> (i <= j < length s)%nat ->
  nth i s 0 <= nth j s 0.
Proof.
  revert i j. induction s as [|a s IH]; intros i j Ho [Hij Hj].
  - simpl in Hj. lia.
  - destruct i as [|i], j as [|j]; try lia.
    + apply Qle_refl.
    + cbn [nth]. apply (ordered_Q_le a _ s Ho).
      apply nth_In. simpl in Hj. lia.
    + cbn [nth]. apply IH; [apply Ho|]. simpl in Hj. lia.
Qed.

(** In a sorted sample the values up to position [i] are at most the
    [i]-th, and no value below the [j]-th comes at [j] or later. *)
Lemma ordered_count_le (s : list Q) i c :
  ordered (fun v => v) s -> (i < length s)%nat -> nth i s 0 <= c ->
  (i + 1 <= countb (fun v => kleb v c) s)%nat.
Proof.
  revert i. induction s as [|a s IH]; intros i Ho Hi Hc.
  - simpl in Hi. lia.
  - rewrite countb_cons.
    assert (Ha : a <= c).
    { destruct i as [|i]; [exact Hc|].
      apply Qle_trans with (nth i s 0); [|exact Hc].
      apply (ordered_Q_le a _ s Ho), nth_In. simpl in Hi. lia. }
    apply kleb_Q in Ha. rewrite Ha.
    destruct i as [|i]; [lia|].
    specialize (IH i (proj2 Ho)). cbn [nth length] in *.
    assert (i + 1 <= countb (fun v => kleb v c) s)%nat by (apply IH; auto; lia).
    lia.
Qed.

Lemma ordered_count_lt (s : list Q) j c :
  ordered (fun v => v) s -> (j < length s)%nat -> c <= nth j s 0 ->
  (countb (fun v => kltb v c) s <= j)%nat.
Proof.
  revert j. induction s as [|a s IH]; intros j Ho Hj Hc.
  - simpl in Hj. lia.
  - rewrite countb_cons. destruct j as [|j].
    + cbn [nth] in Hc.
      assert (Ha : kltb a c = false) by now apply kltb_Q_false.
      rewrite Ha.
      assert (Hs : countb (fun v => kltb v c) s = 0%nat).
      { unfold countb. rewrite filter_none; auto.
        intros x Hx. apply kltb_Q_false.
        apply Qle_trans with a; auto. now apply (ordered_Q_le a x s Ho). }
      lia.
    + specialize (IH j (proj2 Ho)). cbn [nth length] in *.
      assert (countb (fun v => kltb v c) s <= j)%nat by (apply IH; auto; lia).
      destruct (kltb a c); lia.
Qed.

(** A quantile lies between the two order statistics around its virtual
    index. *)
Lemma quantile_between (s : list Q) (q : Q) :
  ordered (fun v => v) s -> s <> [] -> 0 <= q <= 1 ->
  exists lo hi : nat,
    (lo <= hi < length s)%nat /\ (hi <= lo + 1)%nat /\
    inject_Z (Z.of_nat lo) <= q * inject_Z (Z.of_nat (length s) - 1) /\
    q * inject_Z (Z.of_nat (length s) - 1) < inject_Z (Z.of_nat lo) + 1 /\
    nth lo s 0 <= quantile_linear s q <= nth hi s 0.
Proof.
  intros Ho Hne [Hq0 Hq1]. unfold quantile_linear.
  set (n := Z.of_nat (length s)).
  assert (Hn : (1 <= n)%Z).
  { unfold n. destruct s; [congruence|]. cbn [length]. lia. }
  set (h := q * inject_Z (n - 1)).
  assert (Hn1 : 0 <= inject_Z (n - 1)).
  { change 0 with (inject_Z 0). rewrite <- Zle_Qle. lia. }
  assert (Hh0 : 0 <= h) by (apply Qmult_le_0_compat; auto).
  assert (Hh1 : h <= inject_Z (n - 1)).
  { unfold h. rewrite <- (Qmult_1_l (inject_Z (n - 1))) at 2.
    apply Qmult_le_compat_r; auto. }
  pose proof (Qfloor_le h) as Hfl. pose proof (Qlt_floor h) as Hfu.
  rewrite inject_Z_plus in Hfu. change (inject_Z 1) with 1 in Hfu.
  assert (Hl0 : (0 <= Qfloor h)%Z).
  { rewrite <- (Qfloor_Z 0). now apply Qfloor_resp_le. }
  assert (Hl1 : (Qfloor h <= n - 1)%Z).
  { rewrite <- (Qfloor_Z (n - 1)). now apply Qfloor_resp_le. }
  exists (Z.to_nat (Qfloor h)), (Z.to_nat (Z.min (Qfloor h + 1) (n - 1))).
  rewrite Z2Nat.id by exact Hl0.
  assert (Hord : nth (Z.to_nat (Qfloor h)) s 0
                 <= nth (Z.to_nat (Z.min (Qfloor h + 1) (n - 1))) s 0).
  { apply ordered_nth_le; auto. unfold n in *. lia. }
  split; [unfold n in *; lia|]. split; [lia|].
  split; [exact Hfl|]. split; [exact Hfu|].
  set (a := nth (Z.to_nat (Qfloor h)) s 0) in *.
  set (b := nth (Z.to_nat (Z.min (Qfloor h + 1) (n - 1))) s 0) in *.
  set (g := h - inject_Z (Qfloor h)).
  assert (Hg : 0 <= g <= 1) by (unfold g; split; lra).
  assert (Hba : 0 <= b - a) by lra.
  assert (H1 : 0 <= g * (b - a)) by (apply Qmult_le_0_compat; tauto).
  assert (H2 : g * (b - a) <= 1 * (b - a))
    by (apply Qmult_le_compat_r; tauto).
  split; lra.
Qed.

Lemma linspace01_nth n k :
  (k <= n)%nat ->
  nth k (linspace01 n) 0 = inject_Z (Z.of_nat k) / inject_Z (Z.of_nat n).
Proof.
  intros Hk. unfold linspace01.
  set (F := fun k => inject_Z (Z.of_nat k) / inject_Z (Z.of_nat n)).
  rewrite (nth_indep _ 0 (F 0%nat)) by (rewrite length_map, length_seq; lia).
  rewrite (map_nth F (seq 0 (S n)) 0%nat k), seq_nth by lia.
  reflexivity.
Qed.

(** The quantile of rank [k] of 10 splits the sample at [k (n - 1) / 10]
    of its values, and lies within it. *)
Lemma cut_point_rank (base : list Q) (k : nat) :
  base <> [] -> (k <= 10)%nat ->
  (exists lo hi, In lo base /\ In hi base /\
                 lo <= cut_point base k <= hi) /\
  (k * (length base - 1)
   <= 10 * countb (fun v => kleb v (cut_point base k)) base)%nat /\
  (10 * countb (fun v => kltb v (cut_point base k)) base
   <= k * (length base - 1) + 10)%nat.
Proof.
  intros Hne Hk. unfold cut_point.
  set (s := sort_values (fun v => v) base).
  assert (Hp : Permutation s base) by apply sort_values_perm.
  assert (Hlen : length s = length base) by apply sort_values_length.
  assert (Hs : s <> []).
  { intros E. rewrite E in Hlen. destruct base; [congruence|discriminate]. }
  rewrite linspace01_nth by (unfold PSI_N_BINS; exact Hk).
  set (q := inject_Z (Z.of_nat k) / inject_Z (Z.of_nat PSI_N_BINS)).
  destruct (quantile_between s q (sort_values_ordered _ base) Hs
              (ratio_range k PSI_N_BINS Hk))
    as (lo & hi & [Hlh Hhi] & Hstep & Hlo & Hup & [Ha Hb]).
  rewrite <- !(countb_perm _ _ _ Hp), <- Hlen.
  assert (E : q * inject_Z (Z.of_nat (length s) - 1)
              == inject_Z (Z.of_nat (k * (length s - 1))) * (1 # 10)).
  { unfold q, PSI_N_BINS.
    replace (Z.of_nat (k * (length s - 1)))
      with (Z.of_nat k * (Z.of_nat (length s) - 1))%Z by nia.
    rewrite inject_Z_mult. change (inject_Z (Z.of_nat 10)) with 10. field. }
  rewrite E in Hlo, Hup.
  split; [|split].
  - exists (nth lo s 0), (nth hi s 0).
    split; [|split; [|split; auto]];
      apply (Permutation_in _ Hp), nth_In; lia.
  - pose proof (ordered_count_le s lo _ (sort_values_ordered _ base)
                  ltac:(lia) Ha) as Hc.
    assert (Hz : (Z.of_nat (k * (length s - 1)) < 10 * (Z.of_nat lo + 1))%Z).
    { revert Hup. generalize (Z.of_nat (k * (length s - 1))), (Z.of_nat lo).
      intros P L Hup. rewrite Zlt_Qlt, inject_Z_mult, inject_Z_plus.
      change (inject_Z 10) with 10. change (inject_Z 1) with 1. lra. }
    lia.
  - pose proof (ordered_count_lt s hi _ (sort_values_ordered _ base)
                  ltac:(lia) Hb) as Hc.
    assert (Hz : (10 * Z.of_nat lo <= Z.of_nat (k * (length s - 1)))%Z).
    { revert Hlo. generalize (Z.of_nat (k * (length s - 1))), (Z.of_nat lo).
      intros P L Hlo. rewrite Zle_Qle, inject_Z_mult.
      change (inject_Z 10) with 10. lra. }
    lia.
Qed.

(** The nine inner quantiles of a list of eleven. *)
Lemma inner_of_eleven {A B} (F : A -> B) (d : A) (l : list A) :
  length l = 11%nat ->
  removelast (tl (map F l)) = map (fun k => F (nth k l d)) (seq 1 9).
Proof.
  intros Hl.
  do 11 (destruct l as [|? l]; [discriminate|]).
  destruct l; [|discriminate]. reflexivity.
Qed.

(** The baseline of a feature: the values of the rows of the training
    years, and of no other row. *)
Lemma baseline_In (f : Feature) (df : list Loan) v :
  In v (baseline f df) <->
  exists r, In r df /\ (year r = 2012 \/ year r = 2013 \/ year r = 2014)%Z /\
            column f r = Some v.
Proof.
  unfold baseline, train. rewrite dropna_In, in_map_iff. split.
  - intros (r & Hv & Hr). apply filter_In in Hr. destruct Hr as [Hr Hy].
    exists r. split; auto. split; auto.
    unfold isin, TRAIN_YEARS in Hy. cbn [existsb] in Hy.
    rewrite !orb_true_iff, !Z.eqb_eq in Hy. intuition discriminate.
  - intros (r & Hr & Hy & Hv). exists r. split; auto.
    apply filter_In. split; auto.
    unfold isin, TRAIN_YEARS. cbn [existsb].
    rewrite !orb_true_iff, !Z.eqb_eq. tauto.
Qed.


(** C8.  When the expected and the actual population both have a value,
    [compute_psi] returns a value: the collapsed edges are at least two
    and increase, the counts of each population add up to a positive
    total, every smoothed proportion is positive, and so is every ratio
    whose logarithm is taken. *)
Theorem compute_psi_never_degenerate (expected actual : list (option Q)) :
  dropna expected <> [] -> dropna actual <> [] ->
  exists edges v,
    psi_edges expected PSI_N_BINS = Ok edges /\
    (2 <= length edges)%nat /\ increasing edges /\
    (0 < sum_nat (histogram edges (dropna expected)))%nat /\
    (0 < sum_nat (histogram edges (dropna actual)))%nat /\
    (forall p, In p (pct (histogram edges (dropna expected))) -> (0 < p)%R) /\
    (forall p, In p (pct (histogram edges (dropna actual))) -> (0 < p)%R) /\
    (forall e a, In (e, a) (combine (pct (histogram edges (dropna expected)))
                                    (pct (histogram edges (dropna actual)))) ->
                 (0 < a / e)%R) /\
    compute_psi expected actual PSI_N_BINS = Ok v.
Proof.
  intros He Ha.
  destruct (compute_psi_total expected actual PSI_N_BINS)
    as (edges & Hedges & Hfull & Se & Sa & Hc); auto; [unfold PSI_N_BINS; lia|].
  exists edges. eexists. split; auto.
  destruct Hfull as (Hi & _ & _ & Hlen).
  split; auto. split; auto.
  split. { rewrite Se. destruct (dropna expected); simpl; [congruence|lia]. }
  split. { rewrite Sa. destruct (dropna actual); simpl; [congruence|lia]. }
  split; [apply pct_positive|]. split; [apply pct_positive|].
  split; [|exact Hc].
  intros e a Hin. apply Rdiv_lt_0_compat.
  - eapply pct_positive, in_combine_r; eauto.
  - eapply pct_positive, in_combine_l; eauto.
Qed.

(** C3.  For two populations that both have a value the PSI is returned
    and is not negative, each term of its sum being not negative; it is
    exactly 0 when the proportions of the actual population equal those of
    the expected one bin by bin, in particular when the actual values are
    the expected values. *)
Theorem compute_psi_nonneg_zero (expected actual : list (option Q)) :
  dropna expected <> [] -> dropna actual <> [] ->
  exists edges v,
    psi_edges expected PSI_N_BINS = Ok edges /\
    compute_psi expected actual PSI_N_BINS = Ok v /\
    (0 <= v)%R /\
    (forall e a, In (e, a) (combine (pct (histogram edges (dropna expected)))
                                    (pct (histogram edges (dropna actual)))) ->
                 (0 <= (a - e) * ln (a / e))%R) /\
    (same_proportions (histogram edges (dropna expected))
                      (histogram edges (dropna actual)) -> v = 0%R) /\
    (Permutation (dropna actual) (dropna expected) -> v = 0%R).
Proof.
  intros He Ha.
  destruct (compute_psi_total expected actual PSI_N_BINS)
    as (edges & Hedges & Hfull & Se & Sa & Hc); auto; [unfold PSI_N_BINS; lia|].
  exists edges. eexists. split; auto. split; [exact Hc|].
  assert (Hse : (0 < sum_nat (histogram edges (dropna expected)))%nat).
  { rewrite Se. destruct (dropna expected); simpl; [congruence|lia]. }
  assert (Hsa : (0 < sum_nat (histogram edges (dropna actual)))%nat).
  { rewrite Sa. destruct (dropna actual); simpl; [congruence|lia]. }
  assert (Hsame : pct (histogram edges (dropna actual)) =
                  pct (histogram edges (dropna expected)) ->
                  psi_over edges (dropna expected) (dropna actual) = 0%R).
  { intros E. unfold psi_over. rewrite E, psi_sum_same.
    - apply Rround_0.
    - apply pct_positive. }
  split; [|split; [|split]].
  - apply Rround_nonneg, psi_sum_nonneg; apply pct_positive.
  - intros e a Hin. apply (psi_term_nonneg e a).
    + eapply pct_positive, in_combine_l; eauto.
    + eapply pct_positive, in_combine_r; eauto.
  - intros Hp. apply Hsame. now apply same_proportions_pct.
  - intros Hp. apply Hsame. now rewrite (histogram_perm edges _ _ Hp).
Qed.

(** C7.  With a baseline for every drift feature the table is returned
    without an exception; a feature and a monthly cohort have a row in it
    exactly when the cohort has at least 10 values of the feature; and
    every row carries that count as [n_obs] and, as [psi], the value
    [compute_psi] returns for the pair, which is a multiple of 10^-6. *)
Theorem psi_row_iff_ten_observations (df : list Loan) :
  (forall f, In f DRIFT_FEATURES -> baseline f df <> []) ->
  exists rows,
    compute_psi_by_cohort df = Ok rows /\
    (forall f c g,
        In f DRIFT_FEATURES -> In (c, g) (groupby cohort df) ->
        ((exists row, In row rows /\ psi_period row = c /\ psi_feature row = f)
         <-> (10 <= length (dropna (map (column f) g)))%nat)) /\
    (forall row, In row rows ->
       exists g,
         In (psi_period row, g) (groupby cohort df) /\
         n_obs row = length (dropna (map (column (psi_feature row)) g)) /\
         compute_psi (map Some (baseline (psi_feature row) df))
                     (map Some (dropna (map (column (psi_feature row)) g)))
                     PSI_N_BINS = Ok (psi row) /\
         exists k : Z, psi row = (IZR k / IZR (pow10 6))%R).
Proof.
  intros Hb. eexists. split; [now apply compute_psi_by_cohort_eq|].
  split.
  - intros f c g Hf Hg. split.
    + intros (row & Hrow & Hc & Hrf).
      apply psi_rows_In in Hrow.
      destruct Hrow as (f' & g' & _ & Hg' & Hf' & Hl & _).
      rewrite Hc in Hg'. rewrite Hrf in Hf'. subst f'.
      now rewrite (groupby_functional _ _ _ _ _ Hg Hg').
    + intros Hl.
      exists {| psi_period := c; psi_feature := f;
                psi := psi_value (baseline f df) (dropna (map (column f) g));
                n_obs := length (dropna (map (column f) g)) |}.
      split; auto. apply psi_rows_In. exists f, g. simpl. auto 10.
  - intros row Hrow. apply psi_rows_In in Hrow.
    destruct Hrow as (f & g & Hf & Hg & Hrf & Hl & Hn & Hp).
    subst f. exists g. split; auto. split; auto. split.
    + rewrite Hp. apply compute_psi_value; auto.
      intros E. rewrite E in Hl. simpl in Hl. lia.
    + rewrite Hp. unfold psi_value.
      destruct (psi_edges _ _).
      * unfold psi_over, Rround. eexists. reflexivity.
      * exists 0%Z. unfold Rdiv. now rewrite Rmult_0_l.
Qed.

(** C10.  The loop runs over the monthly cohorts of the whole frame: a
    cohort with at least 10 values of a feature has its row whatever the
    years of its loans, and the value of every loan of a training year is
    itself in the baseline the cohort is compared against. *)
Theorem psi_rows_cover_training_cohorts (df : list Loan) :
  (forall f, In f DRIFT_FEATURES -> baseline f df <> []) ->
  exists rows,
    compute_psi_by_cohort df = Ok rows /\
    forall f c g,
      In f DRIFT_FEATURES -> In (c, g) (groupby cohort df) ->
      (10 <= length (dropna (map (column f) g)))%nat ->
      (exists row,
          In row rows /\ psi_period row = c /\ psi_feature row = f /\
          compute_psi (map Some (baseline f df))
                      (map Some (dropna (map (column f) g))) PSI_N_BINS
          = Ok (psi row)) /\
      (forall r v, In r g -> isin (year r) TRAIN_YEARS = true ->
                   column f r = Some v -> In v (baseline f df)).
Proof.
  intros Hb. eexists. split; [now apply compute_psi_by_cohort_eq|].
  intros f c g Hf Hg Hl. split.
  - exists {| psi_period := c; psi_feature := f;
              psi := psi_value (baseline f df) (dropna (map (column f) g));
              n_obs := length (dropna (map (column f) g)) |}.
    split; [|split; [|split]]; auto.
    + apply psi_rows_In. exists f, g. simpl. auto 10.
    + simpl. apply compute_psi_value; auto.
      intros E. rewrite E in Hl. simpl in Hl. lia.
  - intros r v Hr Hy Hv.
    apply groupby_spec in Hg. destruct Hg as [_ ->].
    apply filter_In in Hr. destruct Hr as [Hr _].
    unfold baseline.
    assert (Hin : In (Some v) (map (column f) (train df))).
    { rewrite <- Hv. apply in_map. apply filter_In. auto. }
    revert Hin. generalize (map (column f) (train df)).
    induction l as [|[x|] l IH]; simpl; intros Hin; auto.
    + destruct Hin as [[= ->]|Hin]; auto.
    + destruct Hin as [Hin|Hin]; [discriminate|auto].
Qed.

(* ================================================================== *)
(** * The area under the ROC curve and the rank statistic *)

Lemma ZS_cons {A} (F : A -> Z) a l : ZS F (a :: l) = (F a + ZS F l)%Z.
Proof. reflexivity. Qed.

Lemma ZS_ext {A} (F G : A -> Z) l :
  (forall x, In x l -> F x = G x) -> ZS F l = ZS G l.
Proof.
  induction l as [|a l IH]; intros Hx; auto.
  rewrite !ZS_cons. rewrite (Hx a) by now left.
  rewrite IH; auto. intros; apply Hx; now right.
Qed.

Lemma ZS_add {A} (F G : A -> Z) l :
  ZS (fun x => F x + G x)%Z l = (ZS F l + ZS G l)%Z.
Proof.
  induction l as [|a l IH]; auto. rewrite !ZS_cons, IH. lia.
Qed.

Lemma ZS_zero {A} (l : list A) : ZS (fun _ => 0%Z) l = 0%Z.
Proof. induction l as [|a l IH]; auto. Qed.

Lemma ZS_scale {A} c (F : A -> Z) l : ZS (fun x => c * F x)%Z l = (c * ZS F l)%Z.
Proof.
  induction l as [|a l IH]; [unfold ZS; simpl; lia|].
  rewrite !ZS_cons, IH. lia.
Qed.

Lemma ZS_bounds {A} (F : A -> Z) lo hi l :
  (forall x, In x l -> lo <= F x <= hi)%Z ->
  (lo * Z.of_nat (length l) <= ZS F l <= hi * Z.of_nat (length l))%Z.
Proof.
  induction l as [|a l IH]; intros Hx.
  - unfold ZS; simpl. lia.
  - rewrite ZS_cons. cbn [length]. rewrite Nat2Z.inj_succ.
    assert (lo <= F a <= hi)%Z by (apply Hx; now left).
    assert (lo * Z.of_nat (length l) <= ZS F l <= hi * Z.of_nat (length l))%Z
      by (apply IH; intros; apply Hx; now right).
    lia.
Qed.

Lemma countb_ZS {A} (f : A -> bool) l :
  Z.of_nat (countb f l) = ZS (fun x => ind (f x)) l.
Proof.
  induction l as [|a l IH]; auto.
  rewrite countb_cons, ZS_cons, <- IH. unfold ind. destruct (f a); lia.
Qed.

Lemma Zsum_filter_snd (f : scored -> bool) (g : Q -> Z) ys :
  Zsum (map g (map snd (filter f ys))) =
  ZS (fun q => if f q then g (snd q) else 0%Z) ys.
Proof.
  induction ys as [|a ys IH]; auto.
  rewrite ZS_cons, <- IH. simpl. destruct (f a); reflexivity.
Qed.

Lemma descending_snoc l a :
  descending l -> (forall x, In x l -> kcmp a x = Lt) -> descending (l ++ [a]).
Proof.
  induction l as [|b l IH]; simpl; intros Hd Ha.
  - split; [intros x []|exact I].
  - destruct Hd as [Hb Hd]. split.
    + intros x Hx. apply in_app_iff in Hx. destruct Hx as [Hx|[<-|[]]]; auto.
    + apply IH; auto.
Qed.

Lemma increasing_rev (l : list Q) : increasing l -> descending (rev l).
Proof.
  induction l as [|a l IH]; intros Hi; [exact I|].
  simpl. apply descending_snoc.
  - apply IH. eapply increasing_tail; eauto.
  - intros x Hx. apply in_rev in Hx. now apply (increasing_below _ _ Hi).
Qed.

Lemma pair_score_proper p n n' : n == n' -> pair_score p n = pair_score p n'.
Proof.
  intros E. unfold pair_score.
  now rewrite (Qcompare_comp p p (Qeq_refl p) n n' E).
Qed.

(** How a score [s] of the frame sits between a threshold [t] and the
    bound [b] above it, when no score lies strictly between the two. *)
Lemma between_cases (s t : Q) (b : ext) :
  kcmp (Fin t) b = Lt ->
  (kcmp (Fin s) b = Lt -> kcmp s t <> Gt) ->
  (ind (kltb (Fin s) b) - ind (kltb s t) = ind (keqb s t))%Z /\
  (ind (kleb t s) - ind (kleb b (Fin s)) = ind (keqb s t))%Z /\
  (pair_score s t = ind (kleb t s) + ind (kleb b (Fin s)))%Z.
Proof.
  intros Htb Hcov.
  unfold kltb, kleb, keqb, pair_score.
  rewrite (kcmp_antisym s t), (kcmp_antisym (Fin s) b).
  change (Qcompare s t) with (kcmp s t).
  destruct (kcmp s t) eqn:Est.
  - (* s = t, so s < b *)
    assert (E : kcmp (Fin s) b = Lt).
    { rewrite <- Htb. apply (kcmp_eq_compat (Fin s) (Fin t) b). exact Est. }
    rewrite E. simpl. lia.
  - (* s < t < b *)
    assert (E : kcmp (Fin s) b = Lt).
    { apply kcmp_lt_trans with (Fin t); auto. }
    rewrite E. simpl. lia.
  - (* s > t, so s is not below b *)
    destruct (kcmp (Fin s) b) eqn:E; simpl; try lia.
    exfalso. now apply Hcov.
Qed.

(** The trapezoids over a run of decreasing thresholds below [b] add up
    to the rank scores of the negatives scored below [b]. *)
Lemma trapz_descending ys ts b :
  descending ts ->
  (forall t, In t ts -> kcmp (Fin t) b = Lt) ->
  (forall q, In q ys -> kcmp (Fin (snd q)) b = Lt ->
             exists t, In t ts /\ kcmp (snd q) t = Eq) ->
  trapz2 ((count_from false ys b, count_from true ys b)
            :: map (fun t => (fps ys t, tps ys t)) ts)
  = ZS (fun q => if negb (fst q) && kltb (Fin (snd q)) b
                 then against_positives ys (snd q) else 0%Z) ys.
Proof.
  revert b. induction ts as [|t ts IH]; intros b Hd Hb Hcov.
  - simpl. symmetry.
    transitivity (ZS (fun _ : scored => 0%Z) ys); [|apply ZS_zero].
    apply ZS_ext. intros q Hq. unfold kltb.
    destruct (kcmp (Fin (snd q)) b) eqn:E; rewrite ?andb_false_r; auto.
    destruct (Hcov q Hq E) as (t & [] & _).
  - destruct Hd as [Hlt Hd].
    assert (Htb : kcmp (Fin t) b = Lt) by (apply Hb; now left).
    (* no score of the frame lies strictly between t and b *)
    assert (Hgap : forall q, In q ys -> kcmp (Fin (snd q)) b = Lt ->
                             kcmp (snd q) t <> Gt).
    { intros q Hq E. destruct (Hcov q Hq E) as (t' & [<-|Ht'] & Et').
      - rewrite Et'. discriminate.
      - rewrite (kcmp_eq_compat _ _ t Et'), (Hlt t' Ht'). discriminate. }
    change (trapz2 ((count_from false ys b, count_from true ys b)
                      :: map (fun t0 => (fps ys t0, tps ys t0)) (t :: ts)))
      with ((fps ys t - count_from false ys b) * (tps ys t + count_from true ys b)
            + trapz2 ((count_from false ys (Fin t), count_from true ys (Fin t))
                        :: map (fun t0 => (fps ys t0, tps ys t0)) ts))%Z.
    rewrite (IH (Fin t)); auto.
    + (* the first trapezoid is the rank score of the negatives tied at t *)
      assert (Hsame : forall q, In q ys ->
                keqb (snd q) t = true ->
                against_positives ys (snd q) = against_positives ys t).
      { intros q _ E. unfold keqb in E.
        destruct (kcmp (snd q) t) eqn:E'; try discriminate.
        apply Qeq_alt in E'. unfold against_positives.
        f_equal. apply map_ext. intros p. now apply pair_score_proper. }
      assert (Hy : (tps ys t + count_from true ys b = against_positives ys t)%Z).
      { unfold tps, count_at_least, count_from, against_positives, positives.
        rewrite !countb_ZS, Zsum_filter_snd, <- ZS_add.
        apply ZS_ext. intros q Hq.
        destruct (between_cases (snd q) t b Htb (Hgap q Hq)) as (_ & _ & H3).
        destruct (fst q); simpl; auto. }
      assert (Hx : (fps ys t - count_from false ys b
                    = ZS (fun q => ind (negb (fst q) && keqb (snd q) t)) ys)%Z).
      { unfold fps, count_at_least, count_from.
        rewrite !countb_ZS.
        assert (forall a c d : Z, a = c + d -> a - d = c)%Z as Hsub by (intros; lia).
        apply Hsub. rewrite <- ZS_add.
        apply ZS_ext. intros q Hq.
        destruct (between_cases (snd q) t b Htb (Hgap q Hq)) as (_ & H2 & _).
        change (kleb (Fin t) (Fin (snd q))) with (kleb t (snd q)).
        destruct (fst q); simpl; lia. }
      rewrite Hx, Hy, Z.mul_comm, <- ZS_scale, <- ZS_add.
      apply ZS_ext. intros q Hq.
      destruct (between_cases (snd q) t b Htb (Hgap q Hq)) as (H1 & _ & _).
      change (kltb (Fin (snd q)) (Fin t)) with (kltb (snd q) t).
      destruct (fst q); simpl; [lia|].
      destruct (keqb (snd q) t) eqn:Eq.
      * rewrite (Hsame q Hq Eq).
        destruct (kltb (Fin (snd q)) b), (kltb (snd q) t);
          unfold ind in *; simpl in *; lia.
      * destruct (kltb (Fin (snd q)) b), (kltb (snd q) t);
          unfold ind in *; simpl in *; lia.
    + intros q Hq E.
      assert (Eb : kcmp (Fin (snd q)) b = Lt).
      { apply kcmp_lt_trans with (Fin t); auto. }
      destruct (Hcov q Hq Eb) as (t' & [<-|Ht'] & Et'); [|now exists t'].
      change (kcmp (Fin (snd q)) (Fin t)) with (kcmp (snd q) t) in E.
      congruence.
Qed.

Lemma count_from_posinf lbl ys : count_from lbl ys PosInf = 0%Z.
Proof.
  unfold count_from. rewrite countb_ZS.
  transitivity (ZS (fun _ : scored => 0%Z) ys); [|apply ZS_zero].
  apply ZS_ext. intros q _. now rewrite andb_false_r.
Qed.

(** The trapezoidal area under the ROC curve is the rank statistic: every
    positive scored above a negative counts 1, every tie one half. *)
Lemma trapz_rank ys : trapz2 (roc_points ys) = rank_auc2 ys.
Proof.
  unfold roc_points.
  rewrite <- (count_from_posinf false ys) at 1.
  rewrite <- (count_from_posinf true ys) at 1.
  rewrite trapz_descending.
  - unfold rank_auc2, negatives. rewrite Zsum_filter_snd.
    apply ZS_ext. intros q _. now rewrite andb_true_r.
  - apply increasing_rev, unique_increasing.
  - reflexivity.
  - intros q Hq _.
    destruct (unique_cover (snd q) (map snd ys)) as (t & Ht & Et);
      [now apply in_map|].
    exists t. split; auto. unfold thresholds. now apply -> in_rev.
Qed.

Lemma n_pos_length ys : n_pos ys = Z.of_nat (length (positives ys)).
Proof. unfold n_pos, positives, countb. now rewrite length_map. Qed.

Lemma n_neg_length ys : n_neg ys = Z.of_nat (length (negatives ys)).
Proof. unfold n_neg, negatives, countb. now rewrite length_map. Qed.

Lemma pair_score_range p n : (0 <= pair_score p n <= 2)%Z.
Proof. unfold pair_score. destruct (p ?= n); lia. Qed.

Lemma rank_auc2_range ys : (0 <= rank_auc2 ys <= 2 * n_pos ys * n_neg ys)%Z.
Proof.
  unfold rank_auc2. rewrite n_pos_length, n_neg_length.
  pose proof (ZS_bounds (against_positives ys) 0 (2 * Z.of_nat (length (positives ys)))
                        (negatives ys)) as Hb.
  unfold ZS in Hb. fold (against_positives ys). rewrite Z.mul_0_l in Hb.
  apply Hb. intros n _. unfold against_positives.
  pose proof (ZS_bounds (fun p => pair_score p n) 0 2 (positives ys)) as Hp.
  unfold ZS in Hp. rewrite Z.mul_0_l in Hp.
  apply Hp. intros p _. apply pair_score_range.
Qed.

(** In a separable frame every pair is ranked the right way. *)
Lemma rank_auc2_separable ys :
  (forall p n, In p (positives ys) -> In n (negatives ys) -> n < p) ->
  rank_auc2 ys = (2 * n_pos ys * n_neg ys)%Z.
Proof.
  intros Hsep. unfold rank_auc2. rewrite n_pos_length, n_neg_length.
  pose proof (ZS_bounds (against_positives ys)
                        (2 * Z.of_nat (length (positives ys)))
                        (2 * Z.of_nat (length (positives ys)))
                        (negatives ys)) as Hb.
  unfold ZS in Hb. fold (against_positives ys).
  cut (forall x, In x (negatives ys) ->
         (2 * Z.of_nat (length (positives ys)) <= against_positives ys x
          <= 2 * Z.of_nat (length (positives ys)))%Z).
  { intros Hc. specialize (Hb Hc). lia. }
  intros n Hn. unfold against_positives.
  pose proof (ZS_bounds (fun p => pair_score p n) 2 2 (positives ys)) as Hp.
  unfold ZS in Hp. apply Hp. intros p Hp'.
  pose proof (Hsep p n Hp' Hn) as Hgt. apply Qgt_alt in Hgt.
  unfold pair_score. rewrite Hgt. lia.
Qed.

Lemma auc_of_rank ys :
  auc_of ys = inject_Z (rank_auc2 ys) / inject_Z (2 * n_pos ys * n_neg ys).
Proof. unfold auc_of. now rewrite trapz_rank. Qed.

Lemma auc_of_range ys :
  (0 < n_pos ys)%Z -> (0 < n_neg ys)%Z -> 0 <= auc_of ys <= 1.
Proof.
  intros Hp Hn. rewrite auc_of_rank.
  pose proof (rank_auc2_range ys) as [Hlo Hhi].
  assert (Hd : (0 < 2 * n_pos ys * n_neg ys)%Z) by nia.
  assert (HD : 0 < inject_Z (2 * n_pos ys * n_neg ys)).
  { change 0 with (inject_Z 0). now rewrite <- Zlt_Qlt. }
  split.
  - apply Qle_shift_div_l; auto. rewrite Qmult_0_l.
    change 0 with (inject_Z 0). now rewrite <- Zle_Qle.
  - apply Qle_shift_div_r; auto. rewrite Qmult_1_l. now rewrite <- Zle_Qle.
Qed.

Lemma auc_of_separable ys :
  (0 < n_pos ys)%Z -> (0 < n_neg ys)%Z ->
  (forall p n, In p (positives ys) -> In n (negatives ys) -> n < p) ->
  auc_of ys == 1.
Proof.
  intros Hp Hn Hsep. rewrite auc_of_rank, rank_auc2_separable by auto.
  assert (Hd : (0 < 2 * n_pos ys * n_neg ys)%Z) by nia.
  unfold Qdiv. rewrite Qmult_inv_r; [reflexivity|].
  intros E. change 0 with (inject_Z 0) in E.
  apply (proj1 (inject_Z_injective _ _)) in E. lia.
Qed.

(** C6.  For a group that passes the guard of either loop the AUC call
    returns the rank statistic, where a positive scored above a negative
    counts 1 and a tie one half, over the number of pairs; the value and
    its rounding to 4 digits lie in [0, 1]; and when every positive is
    scored above every negative both are exactly 1. *)
Theorem auc_in_unit_interval (floor : nat) (group : list Loan) :
  skipped floor group = false ->
  exists a,
    roc_auc_score (map default_flag group) (map pred_default_prob group) = Ok a /\
    a = inject_Z (rank_auc2 (scored_of group))
        / inject_Z (2 * n_pos (scored_of group) * n_neg (scored_of group)) /\
    0 <= a <= 1 /\
    0 <= round_nd a 4 <= 1 /\
    ((forall p n, In p (positives (scored_of group)) ->
                  In n (negatives (scored_of group)) -> n < p) ->
     a == 1 /\ round_nd a 4 = 1).
Proof.
  intros Hs. exists (auc_of (scored_of group)).
  split; [now apply (roc_auc_score_guarded floor)|].
  split; [apply auc_of_rank|].
  apply skipped_false in Hs. destruct Hs as [Hn _].
  apply nunique_two in Hn. destruct Hn as [Ht Hf].
  apply n_pos_scored in Ht. apply n_neg_scored in Hf.
  pose proof (auc_of_range _ Ht Hf) as Hr.
  split; auto. split.
  - apply (round_nd_between _ 4 0 1). exact Hr.
  - intros Hsep. pose proof (auc_of_separable _ Ht Hf Hsep) as E.
    split; auto. now rewrite E.
Qed.

(* ================================================================== *)
(** * The distribution sampler *)


Lemma firstn_NoDup {A} n (l : list A) : NoDup l -> NoDup (firstn n l).
Proof.
  intros Hnd. rewrite <- (firstn_skipn n l) in Hnd.
  now apply NoDup_app_remove_r in Hnd.
Qed.

Lemma take_rows_length {A} idxs (rows : list A) :
  (forall i, In i idxs -> (i < length rows)%nat) ->
  length (take_rows idxs rows) = length idxs.
Proof.
  induction idxs as [|i idxs IH]; intros Hi; auto.
  unfold take_rows in *. simpl. rewrite length_app, IH.
  - destruct (nth_error rows i) eqn:E; auto.
    apply nth_error_None in E. specialize (Hi i (or_introl eq_refl)). lia.
  - intros j Hj. apply Hi. now right.
Qed.

Lemma take_rows_seq {A} (pre rows : list A) :
  take_rows (seq (length pre) (length rows)) (pre ++ rows) = rows.
Proof.
  revert pre. induction rows as [|a rows IH]; intros pre; auto.
  unfold take_rows in *. simpl.
  rewrite nth_error_app2, Nat.sub_diag by lia. simpl. f_equal.
  specialize (IH (pre ++ [a])).
  rewrite length_app, <- app_assoc in IH. simpl in IH.
  rewrite Nat.add_1_r in IH. exact IH.
Qed.

Lemma take_rows_all {A} (rows : list A) :
  take_rows (seq 0 (length rows)) rows = rows.
Proof. exact (take_rows_seq [] rows). Qed.

Lemma stratum_labels :
  kcmp MONITORING TRAINING = Lt /\ kcmp TRAINING MONITORING = Gt /\
  kcmp MONITORING MONITORING = Eq /\ kcmp TRAINING TRAINING = Eq.
Proof. vm_compute. auto. Qed.

(** The key index of a two-valued column. *)
Lemma unique_two_labels (l : list string) :
  (forall x, In x l -> x = MONITORING \/ x = TRAINING) ->
  unique l =
  (if existsb (fun x => keqb x MONITORING) l then [MONITORING] else [])
  ++ (if existsb (fun x => keqb x TRAINING) l then [TRAINING] else []).
Proof.
  destruct stratum_labels as (Hmt & Htm & Hmm & Htt).
  induction l as [|a l IH]; intros Hl; auto.
  simpl. rewrite IH by (intros; apply Hl; now right).
  unfold keqb.
  destruct (Hl a (or_introl eq_refl)) as [-> | ->];
    rewrite ?Hmm, ?Htt, ?Hmt, ?Htm; simpl;
    destruct (existsb _ l), (existsb _ l); simpl;
    rewrite ?Hmm, ?Htt, ?Hmt, ?Htm; reflexivity.
Qed.

Lemma existsb_filter_nil {A} (f : A -> bool) l :
  existsb f l = false <-> filter f l = [].
Proof.
  induction l as [|a l IH]; simpl; [tauto|].
  destruct (f a); simpl; [split; discriminate|exact IH].
Qed.

Lemma existsb_map' {A B} (f : B -> bool) (g : A -> B) l :
  existsb f (map g l) = existsb (fun x => f (g x)) l.
Proof. induction l; simpl; congruence. Qed.

(** The groups of the label column: the strata that are not empty,
    monitoring before training. *)
Lemma groupby_period_label df :
  groupby period_label (map dist_row df) =
  (match stratum MONITORING df with
   | [] => []
   | g => [(MONITORING, g)]
   end)
  ++ (match stratum TRAINING df with
      | [] => []
      | g => [(TRAINING, g)]
      end).
Proof.
  unfold groupby. rewrite unique_two_labels.
  - rewrite map_app, !(existsb_map' _ period_label). cbv beta. unfold stratum.
    set (rows := map dist_row df).
    f_equal.
    + destruct (filter (fun r => keqb (period_label r) MONITORING) rows) eqn:Es.
      * apply existsb_filter_nil in Es. now rewrite Es.
      * destruct (existsb _ rows) eqn:E.
        -- simpl. now rewrite Es.
        -- apply existsb_filter_nil in E. congruence.
    + destruct (filter (fun r => keqb (period_label r) TRAINING) rows) eqn:Es.
      * apply existsb_filter_nil in Es. now rewrite Es.
      * destruct (existsb _ rows) eqn:E.
        -- simpl. now rewrite Es.
        -- apply existsb_filter_nil in E. congruence.
  - intros x Hx. apply in_map_iff in Hx. destruct Hx as (r & <- & Hr).
    apply in_map_iff in Hr. destruct Hr as (r0 & <- & _).
    cbn [dist_row period_label].
    destruct (isin (year r0) TRAIN_YEARS); auto.
Qed.

Section SamplerSpec.

Variable permutation : Z -> nat -> list nat.
Hypothesis permutation_ok :
  forall seed n, Permutation (permutation seed n) (seq 0 n).

Lemma sample_capped {A} (group : list A) :
  sample permutation (Nat.min (length group) 5000) 42 group = Ok (drawn permutation group).
Proof.
  unfold sample.
  destruct (Nat.ltb_spec (length group) (Nat.min (length group) 5000)); [lia|].
  reflexivity.
Qed.

Lemma drawn_sampled {A} (group : list A) : sampled_from 5000 (drawn permutation group) group.
Proof.
  pose proof (permutation_ok 42 (length group)) as Hp.
  assert (Hlen : length (permutation 42 (length group)) = length group).
  { rewrite (Permutation_length Hp). apply length_seq. }
  assert (Hlt : forall i, In i (firstn (Nat.min (length group) 5000)
                                       (permutation 42 (length group))) ->
                          (i < length group)%nat).
  { intros i Hi. apply firstn_In in Hi.
    apply (Permutation_in _ Hp), in_seq in Hi. lia. }
  unfold sampled_from, drawn. split; [|split].
  - rewrite take_rows_length by exact Hlt.
    rewrite length_firstn, Hlen. lia.
  - eexists. split; [|split; [exact Hlt|reflexivity]].
    apply firstn_NoDup.
    apply (Permutation_NoDup (Permutation_sym Hp)), seq_NoDup.
  - intros Hcap. rewrite Nat.min_l by exact Hcap.
    rewrite firstn_all2 by lia.
    unfold take_rows. rewrite Hp.
    fold (take_rows (seq 0 (length group)) group).
    now rewrite take_rows_all.
Qed.

Lemma strata_empty df :
  stratum MONITORING df = [] -> stratum TRAINING df = [] -> df = [].
Proof.
  destruct df as [|r df]; auto. unfold stratum.
  cbn [map filter dist_row period_label].
  destruct stratum_labels as (Hmt & Htm & Hmm & Htt).
  unfold keqb. destruct (isin (year r) TRAIN_YEARS);
    rewrite ?Hmm, ?Htt, ?Hmt, ?Htm; intros H1 H2;
    (discriminate H1 || discriminate H2).
Qed.

(** The sampler returns the rows drawn of the monitoring stratum, then
    those drawn of the training stratum. *)
Lemma compute_feature_distributions_eq df :
  df <> [] ->
  compute_feature_distributions permutation df =
  Ok (drawn permutation (stratum MONITORING df) ++ drawn permutation (stratum TRAINING df)).
Proof.
  intros Hne. unfold compute_feature_distributions.
  rewrite groupby_period_label.
  pose proof (strata_empty df) as Hs.
  destruct (stratum MONITORING df) as [|m ms] eqn:Em;
    destruct (stratum TRAINING df) as [|t ts] eqn:Et.
  - now destruct Hne; apply Hs.
  - cbn [app for_each]. unfold sample_body; cbn [snd].
    rewrite sample_capped. cbn [bind]. now rewrite app_nil_r.
  - cbn [app for_each]. unfold sample_body; cbn [snd].
    rewrite sample_capped. cbn [bind].
    rewrite !app_nil_r. reflexivity.
  - cbn [app for_each]. unfold sample_body; cbn [snd].
    rewrite !sample_capped. cbn [bind].
    rewrite !app_nil_r. reflexivity.
Qed.

End SamplerSpec.

Lemma strata_partition df :
  (forall r, In r (map dist_row df) ->
     (isin (d_year r) TRAIN_YEARS = true /\ In r (stratum TRAINING df) /\
      ~ In r (stratum MONITORING df)) \/
     (isin (d_year r) TRAIN_YEARS = false /\ In r (stratum MONITORING df) /\
      ~ In r (stratum TRAINING df))) /\
  (length (stratum TRAINING df) + length (stratum MONITORING df) = length df)%nat.
Proof.
  destruct stratum_labels as (Hmt & Htm & Hmm & Htt).
  split.
  - intros r Hr. pose proof Hr as Hr'.
    apply in_map_iff in Hr'. destruct Hr' as (r0 & <- & _).
    unfold stratum. rewrite !filter_In. unfold keqb.
    cbn [dist_row period_label d_year] in *.
    destruct (isin (year r0) TRAIN_YEARS); [left|right];
      rewrite ?Hmm, ?Htt, ?Hmt, ?Htm; intuition discriminate.
  - unfold stratum. induction df as [|r df IH]; auto.
    cbn [map filter dist_row period_label]. unfold keqb in *.
    destruct (isin (year r) TRAIN_YEARS);
      rewrite ?Hmm, ?Htt, ?Hmt, ?Htm; cbv iota; cbn [length]; lia.
Qed.

(** C9.  Whatever permutation the seeded generator produces, the sampler
    splits the rows into the training stratum (year in 2012 to 2014) and
    the monitoring stratum (any other year), each row in exactly one, and
    returns for each stratum min(size, 5000) rows taken at distinct
    positions of the stratum: the whole stratum when it has 3,000 rows,
    exactly 5,000 rows when it has 8,000.  The generator enters only
    through the seed 42, so two runs on the same frame give the same
    sample. *)
Theorem sampler_stratified_capped
  (permutation : Z -> nat -> list nat)
  (permutation_ok : forall seed n, Permutation (permutation seed n) (seq 0 n))
  (df : list Loan) :
  df <> [] ->
  (forall r, In r (map dist_row df) ->
     (isin (d_year r) TRAIN_YEARS = true /\ In r (stratum TRAINING df) /\
      ~ In r (stratum MONITORING df)) \/
     (isin (d_year r) TRAIN_YEARS = false /\ In r (stratum MONITORING df) /\
      ~ In r (stratum TRAINING df))) /\
  (length (stratum TRAINING df) + length (stratum MONITORING df) = length df)%nat /\
  exists s_mon s_tr,
    compute_feature_distributions permutation df = Ok (s_mon ++ s_tr) /\
    sampled_from 5000 s_mon (stratum MONITORING df) /\
    sampled_from 5000 s_tr (stratum TRAINING df) /\
    (forall s g : list DistRow, sampled_from 5000 s g ->
       (length g = 3000%nat -> Permutation s g) /\
       (length g = 8000%nat -> length s = 5000%nat)) /\
    (forall permutation' : Z -> nat -> list nat,
       (forall n, permutation' 42%Z n = permutation 42%Z n) ->
       compute_feature_distributions permutation' df =
       compute_feature_distributions permutation df).
Proof.
  intros Hne. destruct (strata_partition df) as [Hpart Hlen].
  split; [exact Hpart|]. split; [exact Hlen|].
  exists (drawn permutation (stratum MONITORING df)),
         (drawn permutation (stratum TRAINING df)).
  split; [now apply compute_feature_distributions_eq|].
  split; [now apply drawn_sampled|]. split; [now apply drawn_sampled|].
  split.
  - intros s g (Hl & _ & Hp). split.
    + intros E. apply Hp. lia.
    + intros E. rewrite Hl, E. reflexivity.
  - intros permutation' Hsame.
    unfold compute_feature_distributions.
    f_equal. apply for_each_ext. intros g _.
    unfold sample_body, sample. now rewrite Hsame.
Qed.

(* ================================================================== *)
(** * Instances *)

(** The third smoothed value of the series 0.5, 0.5, 0.6 is 0.5333, which
    is not the mean 8/15 of the three raw values. *)
Lemma rolling3_third_value_not_the_mean :
  nth 2 (rolling3 [1 # 2; 1 # 2; 6 # 10]) 0 = 5333 # 10000 /\
  ~ nth 2 (rolling3 [1 # 2; 1 # 2; 6 # 10]) 0 == ((1 # 2) + (1 # 2) + (6 # 10)) / 3.
Proof.
  split; [vm_compute; reflexivity|].
  vm_compute. discriminate.
Qed.

Lemma rolling3_third_value :
  nth 2 (rolling3 [1 # 2; 1 # 2; 6 # 10]) 0
  = round_nd ((nth 0 [1 # 2; 1 # 2; 6 # 10] 0 + nth 1 [1 # 2; 1 # 2; 6 # 10] 0
               + nth 2 [1 # 2; 1 # 2; 6 # 10] 0) / 3) 4.
Proof.
  destruct rolling3_is_rounded_trailing_mean as (_ & H & _).
  destruct (H [1 # 2; 1 # 2; 6 # 10]) as (_ & _ & _ & _ & _ & Hd).
  destruct Hd as (_ & _ & H3).
  - intros x [<-|[<-|[<-|[]]]];
      [exists 5000%Z|exists 5000%Z|exists 6000%Z];
      (split; [lia|reflexivity]).
  - apply H3. simpl. lia.
Defined.

Lemma psi_frame_baselines f : In f DRIFT_FEATURES -> baseline f psi_frame <> [].
Proof. destruct f; intros _; vm_compute; discriminate. Qed.


Lemma psi_of_a_population_against_itself :
  exists v, compute_psi (map Some [1; 2; 3]) (map Some [3; 1; 2]) PSI_N_BINS = Ok v
            /\ v = 0%R.
Proof.
  destruct (compute_psi_nonneg_zero (map Some [1; 2; 3]) (map Some [3; 1; 2]))
    as (edges & v & _ & Hv & _ & _ & _ & Hperm).
  - vm_compute. discriminate.
  - vm_compute. discriminate.
  - exists v. split; auto. apply Hperm. simpl.
    exact (Permutation_cons_append [1; 2] 3).
Defined.

Lemma psi_of_a_clustered_baseline :
  exists v, compute_psi (map Some [1; 1; 1; 1; 5]) (map Some [0; 7]) PSI_N_BINS = Ok v.
Proof.
  destruct (compute_psi_never_degenerate (map Some [1; 1; 1; 1; 5]) (map Some [0; 7]))
    as (edges & v & H).
  - vm_compute. discriminate.
  - vm_compute. discriminate.
  - exists v. apply H.
Defined.

Lemma psi_frame_rows :
  exists rows,
    compute_psi_by_cohort psi_frame = Ok rows /\
    exists row, In row rows /\ psi_period row = (2016, 3)%Z /\ psi_feature row = Dti.
Proof.
  destruct (psi_row_iff_ten_observations psi_frame psi_frame_baselines)
    as (rows & Hrows & Hiff & _).
  exists rows. split; auto.
  apply (Hiff Dti (2016, 3)%Z march_2016).
  - vm_compute. auto.
  - apply groupby_spec. split; [|reflexivity].
    vm_compute. do 12 right. left. reflexivity.
  - vm_compute. lia.
Defined.

Lemma psi_frame_training_cohort :
  exists rows,
    compute_psi_by_cohort psi_frame = Ok rows /\
    exists row, In row rows /\ psi_period row = (2013, 1)%Z /\ psi_feature row = Dti.
Proof.
  destruct (psi_rows_cover_training_cohorts psi_frame psi_frame_baselines)
    as (rows & Hrows & Hall).
  exists rows. split; auto.
  destruct (Hall Dti (2013, 1)%Z january_2013) as ((row & Hin & Hp & Hf & _) & _).
  - vm_compute. auto.
  - apply groupby_spec. split; [|reflexivity].
    vm_compute. left. reflexivity.
  - vm_compute. lia.
  - exists row. auto.
Defined.

Lemma auc_of_january_2015 :
  exists a,
    roc_auc_score (map default_flag january_2015)
                  (map pred_default_prob january_2015) = Ok a /\
    a == 1 /\ round_nd a 4 = 1.
Proof.
  destruct (auc_in_unit_interval 30 january_2015)
    as (a & Ha & _ & _ & _ & Hsep).
  - vm_compute. reflexivity.
  - exists a. split; auto. apply Hsep.
    intros p n Hp Hn.
    change (positives (scored_of january_2015)) with (repeat 0.9 15) in Hp.
    change (negatives (scored_of january_2015)) with (repeat 0.1 15) in Hn.
    apply repeat_spec in Hp, Hn. subst. reflexivity.
Defined.

Lemma sampler_on_cohort_of_25 :
  exists s,
    compute_feature_distributions (fun _ n => seq 0 n) cohort_of_25 = Ok s /\
    length s = 25%nat.
Proof.
  destruct (sampler_stratified_capped (fun _ n => seq 0 n)
              (fun _ n => Permutation_refl (seq 0 n)) cohort_of_25)
    as (_ & _ & s_mon & s_tr & Hs & (Hm & _) & (Ht & _) & _).
  - vm_compute. discriminate.
  - exists (s_mon ++ s_tr). split; auto.
    rewrite length_app, Hm, Ht. vm_compute. reflexivity.
Defined.

(** The model at a few inputs. *)

Example cohort_q_of_february :
  cohort_q (mk_loan (2015, 2)%Z "A" true 0.5) = (2015, 1)%Z /\
  cohort_q (mk_loan (2015, 12)%Z "A" true 0.5) = (2015, 10)%Z.
Proof. split; reflexivity. Qed.

Example auc_with_a_tie :
  roc_auc_score [true; false; true; false] [0.9; 0.1; 0.5; 0.5] = Ok (7 # 8) /\
  roc_points (combine [true; false; true; false] [0.9; 0.1; 0.5; 0.5])
  = [(0, 0); (0, 1); (1, 2); (2, 2)]%Z.
Proof. split; vm_compute; reflexivity. Qed.

Example histogram_of_a_clustered_baseline :
  exists edges,
    psi_edges (map Some [1; 1; 1; 1; 5]) PSI_N_BINS = Ok edges /\
    length edges = 5%nat /\
    histogram edges [1; 1; 1; 1; 5] = [0; 4; 0; 1]%nat /\
    histogram edges [0; 1; 2; 5; 7; 1] = [1; 2; 1; 2]%nat.
Proof. eexists. split; [reflexivity|]. vm_compute. auto. Qed.

Example rounding_halves_to_even :
  round_nd (69005 # 100000) 4 = 69 # 100 /\
  round_nd (69015 # 100000) 4 = 3451 # 5000.
Proof. split; vm_compute; reflexivity. Qed.

(* ================================================================== *)
(** * Groups and their sizes *)

Lemma sum_nat_cons a l : sum_nat (a :: l) = (a + sum_nat l)%nat.
Proof. reflexivity. Qed.

Lemma sum_nat_app l l' : sum_nat (l ++ l') = (sum_nat l + sum_nat l')%nat.
Proof. induction l; simpl; lia. Qed.

Lemma countb_app {A} (f : A -> bool) l l' :
  countb f (l ++ l') = (countb f l + countb f l')%nat.
Proof. unfold countb. now rewrite filter_app, length_app. Qed.

Lemma countb_key_once {K} `{KeyLeibniz K} (x : K) (ks : list K) :
  NoDup ks -> In x ks -> countb (fun k => keqb x k) ks = 1%nat.
Proof.
  induction ks as [|k ks IH]; intros Hnd Hin; [destruct Hin|].
  inversion Hnd as [|? ? Hk Hnd']; subst. rewrite countb_cons.
  destruct (keqb x k) eqn:E.
  - apply keqb_eq in E. subst k.
    assert (countb (fun k => keqb x k) ks = 0%nat); [|lia].
    unfold countb. rewrite filter_none; auto.
    intros y Hy. apply not_true_iff_false. intros Ey.
    apply keqb_eq in Ey. now subst y.
  - destruct Hin as [->|Hin].
    + rewrite (proj2 (keqb_eq x x) eq_refl) in E. discriminate.
    + now rewrite IH.
Qed.

Lemma countb_ext {A} (f g : A -> bool) l :
  (forall x, f x = g x) -> countb f l = countb g l.
Proof. intros E. unfold countb. f_equal. now apply filter_ext. Qed.

Lemma countb_filter {A} (f g : A -> bool) l :
  countb f (filter g l) = countb (fun x => g x && f x) l.
Proof.
  induction l as [|a l IH]; auto.
  cbn [filter]. rewrite (countb_cons (fun x => g x && f x)).
  destruct (g a); cbn [andb]; [rewrite countb_cons|]; now rewrite IH.
Qed.

(** Counting the rows that satisfy [f] group by group, over the groups
    whose key satisfies [P], counts the rows of the frame that satisfy
    both. *)
Lemma groupby_counts {K R} `{KeyLeibniz K} (key : R -> K) (P : K -> bool)
      (f : R -> bool) df :
  sum_nat (map (fun g => countb f (snd g))
               (filter (fun g => P (fst g)) (groupby key df)))
  = countb (fun r => P (key r) && f r) df.
Proof.
  unfold groupby.
  assert (Hgen : forall ks,
    sum_nat (map (fun g : K * list R => countb f (snd g))
      (filter (fun g => P (fst g))
         (map (fun k => (k, filter (fun r => keqb (key r) k) df)) ks)))
    = sum_nat (map (fun k => countb (fun r => (P k && f r) && keqb (key r) k) df) ks)).
  { induction ks as [|k ks IH]; auto.
    cbn [map filter fst]. destruct (P k) eqn:Pk; cbn [map snd];
      rewrite ?sum_nat_cons, IH.
    - f_equal. rewrite countb_filter. apply countb_ext.
      intros r. now rewrite andb_comm.
    - rewrite (countb_ext (fun r => (false && f r) && keqb (key r) k)
                          (fun _ => false)) by reflexivity.
      unfold countb. rewrite filter_none; auto. }
  rewrite Hgen.
  rewrite (count_exchange (fun r k => (P k && f r) && keqb (key r) k) df
                          (unique (map key df))).
  assert (Hone : forall r0, In r0 df ->
            countb (fun k => (P k && f r0) && keqb (key r0) k) (unique (map key df))
            = if P (key r0) && f r0 then 1%nat else 0%nat).
  { intros r0 Hr0.
    destruct (P (key r0) && f r0) eqn:Pr.
    - rewrite <- (countb_key_once (key r0) (unique (map key df))).
      + unfold countb. f_equal. apply filter_ext_in. intros k _.
        destruct (keqb (key r0) k) eqn:E; [|apply andb_false_r].
        apply keqb_eq in E. subst k. now rewrite Pr.
      + apply unique_NoDup.
      + apply unique_iff. now apply in_map.
    - unfold countb. rewrite filter_none; auto.
      intros k _. destruct (keqb (key r0) k) eqn:E; [|apply andb_false_r].
      apply keqb_eq in E. subst k. now rewrite Pr. }
  transitivity (sum_nat (map (fun v => if P (key v) && f v then 1%nat else 0%nat) df)).
  - f_equal. apply map_ext_in. exact Hone.
  - clear. induction df as [|r df IH]; auto.
    rewrite countb_cons. cbn [map]. now rewrite sum_nat_cons, IH.
Qed.

Lemma countb_true {A} (l : list A) : countb (fun _ => true) l = length l.
Proof. unfold countb. now rewrite filter_all. Qed.

Lemma groupby_sizes {K R} `{KeyLeibniz K} (key : R -> K) (P : K -> bool) df :
  sum_nat (map (fun g => length (snd g))
               (filter (fun g => P (fst g)) (groupby key df)))
  = countb (fun r => P (key r)) df.
Proof.
  rewrite (countb_ext (fun r => P (key r)) (fun r => P (key r) && true))
    by (intros; now rewrite andb_true_r).
  rewrite <- (groupby_counts key P (fun _ => true)).
  f_equal. apply map_ext. intros g. now rewrite countb_true.
Qed.

Lemma groupby_total {K R} `{KeyLeibniz K} (key : R -> K) df :
  sum_nat (map (fun g => length (snd g)) (groupby key df)) = length df.
Proof.
  rewrite <- (filter_all (fun _ => true) (groupby key df)) by auto.
  rewrite (groupby_sizes key (fun _ => true)). apply countb_true.
Qed.

Lemma groupby_count_total {K R} `{KeyLeibniz K} (key : R -> K) (f : R -> bool) df :
  sum_nat (map (fun g => countb f (snd g)) (groupby key df)) = countb f df.
Proof.
  rewrite <- (filter_all (fun _ => true) (groupby key df)) by auto.
  rewrite (groupby_counts key (fun _ => true) f). now apply countb_ext.
Qed.

(* ================================================================== *)
(** * Means of flags *)

Lemma Qsum_flags (l : list bool) :
  Qsum (map (fun b => inject_Z (Z.b2z b)) l)
  == inject_Z (Z.of_nat (countb (fun b => b) l)).
Proof.
  induction l as [|b l IH]; [reflexivity|].
  rewrite countb_cons. cbn [map Qsum fold_right]. fold (Qsum (map (fun b => inject_Z (Z.b2z b)) l)).
  rewrite IH, Nat2Z.inj_add, inject_Z_plus.
  destruct b; reflexivity.
Qed.

Lemma flag_mean_count (l : list bool) :
  flag_mean l
  == inject_Z (Z.of_nat (countb (fun b => b) l)) / inject_Z (Z.of_nat (length l)).
Proof.
  unfold flag_mean, mean. now rewrite Qsum_flags, length_map.
Qed.

Lemma countb_le {A} (f : A -> bool) l : (countb f l <= length l)%nat.
Proof. unfold countb. apply filter_length_le. Qed.


Lemma flag_mean_range (l : list bool) : 0 <= flag_mean l <= 1.
Proof.
  rewrite flag_mean_count. apply ratio_range, countb_le.
Qed.

Lemma countb_map {A B} (f : B -> bool) (g : A -> B) l :
  countb f (map g l) = countb (fun x => f (g x)) l.
Proof.
  induction l as [|a l IH]; auto.
  cbn [map]. now rewrite !countb_cons, IH.
Qed.

(** The number of defaults of a group is its size times its mean flag. *)
Lemma flag_mean_times_size (l : list bool) :
  inject_Z (Z.of_nat (length l)) * flag_mean l
  == inject_Z (Z.of_nat (countb (fun b => b) l)).
Proof.
  rewrite flag_mean_count. destruct l as [|b l].
  - reflexivity.
  - field. intros E. change 0 with (inject_Z 0) in E.
    apply (proj1 (inject_Z_injective _ _)) in E. simpl in E. lia.
Qed.

(* ================================================================== *)
(** * [compute_missing_rates] *)

Lemma missing_rows_In df row :
  In row (compute_missing_rates df) <->
  exists g f, In g (groupby cohort df) /\ In f DQ_FEATURES /\ row = missing_row g f.
Proof.
  unfold compute_missing_rates. rewrite in_flat_map. split.
  - intros (g & Hg & Hrow). apply in_map_iff in Hrow.
    destruct Hrow as (f & <- & Hf). now exists g, f.
  - intros (g & f & Hg & Hf & ->). exists g. split; auto. now apply in_map.
Qed.

Lemma feature_in_DQ f : In f DQ_FEATURES.
Proof. destruct f; simpl; auto. Qed.

(** X1.  The completeness table has no guard: it holds exactly one row
    for every monthly cohort and every feature, four rows a cohort, also
    for a cohort of a single loan; a row carries the size of its cohort,
    at least 1, and a rate between 0 and 1. *)
Theorem missing_rates_every_cohort (df : list Loan) :
  length (compute_missing_rates df) = (4 * length (groupby cohort df))%nat /\
  (forall c g f, In (c, g) (groupby cohort df) ->
     exists row, In row (compute_missing_rates df) /\
                 m_period row = c /\ m_feature row = f /\
                 n_records row = length g) /\
  (forall row row', In row (compute_missing_rates df) ->
     In row' (compute_missing_rates df) ->
     m_period row = m_period row' -> m_feature row = m_feature row' ->
     row = row') /\
  (forall row, In row (compute_missing_rates df) ->
     (1 <= n_records row)%nat /\ 0 <= missing_rate row <= 1).
Proof.
  split; [|split; [|split]].
  - unfold compute_missing_rates.
    induction (groupby cohort df) as [|g G IH]; auto.
    cbn [flat_map]. rewrite length_app, IH, length_map. simpl. lia.
  - intros c g f Hg. exists (missing_row (c, g) f). split; auto.
    apply missing_rows_In. exists (c, g), f. split; auto.
    split; auto. apply feature_in_DQ.
  - intros row row' Hr Hr' Hp Hf.
    apply missing_rows_In in Hr, Hr'.
    destruct Hr as ([c g] & f & Hg & _ & ->).
    destruct Hr' as ([c' g'] & f' & Hg' & _ & ->).
    simpl in Hp, Hf. subst c' f'.
    now rewrite (groupby_functional _ _ _ _ _ Hg Hg').
  - intros row Hr. apply missing_rows_In in Hr.
    destruct Hr as ([c g] & f & Hg & _ & ->). simpl. split.
    + apply groupby_nonempty in Hg. destruct g; [congruence|simpl; lia].
    + apply (round_nd_between _ 6 0 1). apply flag_mean_range.
Qed.

Lemma isna_dropna (col : list (option Q)) :
  (length (dropna col) + countb isna col = length col)%nat.
Proof.
  induction col as [|[v|] col IH]; auto.
  - rewrite countb_cons. simpl. lia.
  - rewrite countb_cons. simpl. lia.
Qed.



Lemma missing_rows_of_feature f G :
  filter (fun row => feature_eqb (m_feature row) f)
         (flat_map (fun g => map (missing_row g) DQ_FEATURES) G)
  = map (fun g => missing_row g f) G.
Proof.
  induction G as [|g G IH]; auto.
  cbn [flat_map map]. rewrite filter_app, IH.
  destruct f; reflexivity.
Qed.

(** X3.  For each feature the record counts of the rows of the
    completeness table add up to the number of loans of the frame: every
    loan is counted in one cohort and no loan is left out. *)
Theorem missing_rates_count_every_loan (df : list Loan) (f : Feature) :
  sum_nat (map n_records
             (filter (fun row => feature_eqb (m_feature row) f)
                     (compute_missing_rates df)))
  = length df.
Proof.
  unfold compute_missing_rates. rewrite missing_rows_of_feature, map_map.
  cbn [missing_row n_records]. apply groupby_total.
Qed.

(* ================================================================== *)
(** * [compute_volume_by_cohort] and [compute_default_rate_by_grade] *)


Lemma Qsum_counts {A} (F : A -> Q) (G : A -> nat) l :
  (forall x, In x l -> F x == inject_Z (Z.of_nat (G x))) ->
  Qsum (map F l) == inject_Z (Z.of_nat (sum_nat (map G l))).
Proof.
  induction l as [|a l IH]; intros HF; [reflexivity|].
  cbn [map]. rewrite Qsum_cons, sum_nat_cons, Nat2Z.inj_add, inject_Z_plus.
  rewrite (HF a) by now left. rewrite IH; [reflexivity|].
  intros x Hx. apply HF. now right.
Qed.

Lemma group_defaults (g : list Loan) :
  inject_Z (Z.of_nat (length g)) * flag_mean (map default_flag g)
  == inject_Z (Z.of_nat (countb default_flag g)).
Proof.
  rewrite <- (length_map default_flag g), flag_mean_times_size, countb_map.
  reflexivity.
Qed.

Lemma groupby_map_rows {K A B} `{KeyOrder K}
  (key : A -> K) (key' : B -> K) (h : A -> B) df :
  (forall a, key' (h a) = key a) ->
  groupby key' (map h df) =
  map (fun g => (fst g, map h (snd g))) (groupby key df).
Proof.
  intros Hk. unfold groupby. rewrite !map_map.
  rewrite (map_ext (fun a => key' (h a)) key Hk).
  apply map_ext. intros k. cbn [fst snd]. f_equal.
  induction df as [|a df IH]; auto.
  cbn [map filter]. rewrite Hk, IH. now destruct (keqb (key a) k).
Qed.

Lemma keyed_total {K R} (key : R -> K) (df : list R) :
  keyed (fun r => Some (key r)) df = map (fun r => (key r, r)) df.
Proof.
  unfold keyed. induction df as [|r df IH]; [reflexivity|].
  cbn [flat_map map app]. now rewrite IH.
Qed.

(** Where no key is missing the groups are those of [groupby]. *)
Lemma groupby_dropna_total {K R} `{KeyOrder K} (key : R -> K) (df : list R) :
  groupby_dropna (fun r => Some (key r)) df = groupby key df.
Proof.
  unfold groupby_dropna. rewrite keyed_total.
  rewrite (groupby_map_rows key fst (fun r => (key r, r))) by reflexivity.
  rewrite map_map. cbn [fst snd].
  rewrite <- (map_id (groupby key df)) at 2.
  apply map_ext. intros [k g]. cbn [fst snd].
  now rewrite map_map, map_id.
Qed.

Lemma compute_volume_by_cohort_loans (df : list Loan) :
  compute_volume_by_cohort df = map volume_row (groupby cohort df).
Proof.
  unfold compute_volume_by_cohort. cbn [col_cohort Loan_columns].
  now rewrite groupby_dropna_total.
Qed.

Lemma keyed_length {K R} (key : R -> option K) (df : list R) :
  (length (keyed key df) + countb (fun r => negb (has_key (key r))) df
   = length df)%nat.
Proof.
  unfold keyed. induction df as [|r df IH]; [reflexivity|].
  cbn [flat_map]. rewrite length_app, countb_cons.
  destruct (key r); cbn [has_key negb length app]; lia.
Qed.

Lemma keyed_count {K R} (key : R -> option K) (f : R -> bool) (df : list R) :
  countb (fun p => f (snd p)) (keyed key df)
  = countb (fun r => has_key (key r) && f r) df.
Proof.
  unfold keyed. induction df as [|r df IH]; [reflexivity|].
  cbn [flat_map]. rewrite countb_app, countb_cons, IH.
  destruct (key r); cbn [has_key andb]; auto.
  rewrite countb_cons. cbn [snd]. unfold countb at 1. cbn [filter length]. lia.
Qed.

Lemma countb_none {A} (f : A -> bool) l :
  (forall x, In x l -> f x = false) -> countb f l = 0%nat.
Proof. intros Hf. unfold countb. now rewrite filter_none. Qed.

Lemma groupby_dropna_In {K R} `{KeyLeibniz K} (key : R -> option K) df k g :
  In (k, g) (groupby_dropna key df) ->
  g <> [] /\ forall r, In r g -> In r df /\ key r = Some k.
Proof.
  unfold groupby_dropna. intros Hg. apply in_map_iff in Hg.
  destruct Hg as ([k' ps] & [= -> <-] & Hps). split.
  - apply groupby_nonempty in Hps. destruct ps; [congruence|discriminate].
  - intros r Hr. apply in_map_iff in Hr. destruct Hr as ([k0 r0] & <- & Hp).
    apply groupby_spec in Hps. destruct Hps as [_ ->].
    apply filter_In in Hp. destruct Hp as [Hp Hk].
    apply keqb_eq in Hk. cbn [fst snd] in *. subst k0.
    unfold keyed in Hp. apply in_flat_map in Hp.
    destruct Hp as (r1 & Hr1 & Hp).
    destruct (key r1) as [k1|] eqn:E; [|destruct Hp].
    destruct Hp as [[= <- <-]|[]]. auto.
Qed.

Section GroupTotals.
Context {K R : Type} `{KeyLeibniz K}.
Variable key : R -> option K.
Variable flag : R -> bool.

(** The sizes of the groups add up to the rows that have a key, and the
    mean flags of the groups, weighted by the sizes, to the flags of those
    rows. *)
Lemma groupby_dropna_sizes (df : list R) :
  (sum_nat (map (fun g => length (snd g)) (groupby_dropna key df))
   + countb (fun r => negb (has_key (key r))) df = length df)%nat.
Proof.
  unfold groupby_dropna. rewrite map_map. cbn [snd].
  rewrite (map_ext _ (fun g : K * list (K * R) => length (snd g)))
    by (intros; apply length_map).
  rewrite groupby_total. apply keyed_length.
Qed.

Lemma groupby_dropna_flags (df : list R) :
  Qsum (map (fun g => inject_Z (Z.of_nat (length (snd g)))
                      * flag_mean (map flag (snd g)))
            (groupby_dropna key df))
  == inject_Z (Z.of_nat (countb (fun r => has_key (key r) && flag r) df)).
Proof.
  rewrite (Qsum_counts _ (fun g => countb flag (snd g))).
  - unfold groupby_dropna. rewrite map_map. cbn [snd].
    rewrite (map_ext _ (fun g : K * list (K * R) =>
                          countb (fun p => flag (snd p)) (snd g)))
      by (intros; apply countb_map).
    now rewrite groupby_count_total, keyed_count.
  - intros g _.
    rewrite <- (length_map flag (snd g)), flag_mean_times_size, countb_map.
    reflexivity.
Qed.

Lemma groupby_dropna_keys (df : list R) :
  map fst (groupby_dropna key df) = unique (map fst (keyed key df)).
Proof.
  unfold groupby_dropna. rewrite map_map. cbn [fst]. apply groupby_keys.
Qed.

End GroupTotals.

Lemma all_keys_none_missing {K R} (key : R -> option K) (df : list R) :
  (forall r, In r df -> has_key (key r) = true) ->
  countb (fun r => negb (has_key (key r))) df = 0%nat /\
  forall f, countb (fun r => has_key (key r) && f r) df = countb f df.
Proof.
  intros Hk. split.
  - apply countb_none. intros r Hr. now rewrite (Hk r Hr).
  - intros f. unfold countb. f_equal. apply filter_ext_in.
    intros r Hr. now rewrite (Hk r Hr).
Qed.

(** X4.  The volume table has one row for every month that occurs, in
    increasing order of period.  A loan whose issue date is blank is in
    no row: the loan counts add up to the loans that have an issue date,
    missing amounts included, and the default rates, weighted by the
    counts, to the defaults among those loans.  Only for a frame in which
    every loan has its issue date are these the size and the number of
    defaults of the frame. *)
Theorem volume_table_totals (R : Type) (C : Columns R) (df : list R) :
  map v_period (compute_volume_by_cohort df)
  = unique (map fst (keyed col_cohort df)) /\
  increasing (map v_period (compute_volume_by_cohort df)) /\
  (sum_nat (map v_n_loans (compute_volume_by_cohort df))
   + countb (fun r => negb (has_key (col_cohort r))) df = length df)%nat /\
  Qsum (map (fun row => inject_Z (Z.of_nat (v_n_loans row)) * v_default_rate row)
            (compute_volume_by_cohort df))
  == inject_Z (Z.of_nat (countb (fun r => has_key (col_cohort r)
                                          && col_default_flag r) df)) /\
  ((forall r, In r df -> has_key (col_cohort r) = true) ->
   sum_nat (map v_n_loans (compute_volume_by_cohort df)) = length df /\
   Qsum (map (fun row => inject_Z (Z.of_nat (v_n_loans row)) * v_default_rate row)
             (compute_volume_by_cohort df))
   == inject_Z (Z.of_nat (countb col_default_flag df))) /\
  (forall row, In row (compute_volume_by_cohort df) ->
     (1 <= v_n_loans row)%nat /\ 0 <= v_default_rate row <= 1) /\
  map (fun row => (v_period row, v_n_loans row, v_default_rate row))
      (compute_volume_by_cohort blank_issue_date)
  = [ ((2016, 3)%Z, 2%nat, 1 # 2) ].
Proof.
  assert (Hp : map v_period (compute_volume_by_cohort df)
               = unique (map fst (keyed col_cohort df))).
  { unfold compute_volume_by_cohort. rewrite map_map. cbn [volume_row v_period].
    apply groupby_dropna_keys. }
  assert (Hn : (sum_nat (map v_n_loans (compute_volume_by_cohort df))
                + countb (fun r => negb (has_key (col_cohort r))) df
                = length df)%nat).
  { unfold compute_volume_by_cohort. rewrite map_map. cbn [volume_row v_n_loans].
    apply groupby_dropna_sizes. }
  assert (Hd : Qsum (map (fun row => inject_Z (Z.of_nat (v_n_loans row))
                                     * v_default_rate row)
                         (compute_volume_by_cohort df))
               == inject_Z (Z.of_nat (countb (fun r => has_key (col_cohort r)
                                                       && col_default_flag r) df))).
  { unfold compute_volume_by_cohort. rewrite map_map.
    cbn [volume_row v_n_loans v_default_rate].
    apply groupby_dropna_flags. }
  split; [exact Hp|]. split; [rewrite Hp; apply unique_increasing|].
  split; [exact Hn|]. split; [exact Hd|]. split; [|split].
  - intros Hk. destruct (all_keys_none_missing col_cohort df Hk) as [H0 Hf].
    split; [lia|]. now rewrite Hd, Hf.
  - intros row Hrow. unfold compute_volume_by_cohort in Hrow.
    apply in_map_iff in Hrow. destruct Hrow as ([c g] & <- & Hg).
    cbn [volume_row v_n_loans v_default_rate snd].
    split; [|apply flag_mean_range].
    apply groupby_dropna_In in Hg. destruct Hg as [Hg _].
    destruct g; [congruence|simpl; lia].
  - vm_compute. reflexivity.
Qed.




(** X5.  The average amount of a cohort leaves the missing amounts out,
    though the loan count does not: it is missing exactly when every
    amount of the cohort is missing, and otherwise lies between any two
    bounds of the amounts that are present. *)
Theorem volume_average_skips_missing (df : list Loan) row :
  In row (compute_volume_by_cohort df) ->
  exists g,
    In (v_period row, g) (groupby cohort df) /\
    v_n_loans row = length g /\
    (v_avg_loan_amnt row = None <-> forall r, In r g -> loan_amnt r = None) /\
    (forall a lo hi,
        v_avg_loan_amnt row = Some a ->
        (forall r v, In r g -> loan_amnt r = Some v -> lo <= v <= hi) ->
        lo <= a <= hi).
Proof.
  rewrite compute_volume_by_cohort_loans. intros Hrow. apply in_map_iff in Hrow.
  destruct Hrow as ([c g] & <- & Hg). exists g.
  cbn [volume_row v_period v_n_loans v_avg_loan_amnt fst snd
       col_loan_amnt Loan_columns].
  split; auto. split; auto. unfold nan_mean. split.
  - destruct (dropna (map loan_amnt g)) as [|v vs] eqn:E.
    + split; auto. intros _ r Hr.
      destruct (loan_amnt r) as [v|] eqn:Ev; auto.
      assert (Hin : In v (dropna (map loan_amnt g))).
      { apply dropna_In. rewrite <- Ev. now apply in_map. }
      rewrite E in Hin. destruct Hin.
    + split; [discriminate|]. intros Hall. exfalso.
      assert (Hin : In v (dropna (map loan_amnt g))) by (rewrite E; now left).
      apply dropna_In, in_map_iff in Hin. destruct Hin as (r & Hv & Hr).
      rewrite (Hall r Hr) in Hv. discriminate.
  - intros a lo hi Ha Hb.
    destruct (dropna (map loan_amnt g)) as [|v vs] eqn:E; [discriminate|].
    injection Ha as <-. apply mean_bounds; [discriminate|].
    intros x Hx. rewrite <- E in Hx.
    apply dropna_In, in_map_iff in Hx. destruct Hx as (r & Hv & Hr).
    eapply Hb; eauto.
Qed.

Lemma half_missing_volume :
  exists g,
    In ((2016, 3)%Z, g) (groupby cohort half_missing) /\ length g = 2%nat.
Proof.
  destruct (volume_average_skips_missing half_missing
              (volume_row ((2016, 3)%Z, half_missing)))
    as (g & Hg & Hn & _).
  - vm_compute. left. reflexivity.
  - exists g. split; [exact Hg|]. rewrite <- Hn. reflexivity.
Defined.

Section SortedAlready.
Context {K R : Type} `{KeyOrder K}.
Variable key : R -> K.

(** Sorting rows whose keys already increase changes nothing. *)
Lemma sort_values_increasing (l : list R) :
  increasing (map key l) -> sort_values key l = l.
Proof.
  induction l as [|a l IH]; intros Hi; auto.
  cbn [sort_values fold_right]. fold (sort_values key l).
  rewrite IH by (eapply increasing_tail; exact Hi).
  destruct l as [|b l]; auto.
  destruct Hi as [Hab _]. cbn [insert_row]. unfold kleb. now rewrite Hab.
Qed.

End SortedAlready.

(** X6.  The table of default rates by grade has one row for every
    grade that occurs, in increasing order of grade (the final sort leaves
    the grouped rows as they are).  A loan whose grade is blank is in no
    row: the loan counts add up to the loans that have a grade and the
    rates, weighted by the counts, to the defaults among them, so that
    three loans with two defaults, one of them without a grade, are
    reported as 2 loans and 1 default.  Only for a frame in which every
    loan has its grade (and its issue date) are the totals those of the
    frame (and of the volume table). *)
Theorem grade_table_totals (R : Type) (C : Columns R) (df : list R) :
  compute_default_rate_by_grade df
  = map grade_rate_row (groupby_dropna col_grade df) /\
  map gr_grade (compute_default_rate_by_grade df)
  = unique (map fst (keyed col_grade df)) /\
  increasing (map gr_grade (compute_default_rate_by_grade df)) /\
  (sum_nat (map gr_n_loans (compute_default_rate_by_grade df))
   + countb (fun r => negb (has_key (col_grade r))) df = length df)%nat /\
  Qsum (map (fun row => inject_Z (Z.of_nat (gr_n_loans row)) * gr_default_rate row)
            (compute_default_rate_by_grade df))
  == inject_Z (Z.of_nat (countb (fun r => has_key (col_grade r)
                                          && col_default_flag r) df)) /\
  ((forall r, In r df -> has_key (col_grade r) = true) ->
   sum_nat (map gr_n_loans (compute_default_rate_by_grade df)) = length df /\
   Qsum (map (fun row => inject_Z (Z.of_nat (gr_n_loans row)) * gr_default_rate row)
             (compute_default_rate_by_grade df))
   == inject_Z (Z.of_nat (countb col_default_flag df)) /\
   ((forall r, In r df -> has_key (col_cohort r) = true) ->
    sum_nat (map gr_n_loans (compute_default_rate_by_grade df))
    = sum_nat (map v_n_loans (compute_volume_by_cohort df)))) /\
  length blank_grade = 3%nat /\
  countb raw_default_flag blank_grade = 2%nat /\
  compute_default_rate_by_grade blank_grade =
    [ {| gr_grade := "A"; gr_n_loans := 2; gr_default_rate := 1 # 2 |} ].
Proof.
  assert (Hk : map gr_grade (map grade_rate_row (groupby_dropna col_grade df))
               = unique (map fst (keyed col_grade df))).
  { rewrite map_map. cbn [grade_rate_row gr_grade]. apply groupby_dropna_keys. }
  assert (Hs : compute_default_rate_by_grade df
               = map grade_rate_row (groupby_dropna col_grade df)).
  { unfold compute_default_rate_by_grade. apply sort_values_increasing.
    rewrite Hk. apply unique_increasing. }
  assert (Hn : (sum_nat (map gr_n_loans (compute_default_rate_by_grade df))
                + countb (fun r => negb (has_key (col_grade r))) df
                = length df)%nat).
  { rewrite Hs, map_map. cbn [grade_rate_row gr_n_loans].
    apply groupby_dropna_sizes. }
  assert (Hd : Qsum (map (fun row => inject_Z (Z.of_nat (gr_n_loans row))
                                     * gr_default_rate row)
                         (compute_default_rate_by_grade df))
               == inject_Z (Z.of_nat (countb (fun r => has_key (col_grade r)
                                                       && col_default_flag r) df))).
  { rewrite Hs, map_map. cbn [grade_rate_row gr_n_loans gr_default_rate].
    apply groupby_dropna_flags. }
  split; [exact Hs|]. split; [rewrite Hs; exact Hk|].
  split; [rewrite Hs, Hk; apply unique_increasing|].
  split; [exact Hn|]. split; [exact Hd|]. split.
  - intros Hg. destruct (all_keys_none_missing col_grade df Hg) as [H0 Hf].
    split; [lia|]. split; [now rewrite Hd, Hf|].
    intros Hc. destruct (all_keys_none_missing col_cohort df Hc) as [H0' _].
    assert (Hv : (sum_nat (map v_n_loans (compute_volume_by_cohort df))
                  + countb (fun r => negb (has_key (col_cohort r))) df
                  = length df)%nat).
    { unfold compute_volume_by_cohort. rewrite map_map.
      cbn [volume_row v_n_loans]. apply groupby_dropna_sizes. }
    lia.
  - vm_compute. repeat split; reflexivity.
Qed.

(* ================================================================== *)
(** * The tables against one another *)


(** X8.  The PSI table and the completeness table split a cohort the
    same way: a PSI row has a completeness row of its period and feature,
    and its observation count is that row's record count less the missing
    values of the feature, so it never exceeds it. *)
Theorem psi_observations_and_missing (df : list Loan) :
  (forall f, In f DRIFT_FEATURES -> baseline f df <> []) ->
  exists rows,
    compute_psi_by_cohort df = Ok rows /\
    forall prow, In prow rows ->
      exists mrow g,
        In mrow (compute_missing_rates df) /\
        In (psi_period prow, g) (groupby cohort df) /\
        m_period mrow = psi_period prow /\ m_feature mrow = psi_feature prow /\
        (n_obs prow + countb isna (map (column (psi_feature prow)) g)
         = n_records mrow)%nat /\
        (10 <= n_obs prow <= n_records mrow)%nat.
Proof.
  intros Hb. eexists. split; [now apply compute_psi_by_cohort_eq|].
  intros prow Hp. apply psi_rows_In in Hp.
  destruct Hp as (f & g & Hf & Hg & Hpf & Hl & Hn & _). subst f.
  exists (missing_row (psi_period prow, g) (psi_feature prow)), g.
  split.
  { apply missing_rows_In. exists (psi_period prow, g), (psi_feature prow).
    split; auto. split; auto. apply feature_in_DQ. }
  split; auto. cbn [missing_row m_period m_feature n_records fst snd].
  split; auto. split; auto.
  pose proof (isna_dropna (map (column (psi_feature prow)) g)) as Hs.
  rewrite length_map in Hs. lia.
Qed.

Lemma psi_frame_observations :
  exists rows,
    compute_psi_by_cohort psi_frame = Ok rows /\
    forall prow, In prow rows -> (10 <= n_obs prow)%nat.
Proof.
  destruct (psi_observations_and_missing psi_frame psi_frame_baselines)
    as (rows & Hrows & H).
  exists rows. split; auto.
  intros prow Hp. destruct (H prow Hp) as (m & g & _ & _ & _ & _ & _ & Hle).
  lia.
Defined.

(* ================================================================== *)
(** * Months and quarters *)

Lemma cohort_q_quarter_start r : cohort_q r = quarter_start (cohort r).
Proof. reflexivity. Qed.

Lemma filter_filter {A} (f g : A -> bool) l :
  filter f (filter g l) = filter (fun x => g x && f x) l.
Proof.
  induction l as [|a l IH]; auto. simpl.
  destruct (g a); simpl; [destruct (f a)|]; now rewrite IH.
Qed.

(** A monthly group lies inside the group of its quarter. *)
Lemma month_in_quarter df k gk :
  In (k, gk) (groupby cohort df) ->
  exists gq, In (quarter_start k, gq) (groupby cohort_q df) /\
             gk = filter (fun r => keqb (cohort r) k) gq.
Proof.
  intros Hk. apply groupby_spec in Hk. destruct Hk as [Hin ->].
  exists (filter (fun r => keqb (cohort_q r) (quarter_start k)) df). split.
  - apply groupby_spec. split; auto.
    apply in_map_iff in Hin. destruct Hin as (r & <- & Hr).
    apply in_map_iff. exists r. auto.
  - rewrite filter_filter. apply filter_ext. intros r.
    destruct (keqb (cohort r) k) eqn:E; [|now rewrite andb_false_r].
    apply keqb_eq in E. rewrite cohort_q_quarter_start, E.
    now rewrite (proj2 (keqb_eq _ _) eq_refl).
Qed.

Lemma skipped_filter floor (f : Loan -> bool) g :
  skipped floor (filter f g) = false -> skipped floor g = false.
Proof.
  rewrite !skipped_false, !nunique_two. intros [[Ht Hf] Hl].
  split; [split|].
  - apply in_map_iff in Ht. destruct Ht as (r & E & Hr).
    apply filter_In in Hr. rewrite <- E. apply in_map. tauto.
  - apply in_map_iff in Hf. destruct Hf as (r & E & Hr).
    apply filter_In in Hr. rewrite <- E. apply in_map. tauto.
  - pose proof (filter_length_le f g). lia.
Qed.

(** X9.  Months nest in quarters.  The group of a quarter holds as many
    loans as the groups of its months together, and a month that passes
    the AUC guard makes its quarter pass it: a monthly AUC row always comes
    with the quarterly row of its quarter. *)
Theorem months_nest_in_quarters (df : list Loan) :
  (forall q gq, In (q, gq) (groupby cohort_q df) ->
     length gq =
     sum_nat (map (fun m => length (snd m))
                  (filter (fun m => keqb (quarter_start (fst m)) q)
                          (groupby cohort df)))) /\
  (forall k gk, In (k, gk) (groupby cohort df) ->
     exists gq, In (quarter_start k, gq) (groupby cohort_q df) /\
                incl gk gq /\
                (skipped 30 gk = false -> skipped 30 gq = false)) /\
  exists results,
    auc_results df = Ok results /\
    forall row, In row results -> res_granularity row = Month ->
      exists qrow, In qrow results /\ res_granularity qrow = Quarter /\
                   res_period qrow = quarter_start (res_period row) /\
                   (res_n_loans row <= res_n_loans qrow)%nat.
Proof.
  split; [|split].
  - intros q gq Hq. apply groupby_spec in Hq. destruct Hq as [_ ->].
    rewrite (groupby_sizes cohort (fun k => keqb (quarter_start k) q)).
    reflexivity.
  - intros k gk Hk. destruct (month_in_quarter df k gk Hk) as (gq & Hq & E).
    exists gq. split; auto. split.
    + rewrite E. intros r Hr. apply filter_In in Hr. tauto.
    + rewrite E. apply skipped_filter.
  - eexists. split; [apply auc_results_eq|].
    intros row Hrow Hm. apply in_app_iff in Hrow. destruct Hrow as [Hrow|Hrow].
    + apply in_flat_map in Hrow. destruct Hrow as ([k gk] & Hk & Hrow).
      unfold auc_rows in Hrow. cbn [fst snd] in Hrow.
      destruct (skipped 30 gk) eqn:Hs; [destruct Hrow|].
      destruct Hrow as [<-|[]].
      destruct (month_in_quarter df k gk Hk) as (gq & Hq & E).
      assert (Hsq : skipped 30 gq = false).
      { rewrite E in Hs. eapply skipped_filter; eauto. }
      exists (auc_row Quarter (quarter_start k) gq).
      split; [|split; [|split]]; auto.
      * apply in_app_iff. right. apply in_flat_map.
        exists (quarter_start k, gq). split; auto.
        unfold auc_rows. cbn [fst snd]. rewrite Hsq. now left.
      * cbn. rewrite E. apply filter_length_le.
    + apply auc_rows_granularity in Hrow. congruence.
Qed.

(** X10.  [compute_auc_by_cohort] raises nothing but [KeyError], and
    raises it exactly when no quarterly group passes the guard, that is
    when the table would have no row; otherwise it returns a table with a
    row for every group that passes. *)
Theorem auc_table_or_key_error (df : list Loan) :
  ((forall q gq, In (q, gq) (groupby cohort_q df) -> skipped 30 gq = true) ->
   compute_auc_by_cohort df = Raise KeyError) /\
  (forall q gq, In (q, gq) (groupby cohort_q df) -> skipped 30 gq = false ->
     exists table, compute_auc_by_cohort df = Ok table /\
       exists row, In row table /\ period row = q /\ granularity row = Quarter) /\
  (forall e, compute_auc_by_cohort df = Raise e -> e = KeyError).
Proof.
  unfold compute_auc_by_cohort. rewrite auc_results_eq. cbn [bind].
  split; [|split].
  - intros Hall.
    assert (Hq : flat_map (auc_rows Quarter) (groupby cohort_q df) = []).
    { induction (groupby cohort_q df) as [|[q gq] G IH]; auto.
      cbn [flat_map]. unfold auc_rows at 1. cbn [fst snd].
      rewrite (Hall q gq) by now left. apply IH.
      intros q' g' H'. apply (Hall q' g'). now right. }
    assert (Hm : flat_map (auc_rows Month) (groupby cohort df) = []).
    { destruct (flat_map (auc_rows Month) (groupby cohort df)) as [|row t] eqn:E;
        auto. exfalso.
      assert (Hin : In row (flat_map (auc_rows Month) (groupby cohort df)))
        by (rewrite E; now left).
      apply in_flat_map in Hin. destruct Hin as ([k gk] & Hk & Hrow).
      unfold auc_rows in Hrow. cbn [fst snd] in Hrow.
      destruct (skipped 30 gk) eqn:Hs; [destruct Hrow|].
      destruct (month_in_quarter df k gk Hk) as (gq & Hgq & Eg).
      rewrite Eg in Hs. apply skipped_filter in Hs.
      rewrite (Hall _ _ Hgq) in Hs. discriminate. }
    now rewrite Hq, Hm.
  - intros q gq Hq Hs.
    set (results := flat_map (auc_rows Month) (groupby cohort df)
                    ++ flat_map (auc_rows Quarter) (groupby cohort_q df)).
    assert (Hin : In (auc_row Quarter q gq) results).
    { apply in_app_iff. right. apply in_flat_map. exists (q, gq). split; auto.
      unfold auc_rows. cbn [fst snd]. rewrite Hs. now left. }
    destruct results as [|r0 rs] eqn:Er; [destruct Hin|]. rewrite <- Er in *.
    eexists. split; [reflexivity|].
    assert (Hnd : NoDup (map fst (monthly_rolling results))).
    { apply (monthly_rolling_periods df). apply auc_results_eq. }
    rewrite (merge_left_lookup _ _ Hnd), map_map.
    eexists. split; [apply in_map; exact Hin|]. split; reflexivity.
  - intros e. destruct (_ ++ _); [congruence|discriminate].
Qed.

Lemma cohort_of_25_raises : compute_auc_by_cohort cohort_of_25 = Raise KeyError.
Proof.
  apply (proj1 (auc_table_or_key_error cohort_of_25)).
  intros q gq Hin. vm_compute in Hin.
  destruct Hin as [[= <- <-]|[]]. vm_compute. reflexivity.
Defined.

(* ================================================================== *)
(** * What the AUC tables hold *)

Lemma results_rows df row :
  In row (flat_map (auc_rows Month) (groupby cohort df)
          ++ flat_map (auc_rows Quarter) (groupby cohort_q df)) <->
  exists k g, skipped 30 g = false /\
    ((In (k, g) (groupby cohort df) /\ row = auc_row Month k g) \/
     (In (k, g) (groupby cohort_q df) /\ row = auc_row Quarter k g)).
Proof.
  rewrite in_app_iff, !in_flat_map. split.
  - intros [([k g] & Hg & Hrow)|([k g] & Hg & Hrow)];
      unfold auc_rows in Hrow; cbn [fst snd] in Hrow;
      destruct (skipped 30 g) eqn:Hs; try (now destruct Hrow);
      destruct Hrow as [<-|[]]; exists k, g; auto.
  - intros (k & g & Hs & [[Hg ->]|[Hg ->]]); [left|right];
      exists (k, g); (split; [exact Hg|]);
      unfold auc_rows; cbn [fst snd]; rewrite Hs; now left.
Qed.

Lemma auc_row_range gran k g :
  skipped 30 g = false ->
  0 <= res_auc (auc_row gran k g) <= 1 /\
  0 <= res_default_rate (auc_row gran k g) <= 1 /\
  (30 <= res_n_loans (auc_row gran k g))%nat.
Proof.
  intros Hs. cbn [auc_row res_auc res_default_rate res_n_loans].
  apply skipped_false in Hs. destruct Hs as [Hn Hl].
  apply nunique_two in Hn. destruct Hn as [Ht Hf].
  apply n_pos_scored in Ht. apply n_neg_scored in Hf.
  split; [|split]; auto.
  - apply (round_nd_between _ 4 0 1). now apply auc_of_range.
  - apply (round_nd_between _ 4 0 1). apply flag_mean_range.
Qed.



(** The smoothed values of values of [0, 1] are values of [0, 1]. *)
Lemma rolling3_unit (l : list Q) v :
  (forall x, In x l -> 0 <= x <= 1) -> In v (rolling3 l) -> 0 <= v <= 1.
Proof.
  intros Hb Hv. unfold rolling3 in Hv.
  apply in_map_iff in Hv. destruct Hv as (i & <- & Hi).
  apply in_seq in Hi. rewrite rolling_mean_nth by lia.
  apply (round_float_between _ _ 4 0 1). apply mean_unit.
  intros x Hx. apply Hb. eapply window_incl; eauto.
Qed.

Lemma smoothed_at_in right p v :
  smoothed_at right p = Some v -> In v (map snd right).
Proof.
  unfold smoothed_at. destruct (find _ right) as [r|] eqn:E; [|discriminate].
  intros [= <-]. apply find_some in E. apply in_map. tauto.
Qed.

(** The returned table, row by row. *)
Lemma table_of_results df table :
  compute_auc_by_cohort df = Ok table ->
  table =
  map (fun l => fillna_auc
         (l, smoothed_at
               (monthly_rolling
                  (flat_map (auc_rows Month) (groupby cohort df)
                   ++ flat_map (auc_rows Quarter) (groupby cohort_q df)))
               (res_period l)))
      (flat_map (auc_rows Month) (groupby cohort df)
       ++ flat_map (auc_rows Quarter) (groupby cohort_q df)).
Proof.
  unfold compute_auc_by_cohort. rewrite auc_results_eq. cbn [bind].
  set (results := _ ++ _). intros Hc.
  assert (Ht : Ok (map fillna_auc (merge_left results (monthly_rolling results)))
               = Ok table) by (destruct results; [discriminate|exact Hc]).
  injection Ht as <-.
  assert (Hnd : NoDup (map fst (monthly_rolling results))).
  { apply (monthly_rolling_periods df). apply auc_results_eq. }
  now rewrite (merge_left_lookup _ _ Hnd), map_map.
Qed.

(** X11.  Whenever the AUC table is returned, every row has its AUC, its
    smoothed AUC and its default rate in [0, 1] and counts at least 30
    loans, and no two rows have the same period and granularity. *)
Theorem auc_table_invariants (df : list Loan) table :
  compute_auc_by_cohort df = Ok table ->
  (forall row, In row table ->
     0 <= auc row <= 1 /\ 0 <= auc_rolling3 row <= 1 /\
     0 <= default_rate row <= 1 /\ (30 <= n_loans row)%nat) /\
  (forall row row', In row table -> In row' table ->
     period row = period row' -> granularity row = granularity row' ->
     row = row').
Proof.
  intros Hc. apply table_of_results in Hc.
  set (results := flat_map (auc_rows Month) (groupby cohort df)
                  ++ flat_map (auc_rows Quarter) (groupby cohort_q df)) in *.
  assert (Hres : forall l, In l results ->
            0 <= res_auc l <= 1 /\ 0 <= res_default_rate l <= 1 /\
            (30 <= res_n_loans l)%nat).
  { intros l Hl. apply results_rows in Hl.
    destruct Hl as (k & g & Hs & [[_ ->]|[_ ->]]); now apply auc_row_range. }
  split.
  - intros row Hrow. rewrite Hc in Hrow. apply in_map_iff in Hrow.
    destruct Hrow as (l & <- & Hl).
    destruct (Hres l Hl) as (Ha & Hd & Hn).
    cbn [fillna_auc auc auc_rolling3 default_rate n_loans fst snd].
    split; auto. split; auto.
    destruct (smoothed_at _ _) eqn:Es; auto.
    apply smoothed_at_in in Es. unfold monthly_rolling in Es.
    rewrite map_snd_combine in Es by now rewrite rolling3_length, !length_map.
    eapply rolling3_unit; [|exact Es].
    intros x Hx. apply in_map_iff in Hx. destruct Hx as (l' & <- & Hl').
    apply sort_values_in, filter_In in Hl'. apply Hres. tauto.
  - intros row row' Hrow Hrow' Hp Hg. rewrite Hc in Hrow, Hrow'.
    apply in_map_iff in Hrow, Hrow'.
    destruct Hrow as (l & <- & Hl). destruct Hrow' as (l' & <- & Hl').
    cbn [fillna_auc period granularity fst snd] in Hp, Hg.
    assert (l = l'); [|now subst].
    apply results_rows in Hl, Hl'.
    destruct Hl as (k & g & _ & [[Hk ->]|[Hk ->]]);
      destruct Hl' as (k' & g' & _ & [[Hk' ->]|[Hk' ->]]);
      cbn in Hp, Hg; try discriminate; subst k';
      now rewrite (groupby_functional _ _ _ _ _ Hk Hk').
Qed.

Lemma first_quarter_table_in_range :
  exists table,
    compute_auc_by_cohort first_quarter = Ok table /\
    forall row, In row table -> 0 <= auc_rolling3 row <= 1.
Proof.
  eexists. split; [vm_compute; reflexivity|].
  intros row Hrow.
  refine (proj1 (proj2 (proj1 (auc_table_invariants first_quarter _ _) row Hrow))).
  vm_compute. reflexivity.
Defined.

(** X12.  The segment table never raises; whenever a row is in it, its
    AUC and its default rate are in [0, 1] and it counts at least 20 loans
    of one month and one grade, and no two rows have the same period and
    grade. *)
Theorem grade_table_invariants (df : list Loan) :
  exists table,
    compute_auc_by_cohort_grade df = Ok table /\
    (forall row, In row table ->
       0 <= g_auc row <= 1 /\ 0 <= g_default_rate row <= 1 /\
       (20 <= g_n_loans row)%nat /\
       exists g, In ((g_period row, g_grade row), g)
                    (groupby (fun r => (cohort r, grade r)) df) /\
                 g_n_loans row = length g /\
                 (forall r, In r g -> cohort r = g_period row /\ grade r = g_grade row)) /\
    (forall row row', In row table -> In row' table ->
       g_period row = g_period row' -> g_grade row = g_grade row' -> row = row').
Proof.
  eexists. split; [apply compute_auc_by_cohort_grade_eq|].
  assert (Hrows : forall row,
            In row (flat_map grade_rows (groupby (fun r => (cohort r, grade r)) df)) ->
            exists k g, In (k, g) (groupby (fun r => (cohort r, grade r)) df) /\
                        skipped 20 g = false /\ row = grade_row k g).
  { intros row Hrow. apply in_flat_map in Hrow.
    destruct Hrow as ([k g] & Hg & Hrow). unfold grade_rows in Hrow.
    cbn [fst snd] in Hrow. destruct (skipped 20 g) eqn:Hs; [destruct Hrow|].
    destruct Hrow as [<-|[]]. now exists k, g. }
  split.
  - intros row Hrow. destruct (Hrows row Hrow) as ([c gr] & g & Hg & Hs & ->).
    cbn [grade_row g_auc g_default_rate g_n_loans g_period g_grade fst snd].
    pose proof Hs as Hs'. apply skipped_false in Hs'. destruct Hs' as [Hn Hl].
    apply nunique_two in Hn. destruct Hn as [Ht Hf].
    apply n_pos_scored in Ht. apply n_neg_scored in Hf.
    split; [apply (round_nd_between _ 4 0 1); now apply auc_of_range|].
    split; [apply (round_nd_between _ 4 0 1); apply flag_mean_range|].
    split; auto. exists g. split; auto. split; auto.
    intros r Hr. apply groupby_spec in Hg. destruct Hg as [_ ->].
    apply filter_In in Hr. destruct Hr as [_ Hk].
    apply keqb_eq in Hk. now injection Hk.
  - intros row row' Hrow Hrow' Hp Hg.
    destruct (Hrows row Hrow) as ([c gr] & g & Hk & _ & ->).
    destruct (Hrows row' Hrow') as ([c' gr'] & g' & Hk' & _ & ->).
    cbn in Hp, Hg. subst c' gr'.
    now rewrite (groupby_functional _ _ _ _ _ Hk Hk').
Qed.

(* ================================================================== *)
(** * More on the PSI *)

Lemma psi_term_swap e a : (0 < e)%R -> (0 < a)%R -> psi_term e a = psi_term a e.
Proof.
  intros He Ha. unfold psi_term.
  replace (e / a)%R with (/ (a / e))%R by (field; split; lra).
  rewrite ln_Rinv by (apply Rdiv_lt_0_compat; lra).
  ring.
Qed.

Lemma psi_sum_swap xs ys :
  (forall p, In p xs -> (0 < p)%R) -> (forall p, In p ys -> (0 < p)%R) ->
  psi_sum xs ys = psi_sum ys xs.
Proof.
  unfold psi_sum. revert ys. induction xs as [|x xs IH]; intros [|y ys] Hx Hy;
    auto.
  cbn [combine map fst snd Rsum fold_right].
  fold (Rsum (map (fun ea => psi_term (fst ea) (snd ea)) (combine xs ys))).
  fold (Rsum (map (fun ea => psi_term (fst ea) (snd ea)) (combine ys xs))).
  rewrite IH;
    [|intros; apply Hx; now right|intros; apply Hy; now right].
  rewrite (psi_term_swap x y); [reflexivity|apply Hx|apply Hy]; now left.
Qed.

(** X13.  Over given edges the PSI is symmetric: exchanging the two
    populations leaves the value as it is.  [compute_psi] is asymmetric
    only through its edges, which are taken from [expected]: when the two
    populations are binned alike by either one's edges, the two calls
    agree. *)
Theorem psi_symmetric_over_edges :
  (forall edges x y, psi_over edges x y = psi_over edges y x) /\
  (forall expected actual ee ea,
      psi_edges expected PSI_N_BINS = Ok ee ->
      psi_edges actual PSI_N_BINS = Ok ea ->
      histogram ee (dropna expected) = histogram ea (dropna expected) ->
      histogram ee (dropna actual) = histogram ea (dropna actual) ->
      compute_psi expected actual PSI_N_BINS = compute_psi actual expected PSI_N_BINS).
Proof.
  assert (Hsym : forall edges x y, psi_over edges x y = psi_over edges y x).
  { intros edges x y. unfold psi_over. f_equal.
    apply psi_sum_swap; apply pct_positive. }
  split; [exact Hsym|].
  intros expected actual ee ea He Ha H1 H2.
  unfold compute_psi. rewrite He, Ha. cbn [bind].
  rewrite <- H1, <- H2, orb_comm.
  destruct (_ || _); auto.
  f_equal. apply (Hsym ee (dropna expected) (dropna actual)).
Qed.

Lemma psi_symmetric_permuted :
  compute_psi (map Some [1; 2; 3; 7]) (map Some [7; 3; 1; 2]) PSI_N_BINS
  = compute_psi (map Some [7; 3; 1; 2]) (map Some [1; 2; 3; 7]) PSI_N_BINS.
Proof.
  destruct psi_symmetric_over_edges as [_ H].
  eapply H; vm_compute; reflexivity.
Defined.

Lemma psi_value_nonneg base actual : (0 <= psi_value base actual)%R.
Proof.
  unfold psi_value. destruct (psi_edges _ _); [|lra].
  unfold psi_over. apply Rround_nonneg, psi_sum_nonneg; apply pct_positive.
Qed.

(** X14.  Every row of the PSI table has a PSI that is not negative and
    at least 10 observations; no two rows have the same period and
    feature; and the table has at most four rows a monthly cohort. *)
Theorem psi_table_invariants (df : list Loan) :
  (forall f, In f DRIFT_FEATURES -> baseline f df <> []) ->
  exists rows,
    compute_psi_by_cohort df = Ok rows /\
    (forall row, In row rows -> (0 <= psi row)%R /\ (10 <= n_obs row)%nat) /\
    (forall row row', In row rows -> In row' rows ->
       psi_period row = psi_period row' -> psi_feature row = psi_feature row' ->
       row = row') /\
    (length rows <= 4 * length (groupby cohort df))%nat.
Proof.
  intros Hb. eexists. split; [now apply compute_psi_by_cohort_eq|].
  split; [|split].
  - intros row Hrow. apply psi_rows_In in Hrow.
    destruct Hrow as (f & g & _ & _ & _ & Hl & Hn & Hp).
    rewrite Hp, Hn. split; auto. apply psi_value_nonneg.
  - intros row row' Hrow Hrow' Hp Hf.
    apply psi_rows_In in Hrow, Hrow'.
    destruct Hrow as (f & g & _ & Hg & Hrf & _ & Hn & Hv).
    destruct Hrow' as (f' & g' & _ & Hg' & Hrf' & _ & Hn' & Hv').
    rewrite <- Hp in Hg'. rewrite (groupby_functional _ _ _ _ _ Hg' Hg) in *.
    assert (f' = f) by congruence. subst f'.
    destruct row, row'; simpl in *. congruence.
  - unfold DRIFT_FEATURES. cbn [flat_map]. rewrite !length_app. cbn [length].
    assert (Hle : forall f base G,
              (length (flat_map (psi_rows f base) G) <= length G)%nat).
    { intros f base G. induction G as [|g G IH]; auto.
      cbn [flat_map]. rewrite length_app. unfold psi_rows at 1.
      destruct (_ <? _)%nat; simpl; lia. }
    pose proof (Hle Dti (baseline Dti df) (groupby cohort df)).
    pose proof (Hle IntRate (baseline IntRate df) (groupby cohort df)).
    pose proof (Hle AnnualInc (baseline AnnualInc df) (groupby cohort df)).
    pose proof (Hle LoanAmnt (baseline LoanAmnt df) (groupby cohort df)).
    lia.
Qed.

Lemma psi_frame_table_nonneg :
  exists rows,
    compute_psi_by_cohort psi_frame = Ok rows /\
    forall row, In row rows -> (0 <= psi row)%R.
Proof.
  destruct (psi_table_invariants psi_frame psi_frame_baselines)
    as (rows & Hrows & H & _).
  exists rows. split; auto. intros row Hrow. apply (H row Hrow).
Defined.

Lemma train_app df extra :
  (forall r, In r extra -> isin (year r) TRAIN_YEARS = false) ->
  train (df ++ extra) = train df.
Proof.
  intros Hx. unfold train. rewrite filter_app, (filter_none _ extra) by exact Hx.
  apply app_nil_r.
Qed.

(** X15.  The baseline is frozen.  Loans of the monitoring years added
    to the frame change neither the baseline of a feature nor its edges,
    and every row the PSI table had for a month the new loans do not touch
    is in the new table unchanged. *)
Theorem psi_baseline_frozen (df extra : list Loan) :
  (forall f, In f DRIFT_FEATURES -> baseline f df <> []) ->
  (forall r, In r extra -> isin (year r) TRAIN_YEARS = false) ->
  (forall f, baseline f (df ++ extra) = baseline f df /\
             psi_edges (map Some (baseline f (df ++ extra))) PSI_N_BINS
             = psi_edges (map Some (baseline f df)) PSI_N_BINS) /\
  exists rows rows',
    compute_psi_by_cohort df = Ok rows /\
    compute_psi_by_cohort (df ++ extra) = Ok rows' /\
    forall row, In row rows ->
      (forall r, In r extra -> cohort r <> psi_period row) ->
      In row rows'.
Proof.
  intros Hb Hx.
  assert (Hbase : forall f, baseline f (df ++ extra) = baseline f df).
  { intros f. unfold baseline. now rewrite train_app. }
  split; [intros f; now rewrite Hbase|].
  eexists. eexists. split; [now apply compute_psi_by_cohort_eq|].
  split.
  { apply compute_psi_by_cohort_eq. intros f Hf. rewrite Hbase. now apply Hb. }
  intros row Hrow Hfresh. apply psi_rows_In in Hrow. apply psi_rows_In.
  destruct Hrow as (f & g & Hf & Hg & Hrf & Hl & Hn & Hp).
  exists f, g. rewrite Hbase. repeat split; auto.
  apply groupby_spec in Hg. destruct Hg as [Hin ->]. apply groupby_spec. split.
  - rewrite map_app. apply in_or_app. now left.
  - rewrite filter_app, (filter_none _ extra); [now rewrite app_nil_r|].
    intros r Hr. apply not_true_iff_false. intros E. apply keqb_eq in E.
    now apply (Hfresh r Hr).
Qed.

Lemma psi_frame_frozen :
  exists rows rows',
    compute_psi_by_cohort psi_frame = Ok rows /\
    compute_psi_by_cohort (psi_frame ++ [mk_feat (2017, 1)%Z 50]) = Ok rows' /\
    forall row, In row rows -> psi_period row <> (2017, 1)%Z -> In row rows'.
Proof.
  destruct (psi_baseline_frozen psi_frame [mk_feat (2017, 1)%Z 50]
              psi_frame_baselines)
    as (_ & rows & rows' & Hr & Hr' & H).
  - intros r [<-|[]]. vm_compute. reflexivity.
  - exists rows, rows'. split; auto. split; auto.
    intros row Hrow Hne. apply H; auto.
    intros r [<-|[]] E. apply Hne. symmetry. exact E.
Defined.

Lemma insert_key_length {K} `{KeyOrder K} (k : K) ks :
  (length (insert_key k ks) <= S (length ks))%nat.
Proof.
  induction ks as [|a ks IH]; simpl; auto.
  destruct (kcmp k a); simpl; lia.
Qed.

Lemma unique_length {K} `{KeyOrder K} (l : list K) :
  (length (unique l) <= length l)%nat.
Proof.
  induction l as [|a l IH]; simpl; auto.
  pose proof (insert_key_length a (unique l)). lia.
Qed.

Lemma removelast_len {A} (l : list A) :
  length (removelast l) = (length l - 1)%nat.
Proof.
  rewrite removelast_firstn_len, length_firstn. lia.
Qed.

Lemma bins_length edges : length (bins edges) = (length edges - 1)%nat.
Proof.
  induction edges as [|a edges IH]; auto.
  destruct edges as [|b edges]; auto.
  change (bins (a :: b :: edges)) with
    ((a, b, match edges with [] => true | _ => false end) :: bins (b :: edges)).
  cbn [length] in *. rewrite IH. lia.
Qed.

(** X16.  A baseline with a value gives between 1 and 10 bins, and both
    populations get one count for each of them: the sum of line 105 pairs
    every bin of the one with the same bin of the other and leaves none
    out. *)
Theorem psi_bins_are_paired (expected : list (option Q)) :
  dropna expected <> [] ->
  exists edges,
    psi_edges expected PSI_N_BINS = Ok edges /\
    (2 <= length edges <= 11)%nat /\
    forall xs ys,
      length (histogram edges xs) = (length edges - 1)%nat /\
      length (combine (pct (histogram edges xs)) (pct (histogram edges ys)))
      = (length edges - 1)%nat.
Proof.
  intros He.
  destruct (psi_edges_spec expected PSI_N_BINS He) as (edges & Hedges & Hdef & _ & _ & _ & Hlen);
    [unfold PSI_N_BINS; lia|].
  exists edges. split; auto. split.
  - split; auto. rewrite Hdef.
    etransitivity; [apply unique_length|].
    cbn [length]. rewrite length_app, removelast_len.
    destruct (map Fin _) as [|e0 es] eqn:E; [simpl; lia|].
    apply (f_equal (@length _)) in E.
    rewrite !length_map, linspace01_length in E.
    cbn [tl length] in *. unfold PSI_N_BINS in E. lia.
  - intros xs ys.
    assert (Hh : forall vs, length (histogram edges vs) = (length edges - 1)%nat).
    { intros vs. now rewrite histogram_length, bins_length. }
    split; auto.
    unfold pct. rewrite length_combine, !length_map, !Hh. lia.
Qed.

Lemma psi_bins_of_a_clustered_baseline :
  exists edges,
    psi_edges (map Some [1; 1; 1; 1; 5]) PSI_N_BINS = Ok edges /\
    (2 <= length edges <= 11)%nat.
Proof.
  destruct (psi_bins_are_paired (map Some [1; 1; 1; 1; 5])) as (edges & He & Hl & _).
  - vm_compute. discriminate.
  - exists edges. auto.
Defined.

Lemma filter_map_swap {A B} (p : B -> bool) (h : A -> B) l :
  filter p (map h l) = map h (filter (fun x => p (h x)) l).
Proof.
  induction l as [|a l IH]; auto.
  simpl. destruct (p (h a)); simpl; now rewrite IH.
Qed.

Lemma groupby_map {K R} `{KeyOrder K} (key : R -> K) (h : R -> R) df :
  (forall r, key (h r) = key r) ->
  groupby key (map h df) =
  map (fun g => (fst g, map h (snd g))) (groupby key df).
Proof.
  intros Hk. unfold groupby. rewrite !map_map.
  rewrite (map_ext (fun r => key (h r)) key Hk).
  apply map_ext. intros k. cbn [fst snd]. f_equal.
  rewrite filter_map_swap. f_equal. apply filter_ext.
  intros r. now rewrite Hk.
Qed.

Lemma cap_dti_idem v : cap_dti (cap_dti v) = cap_dti v.
Proof.
  unfold cap_dti. destruct v as [x|]; auto.
  destruct (kltb 100 x) eqn:E; auto. cbv beta iota. now rewrite E.
Qed.


(* ================================================================== *)
(** * [compute_feature_distributions], the returned frame *)

Lemma take_rows_In {A} idxs (rows : list A) x :
  In x (take_rows idxs rows) -> In x rows.
Proof.
  unfold take_rows. rewrite in_flat_map. intros (i & _ & Hx).
  destruct (nth_error rows i) as [r|] eqn:E; [|destruct Hx].
  destruct Hx as [<-|[]]. now apply nth_error_In in E.
Qed.

Lemma strata_permutation df :
  Permutation (stratum MONITORING df ++ stratum TRAINING df) (map dist_row df).
Proof.
  destruct stratum_labels as (Hmt & Htm & Hmm & Htt).
  unfold stratum. induction df as [|r df IH]; [constructor|].
  cbn [map filter dist_row period_label]. unfold keqb in *.
  destruct (isin (year r) TRAIN_YEARS);
    rewrite ?Hmm, ?Htt, ?Hmt, ?Htm; cbv iota.
  - apply Permutation_sym, Permutation_cons_app, Permutation_sym, IH.
  - cbn [app]. now constructor.
Qed.

(** X18.  The frame the sampler returns.  An empty frame raises
    [ValueError]; any other frame gives the monitoring rows, then the
    training rows, every one a row of the frame under its own label, no
    more than 10,000 and no more than the frame has; when neither
    stratum is above 5,000 the result is the whole frame, reordered. *)
Theorem sampler_whole_output
  (permutation : Z -> nat -> list nat)
  (permutation_ok : forall seed n, Permutation (permutation seed n) (seq 0 n))
  (df : list Loan) :
  compute_feature_distributions permutation [] = Raise ValueError /\
  (df <> [] ->
   exists s_mon s_tr,
     compute_feature_distributions permutation df = Ok (s_mon ++ s_tr) /\
     (forall row, In row s_mon ->
        period_label row = MONITORING /\ In row (map dist_row df)) /\
     (forall row, In row s_tr ->
        period_label row = TRAINING /\ In row (map dist_row df)) /\
     length (s_mon ++ s_tr) =
       (Nat.min (length (stratum MONITORING df)) 5000
        + Nat.min (length (stratum TRAINING df)) 5000)%nat /\
     (length (s_mon ++ s_tr) <= 10000)%nat /\
     (length (s_mon ++ s_tr) <= length df)%nat /\
     ((length (stratum MONITORING df) <= 5000)%nat ->
      (length (stratum TRAINING df) <= 5000)%nat ->
      Permutation (s_mon ++ s_tr) (map dist_row df))).
Proof.
  split; [reflexivity|]. intros Hne.
  exists (drawn permutation (stratum MONITORING df)),
         (drawn permutation (stratum TRAINING df)).
  destruct (drawn_sampled permutation permutation_ok (stratum MONITORING df))
    as (Hlm & _ & Hpm).
  destruct (drawn_sampled permutation permutation_ok (stratum TRAINING df))
    as (Hlt & _ & Hpt).
  destruct (strata_partition df) as [_ Hlen].
  assert (Hin : forall label row,
             In row (drawn permutation (stratum label df)) ->
             period_label row = label /\ In row (map dist_row df)).
  { intros label row Hrow. unfold drawn in Hrow.
    apply take_rows_In in Hrow. unfold stratum in Hrow.
    apply filter_In in Hrow. destruct Hrow as [Hrow Hl].
    split; auto. now apply keqb_eq in Hl. }
  split; [now apply compute_feature_distributions_eq|].
  split; [apply Hin|]. split; [apply Hin|].
  rewrite length_app, Hlm, Hlt.
  pose proof (Nat.le_min_r (length (stratum MONITORING df)) 5000) as Hm5.
  pose proof (Nat.le_min_r (length (stratum TRAINING df)) 5000) as Ht5.
  pose proof (Nat.le_min_l (length (stratum MONITORING df)) 5000) as Hml.
  pose proof (Nat.le_min_l (length (stratum TRAINING df)) 5000) as Htl.
  split; [reflexivity|]. split.
  { change 10000%nat with (5000 + 5000)%nat. now apply Nat.add_le_mono. }
  split.
  { rewrite <- Hlen, (Nat.add_comm (length (stratum TRAINING df))).
    now apply Nat.add_le_mono. }
  intros Hm Ht.
  rewrite <- strata_permutation.
  apply Permutation_app; [now apply Hpm|now apply Hpt].
Qed.

Lemma sampler_returns_cohort_of_25 :
  exists s,
    compute_feature_distributions (fun _ n => seq 0 n) cohort_of_25 = Ok s /\
    Permutation s (map dist_row cohort_of_25).
Proof.
  destruct (sampler_whole_output (fun _ n => seq 0 n)
              (fun _ n => Permutation_refl (seq 0 n)) cohort_of_25)
    as (_ & H).
  destruct H as (s_mon & s_tr & Hs & _ & _ & _ & _ & _ & Hp).
  - vm_compute. discriminate.
  - exists (s_mon ++ s_tr). split; auto.
    apply Hp; vm_compute; repeat constructor.
Defined.

(* ================================================================== *)
(** * The largest PSI *)

Lemma ln_le_compat x y : (0 < x)%R -> (x <= y)%R -> (ln x <= ln y)%R.
Proof.
  intros Hx [Hlt| ->]; [|lra]. left. now apply ln_increasing.
Qed.

Lemma ln_10001_nonneg : (0 <= ln 10001)%R.
Proof. rewrite <- ln_1. apply ln_le_compat; lra. Qed.

(** One term, for a bin holding the shares [e] and [a] of the two
    populations. *)
Lemma psi_term_upper_ordered e a :
  (0 <= e <= a)%R -> (a <= 1)%R ->
  (psi_term (e + eps) (a + eps) <= (e + a) * ln 10001)%R.
Proof.
  intros [He Hea] Ha. unfold psi_term. pose proof ln_10001_nonneg as HL.
  assert (Hpos : (0 < e + eps)%R) by (unfold eps; lra).
  assert (Hratio : ((a + eps) / (e + eps) <= 10001)%R).
  { apply Rmult_le_reg_r with (e + eps)%R; auto.
    unfold Rdiv. rewrite Rmult_assoc, Rinv_l by lra. unfold eps in *. lra. }
  assert (Hone : (1 <= (a + eps) / (e + eps))%R).
  { apply Rmult_le_reg_r with (e + eps)%R; auto.
    unfold Rdiv. rewrite Rmult_assoc, Rinv_l by lra. lra. }
  assert (Hln : (0 <= ln ((a + eps) / (e + eps)) <= ln 10001)%R).
  { split.
    - rewrite <- ln_1. apply ln_le_compat; lra.
    - apply ln_le_compat; lra. }
  replace (a + eps - (e + eps))%R with (a - e)%R by lra.
  apply Rle_trans with ((a - e) * ln 10001)%R.
  - apply Rmult_le_compat_l; lra.
  - apply Rmult_le_compat_r; lra.
Qed.

Lemma psi_term_upper e a :
  (0 <= e <= 1)%R -> (0 <= a <= 1)%R ->
  (psi_term (e + eps) (a + eps) <= (e + a) * ln 10001)%R.
Proof.
  intros He Ha. pose proof eps_pos as Heps.
  destruct (Rle_lt_dec e a) as [Hle|Hlt].
  - apply psi_term_upper_ordered; lra.
  - rewrite psi_term_swap by lra. rewrite (Rplus_comm e a).
    apply psi_term_upper_ordered; lra.
Qed.

Lemma share_range c (T : R) :
  (0 < T)%R -> (INR c <= T)%R -> (0 <= INR c / T <= 1)%R.
Proof.
  intros HT Hc. pose proof (pos_INR c) as H0. split.
  - apply Rmult_le_pos; auto. left. now apply Rinv_0_lt_compat.
  - apply Rmult_le_reg_r with T; auto.
    unfold Rdiv. rewrite Rmult_assoc, Rinv_l by lra. lra.
Qed.

Lemma psi_sum_upper_shares (E A : R) :
  (0 < E)%R -> (0 < A)%R ->
  forall es acts,
    (forall c, In c es -> (INR c <= E)%R) ->
    (forall c, In c acts -> (INR c <= A)%R) ->
    (Rsum (map (fun ea => psi_term (fst ea) (snd ea))
               (combine (map (fun c => (INR c / E + eps)%R) es)
                        (map (fun c => (INR c / A + eps)%R) acts)))
     <= (INR (sum_nat es) / E + INR (sum_nat acts) / A) * ln 10001)%R.
Proof.
  intros HE HA. pose proof ln_10001_nonneg as HL.
  assert (Hnn : forall T l, (0 < T)%R -> (0 <= INR (sum_nat l) / T)%R).
  { intros T l HT. apply Rmult_le_pos; [apply pos_INR|].
    left. now apply Rinv_0_lt_compat. }
  induction es as [|e es IH]; intros acts He Ha.
  - cbn [map combine Rsum fold_right].
    apply Rmult_le_pos; auto.
    pose proof (Hnn A acts HA). change (sum_nat []) with 0%nat.
    cbn [INR]. unfold Rdiv at 1. rewrite Rmult_0_l. lra.
  - destruct acts as [|a acts].
    + cbn [map combine Rsum fold_right].
      apply Rmult_le_pos; auto.
      pose proof (Hnn E (e :: es) HE). change (sum_nat []) with 0%nat.
      cbn [INR]. unfold Rdiv at 2. rewrite Rmult_0_l. lra.
    + cbn [map combine Rsum fold_right fst snd].
      fold (Rsum (map (fun ea => psi_term (fst ea) (snd ea))
                      (combine (map (fun c => (INR c / E + eps)%R) es)
                               (map (fun c => (INR c / A + eps)%R) acts)))).
      assert (IH' : (Rsum (map (fun ea => psi_term (fst ea) (snd ea))
                            (combine (map (fun c => (INR c / E + eps)%R) es)
                                     (map (fun c => (INR c / A + eps)%R) acts)))
                     <= (INR (sum_nat es) / E + INR (sum_nat acts) / A)
                        * ln 10001)%R).
      { apply IH; intros c Hc; [apply He|apply Ha]; now right. }
      assert (Ht : (psi_term (INR e / E + eps) (INR a / A + eps)
                    <= (INR e / E + INR a / A) * ln 10001)%R).
      { apply psi_term_upper; apply share_range; auto;
          [apply He|apply Ha]; now left. }
      rewrite !sum_nat_cons, !plus_INR, !Rdiv_plus_distr.
      lra.
Qed.

Lemma le_sum_nat c l : In c l -> (c <= sum_nat l)%nat.
Proof.
  induction l as [|a l IH]; intros Hc; [destruct Hc|].
  rewrite sum_nat_cons. destruct Hc as [->|Hc]; [lia|].
  specialize (IH Hc). lia.
Qed.

(** The sum of line 105 is at most 2 ln 10001, about 18.42. *)
Lemma psi_sum_upper es acts :
  sum_nat es <> 0%nat -> sum_nat acts <> 0%nat ->
  (psi_sum (pct es) (pct acts) <= 2 * ln 10001)%R.
Proof.
  intros He Ha. unfold psi_sum, pct.
  assert (HE : (0 < INR (sum_nat es))%R) by (apply lt_0_INR; lia).
  assert (HA : (0 < INR (sum_nat acts))%R) by (apply lt_0_INR; lia).
  eapply Rle_trans.
  - apply (psi_sum_upper_shares _ _ HE HA).
    + intros c Hc. apply le_INR. now apply le_sum_nat.
    + intros c Hc. apply le_INR. now apply le_sum_nat.
  - unfold Rdiv. rewrite !Rinv_r by lra. lra.
Qed.

Lemma Rrint_upper y : (IZR (Rrint y) <= y + 1 / 2)%R.
Proof.
  unfold Rrint. pose proof (Zfloor_bound y) as [Hlo Hhi].
  destruct (Rlt_dec _ _) as [H1|H1]; [lra|].
  destruct (Rlt_dec _ _) as [H2|H2]; [rewrite plus_IZR; lra|].
  destruct (Z.even _); [lra|rewrite plus_IZR; lra].
Qed.

Lemma Rround_upper x n :
  (Rround x n <= x + 1 / (2 * IZR (pow10 n)))%R.
Proof.
  unfold Rround. pose proof (pow10_pos n) as Hp. apply IZR_lt in Hp.
  pose proof (Rrint_upper (x * IZR (pow10 n))) as Hr.
  apply Rmult_le_reg_r with (IZR (pow10 n)); auto.
  unfold Rdiv. rewrite Rmult_assoc, Rinv_l by lra.
  rewrite Rmult_plus_distr_r.
  replace (1 * / (2 * IZR (pow10 n)) * IZR (pow10 n))%R with (1 / 2)%R
    by (field; lra).
  lra.
Qed.

(** X19.  The smoothing constant bounds the PSI.  Whenever [compute_psi]
    returns, its value is the rounding to 6 digits of a sum between 0 and
    2 ln 10001 (about 18.42), whatever the two populations are: two
    populations that share no bin do not give an infinite PSI. *)
Theorem psi_bounded_above (expected actual : list (option Q)) (v : R) :
  compute_psi expected actual PSI_N_BINS = Ok v ->
  exists s,
    v = Rround s 6 /\ (0 <= s <= 2 * ln 10001)%R /\
    (0 <= v <= 2 * ln 10001 + 1 / 2000000)%R.
Proof.
  unfold compute_psi. intros Hv.
  destruct (psi_edges expected PSI_N_BINS) as [edges|e]; [|discriminate].
  cbn [bind] in Hv.
  set (ec := histogram edges (dropna expected)) in *.
  set (ac := histogram edges (dropna actual)) in *.
  destruct (Nat.eqb_spec (sum_nat ec) 0) as [|He]; [discriminate|].
  destruct (Nat.eqb_spec (sum_nat ac) 0) as [|Ha]; [discriminate|].
  cbn [orb] in Hv. injection Hv as <-.
  exists (psi_sum (pct ec) (pct ac)).
  assert (H0 : (0 <= psi_sum (pct ec) (pct ac))%R)
    by (apply psi_sum_nonneg; apply pct_positive).
  pose proof (psi_sum_upper ec ac He Ha) as Hup.
  split; [reflexivity|]. split; [lra|]. split.
  - now apply Rround_nonneg.
  - pose proof (Rround_upper (psi_sum (pct ec) (pct ac)) 6) as Hr.
    change (IZR (pow10 6)) with 1000000%R in Hr. lra.
Qed.

Lemma psi_of_march_2016_bounded :
  (psi_value (baseline Dti psi_frame) (dropna (map (column Dti) march_2016))
   <= 2 * ln 10001 + 1 / 2000000)%R.
Proof.
  destruct (psi_bounded_above
              (map Some (baseline Dti psi_frame))
              (map Some (dropna (map (column Dti) march_2016)))
              (psi_value (baseline Dti psi_frame)
                         (dropna (map (column Dti) march_2016))))
    as (s & _ & _ & _ & H).
  - apply compute_psi_value; vm_compute; discriminate.
  - exact H.
Defined.

(* ================================================================== *)
(** * The status cards *)





Ltac compare_Q :=
  repeat match goal with
         | |- context [kleb ?a ?b] =>
             let E := fresh "E" in
             destruct (kleb a b) eqn:E;
             [apply kleb_Q in E|apply kleb_Q_false in E]
         | |- context [kltb ?a ?b] =>
             let E := fresh "E" in
             destruct (kltb a b) eqn:E;
             [apply kltb_Q in E|apply kltb_Q_false in E]
         end.

(** X20.  The overall card shows the worst of the three cards.  Under
    the conservative preset no card is milder than under the standard
    one, whatever the figures, and under either preset a lower AUC, a
    higher PSI or a lower completeness score never gives a milder
    card. *)
Theorem kpi_cards_severity (latest_auc max_psi dq_score : Q) :
  (forall t,
     let '(auc_c, psi_c, dq_c, health_c) :=
       kpi_colors t latest_auc max_psi dq_score in
     severity health_c
     = Nat.max (severity auc_c) (Nat.max (severity psi_c) (severity dq_c))) /\
  (let '(a_s, p_s, _, h_s) := kpi_colors standard latest_auc max_psi dq_score in
   let '(a_c, p_c, _, h_c) := kpi_colors conservative latest_auc max_psi dq_score in
   (severity a_s <= severity a_c)%nat /\ (severity p_s <= severity p_c)%nat /\
   (severity h_s <= severity h_c)%nat) /\
  (forall t auc' psi' dq',
     auc_alert t <= auc_warning t -> psi_warning t <= psi_alert t ->
     auc' <= latest_auc -> max_psi <= psi' -> dq' <= dq_score ->
     (severity (snd (auc_status t latest_auc))
      <= severity (snd (auc_status t auc')))%nat /\
     (severity (snd (psi_status t max_psi))
      <= severity (snd (psi_status t psi')))%nat /\
     (severity (snd (dq_status dq_score))
      <= severity (snd (dq_status dq')))%nat).
Proof.
  split; [|split].
  - intros t. unfold kpi_colors, health, auc_status, psi_status, dq_status.
    compare_Q; reflexivity.
  - unfold kpi_colors, health, auc_status, psi_status, dq_status.
    cbn [auc_warning auc_alert psi_warning psi_alert standard conservative].
    compare_Q; cbn; try lia; exfalso; lra.
  - intros t auc' psi' dq' Ha Hp Hauc Hpsi Hdq.
    unfold auc_status, psi_status, dq_status.
    split; [|split]; compare_Q; cbn; try lia; exfalso; lra.
Qed.

(* ================================================================== *)
(** * What the AUC sees of the scores *)

Lemma rank_auc2_uniform c ys :
  (forall p n, In p (positives ys) -> In n (negatives ys) -> pair_score p n = c) ->
  rank_auc2 ys = (c * n_pos ys * n_neg ys)%Z.
Proof.
  intros Hc. unfold rank_auc2. rewrite n_pos_length, n_neg_length.
  pose proof (ZS_bounds (against_positives ys)
                        (c * Z.of_nat (length (positives ys)))
                        (c * Z.of_nat (length (positives ys)))
                        (negatives ys)) as Hb.
  unfold ZS in Hb. fold (against_positives ys).
  cut (forall x, In x (negatives ys) ->
         (c * Z.of_nat (length (positives ys)) <= against_positives ys x
          <= c * Z.of_nat (length (positives ys)))%Z).
  { intros H. specialize (Hb H). lia. }
  intros n Hn. unfold against_positives.
  pose proof (ZS_bounds (fun p => pair_score p n) c c (positives ys)) as Hp.
  unfold ZS in Hp. apply Hp. intros p Hp'.
  rewrite (Hc p n Hp' Hn). lia.
Qed.

Lemma auc_of_uniform c ys :
  (0 < n_pos ys)%Z -> (0 < n_neg ys)%Z ->
  (forall p n, In p (positives ys) -> In n (negatives ys) -> pair_score p n = c) ->
  auc_of ys == inject_Z c / 2.
Proof.
  intros Hp Hn Hc. rewrite auc_of_rank, (rank_auc2_uniform c) by auto.
  assert (Hd : ~ inject_Z (n_pos ys) == 0).
  { intros E. change 0 with (inject_Z 0) in E.
    apply (proj1 (inject_Z_injective _ _)) in E. lia. }
  assert (Hd' : ~ inject_Z (n_neg ys) == 0).
  { intros E. change 0 with (inject_Z 0) in E.
    apply (proj1 (inject_Z_injective _ _)) in E. lia. }
  rewrite !inject_Z_mult. change (inject_Z 2) with 2. field. auto.
Qed.

(** X21.  The AUC of a group that passes the guard is exactly 0.5 when
    the model gives every default the score of every good loan (a
    constant score in particular), and exactly 0 when it scores every
    default below every good loan; the rounding to 4 digits keeps both. *)
Theorem auc_of_tied_and_inverted_scores (floor : nat) (group : list Loan) :
  skipped floor group = false ->
  exists a,
    roc_auc_score (map default_flag group) (map pred_default_prob group) = Ok a /\
    ((forall p n, In p (positives (scored_of group)) ->
                  In n (negatives (scored_of group)) -> p == n) ->
     a == 1 # 2 /\ round_nd a 4 = 1 # 2) /\
    ((forall p n, In p (positives (scored_of group)) ->
                  In n (negatives (scored_of group)) -> p < n) ->
     a == 0 /\ round_nd a 4 = 0).
Proof.
  intros Hs. exists (auc_of (scored_of group)).
  split; [now apply (roc_auc_score_guarded floor)|].
  apply skipped_false in Hs. destruct Hs as [Hn _].
  apply nunique_two in Hn. destruct Hn as [Ht Hf].
  apply n_pos_scored in Ht. apply n_neg_scored in Hf.
  split.
  - intros Htie.
    assert (E : auc_of (scored_of group) == 1 # 2).
    { rewrite (auc_of_uniform 1); auto; [reflexivity|].
      intros p n Hp Hn'. unfold pair_score.
      now rewrite (proj1 (Qeq_alt p n) (Htie p n Hp Hn')). }
    split; auto. now rewrite E.
  - intros Hinv.
    assert (E : auc_of (scored_of group) == 0).
    { rewrite (auc_of_uniform 0); auto; [reflexivity|].
      intros p n Hp Hn'. unfold pair_score.
      now rewrite (proj1 (Qlt_alt p n) (Hinv p n Hp Hn')). }
    split; auto. now rewrite E.
Qed.

Lemma auc_of_cohort_of_25_returned :
  exists a,
    roc_auc_score (map default_flag cohort_of_25)
                  (map pred_default_prob cohort_of_25) = Ok a.
Proof.
  destruct (auc_of_tied_and_inverted_scores 20 cohort_of_25) as (a & Ha & _).
  - vm_compute. reflexivity.
  - exists a. exact Ha.
Defined.

Lemma positives_rescored (f : Q -> Q) ys :
  positives (map (fun q => (fst q, f (snd q))) ys) = map f (positives ys).
Proof.
  unfold positives. induction ys as [|[b s] ys IH]; auto.
  cbn [map filter fst snd]. destruct b; cbn [map snd]; now rewrite IH.
Qed.

Lemma negatives_rescored (f : Q -> Q) ys :
  negatives (map (fun q => (fst q, f (snd q))) ys) = map f (negatives ys).
Proof.
  unfold negatives. induction ys as [|[b s] ys IH]; auto.
  cbn [map filter fst snd]. destruct b; cbn [map snd negb]; now rewrite IH.
Qed.

Lemma scored_of_rescore f group :
  scored_of (map (rescore f) group)
  = map (fun q => (fst q, f (snd q))) (scored_of group).
Proof. unfold scored_of. rewrite !map_map. reflexivity. Qed.

Lemma auc_of_rescore f group :
  (forall x y, (f x ?= f y) = (x ?= y)) ->
  auc_of (scored_of (map (rescore f) group)) = auc_of (scored_of group).
Proof.
  intros Hf. rewrite !auc_of_rank, scored_of_rescore.
  rewrite !n_pos_length, !n_neg_length.
  unfold rank_auc2.
  rewrite positives_rescored, negatives_rescored, !length_map, !map_map.
  f_equal. f_equal. f_equal. apply map_ext. intros n.
  rewrite map_map. f_equal. apply map_ext. intros p.
  unfold pair_score. now rewrite Hf.
Qed.

Lemma rescore_rows f group :
  map default_flag (map (rescore f) group) = map default_flag group.
Proof. rewrite map_map. reflexivity. Qed.

Lemma skipped_rescore floor f group :
  skipped floor (map (rescore f) group) = skipped floor group.
Proof. unfold skipped. now rewrite rescore_rows, length_map. Qed.

Lemma flat_map_map {A B C} (h : A -> B) (F : B -> list C) l :
  flat_map F (map h l) = flat_map (fun a => F (h a)) l.
Proof. induction l as [|a l IH]; auto. cbn [map flat_map]. now rewrite IH. Qed.

(** X22.  The AUC tables see only the ranking of the scores.  Replacing
    every score by a strictly increasing function of it (a recalibration,
    a logit) leaves both tables as they are, rows, smoothed values and
    errors alike: the AUC series cannot show a loss of calibration. *)
Theorem auc_tables_see_only_the_ranking (f : Q -> Q) (df : list Loan) :
  (forall x y, (f x ?= f y) = (x ?= y)) ->
  compute_auc_by_cohort (map (rescore f) df) = compute_auc_by_cohort df /\
  compute_auc_by_cohort_grade (map (rescore f) df)
  = compute_auc_by_cohort_grade df.
Proof.
  intros Hf.
  assert (Hrow : forall gran k g,
             auc_rows gran (k, map (rescore f) g) = auc_rows gran (k, g)).
  { intros gran k g. unfold auc_rows, auc_row. cbn [fst snd].
    now rewrite skipped_rescore, auc_of_rescore, rescore_rows, length_map. }
  assert (Hgrow : forall k g,
             grade_rows (k, map (rescore f) g) = grade_rows (k, g)).
  { intros k g. unfold grade_rows, grade_row. cbn [fst snd].
    now rewrite skipped_rescore, auc_of_rescore, rescore_rows, length_map. }
  split.
  - unfold compute_auc_by_cohort. rewrite !auc_results_eq.
    rewrite (groupby_map cohort), (groupby_map cohort_q) by reflexivity.
    rewrite !flat_map_map.
    assert (Hm : forall gran (G : list (Timestamp * list Loan)),
               flat_map (fun a => auc_rows gran (fst a, map (rescore f) (snd a))) G
               = flat_map (auc_rows gran) G).
    { intros gran G. apply flat_map_ext. intros [k g]. apply Hrow. }
    now rewrite !Hm.
  - rewrite !compute_auc_by_cohort_grade_eq.
    rewrite (groupby_map (fun r => (cohort r, grade r))) by reflexivity.
    rewrite flat_map_map. f_equal.
    apply flat_map_ext. intros [k g]. apply Hgrow.
Qed.

Lemma first_quarter_rescored :
  compute_auc_by_cohort (map (rescore (fun x => x + 1)) first_quarter)
  = compute_auc_by_cohort first_quarter.
Proof.
  apply (auc_tables_see_only_the_ranking (fun x => x + 1) first_quarter).
  intros x y. destruct (x ?= y) eqn:E.
  - apply (proj2 (Qeq_alt _ _)) in E. apply (proj1 (Qeq_alt _ _)). lra.
  - apply (proj2 (Qlt_alt _ _)) in E. apply (proj1 (Qlt_alt _ _)). lra.
  - apply (proj2 (Qgt_alt _ _)) in E. apply (proj1 (Qgt_alt _ _)). lra.
Defined.
